(** * A rate-controlled HTTP load generator (main.go)

    Shallow embedding of the dispatch-and-aggregation engine of [main.go]:
    the worker [doRequest], the collectors [processResults] and
    [processErrors], the burst dispatcher [executeRequestWithTimer] and the
    run controller [executeRequests] / [main].

    Conventions.
    - Go's [int] is taken to be 64 bits wide (the width on every 64-bit
      platform); [+=] and [*] wrap around, see [GoInt.wrap].
    - Strings are byte strings ([string] of [ascii]).
    - A nil pointer or nil interface is [None].
    - The environment of one worker (the URL parser, the clock, the HTTP
      client) is a record [Env] of functions.  What the program uses of
      [encoding/json] is written out: the encoder of maps and structs, and
      [Indent] with its validating scanner.
    - A goroutine is the list of its atomic actions on the shared state
      ([Op]); the goroutines of a burst interleave along a schedule
      ([run_schedule]).  Sequential code that logs and may exit runs in
      the monad [IO].
    - Two things are assumed of a burst, and the statements that rest on
      them say so: an increment of a counter of the report is one atomic
      action (the program does not synchronise the increments of its
      workers), and a call of the HTTP client returns (the default client
      has no timeout; a worker starts to act when its call has returned).
    - The program's own code is translated function by function and keeps
      the names of the source. *)

From Stdlib Require Import ZArith NArith List String Ascii Bool Lia Permutation.
Import ListNotations.
Local Open Scope string_scope.
Local Open Scope Z_scope.

(* ================================================================= *)
(** ** Machine integers *)

Module GoInt.

Definition min_int : Z := - 2 ^ 63.
Definition max_int : Z := 2 ^ 63 - 1.

(** Two's-complement wrap-around of a mathematical integer into [int]. *)
Definition wrap (z : Z) : Z := (z + 2 ^ 63) mod 2 ^ 64 - 2 ^ 63.

Definition in_range (z : Z) : Prop := min_int <= z <= max_int.

Definition add (a b : Z) : Z := wrap (a + b).
Definition mul (a b : Z) : Z := wrap (a * b).

End GoInt.

(* ================================================================= *)
(** ** Bytes, decimal rendering *)

Definition dquote : ascii := "034"%char.
Definition newline : ascii := "010"%char.
Definition backslash : ascii := "092"%char.

Definition byte_val (c : ascii) : Z := Z.of_N (N_of_ascii c).

Definition str1 (c : ascii) : string := String c EmptyString.

Definition digit_char (d : N) : ascii := ascii_of_N (48 + d).

(** Digits of [n], most significant first, pushed in front of [acc]. *)
Fixpoint utoa_fuel (fuel : nat) (n : N) (acc : string) : string :=
  match fuel with
  | O => acc
  | S f =>
      let acc' := String (digit_char (n mod 10)) acc in
      if (n / 10 =? 0)%N then acc' else utoa_fuel f (n / 10)%N acc'
  end.

Definition utoa (n : N) : string :=
  utoa_fuel (S (N.to_nat (N.log2 n))) n "".

(** [strconv.Itoa], which is also what [%d] and the JSON encoder print for an
    [int]. *)
Definition itoa (z : Z) : string :=
  match z with
  | Z0 => "0"
  | Zpos p => utoa (Npos p)
  | Zneg p => "-" ++ utoa (Npos p)
  end.

Fixpoint repeat_string (n : nat) (s : string) : string :=
  match n with
  | O => ""
  | S k => s ++ repeat_string k s
  end.

Fixpoint string_drop (n : nat) (s : string) : string :=
  match n, s with
  | O, _ => s
  | S k, String _ r => string_drop k r
  | S _, EmptyString => EmptyString
  end.

Fixpoint string_take (n : nat) (s : string) : string :=
  match n, s with
  | O, _ => EmptyString
  | S k, String c r => String c (string_take k r)
  | S _, EmptyString => EmptyString
  end.

Fixpoint string_forallb (p : ascii -> bool) (s : string) : bool :=
  match s with
  | EmptyString => true
  | String c r => p c && string_forallb p r
  end.

(* ================================================================= *)
(** ** Errors *)

(** Go [error] values.  Transport errors and read errors are identified by
    their text; the syntax errors of [encoding/json] keep the offending byte,
    the context and the offset instead of the formatted message. *)
Inductive error : Type :=
| errorString (msg : string)
| json_SyntaxError_char (c : ascii) (context : string) (offset : Z)
| json_SyntaxError_eof (offset : Z).

(* ================================================================= *)
(** ** encoding/json: the encoder

    The part of [json.Marshal] the program uses: a [map[string]interface{}]
    whose values are strings and ints, and a struct of ints. *)

Module json_enc.

Definition hex_char (d : Z) : ascii :=
  if d <? 10 then ascii_of_N (Z.to_N (48 + d)) else ascii_of_N (Z.to_N (87 + d)).

(** [htmlSafeSet]: printable ASCII except the double quote, the backslash
    and the three characters escaped for HTML. *)
Definition htmlSafe (c : ascii) : bool :=
  let v := byte_val c in
  (32 <=? v) && (v <? 128) &&
  negb (v =? 34) && negb (v =? 92) && negb (v =? 60) && negb (v =? 62) && negb (v =? 38).

(** The escape of an ASCII byte that is not [htmlSafe]. *)
Definition escape_ascii (c : ascii) : string :=
  let v := byte_val c in
  if (v =? 92) || (v =? 34) then String backslash (str1 c)
  else if v =? 8 then String backslash "b"
  else if v =? 12 then String backslash "f"
  else if v =? 10 then String backslash "n"
  else if v =? 13 then String backslash "r"
  else if v =? 9 then String backslash "t"
  else String backslash ("u00" ++ String (hex_char (v / 16)) (str1 (hex_char (v mod 16)))).

Definition between (lo hi : Z) (c : ascii) : bool :=
  (lo <=? byte_val c) && (byte_val c <=? hi).

(** The [first] table of [unicode/utf8] for a lead byte >= 0x80: the width
    of the encoding and the accepted range of the second byte. *)
Definition utf8_first (b0 : ascii) : option (nat * Z * Z) :=
  let v := byte_val b0 in
  if v <? 194 then None
  else if v <=? 223 then Some (2%nat, 128, 191)
  else if v =? 224 then Some (3%nat, 160, 191)
  else if v =? 237 then Some (3%nat, 128, 159)
  else if v <=? 239 then Some (3%nat, 128, 191)
  else if v =? 240 then Some (4%nat, 144, 191)
  else if v <=? 243 then Some (4%nat, 128, 191)
  else if v =? 244 then Some (4%nat, 128, 143)
  else None.

(** [utf8.DecodeRuneInString]: the width of the rune at the head of [s],
    [None] for an invalid encoding ([RuneError] of width 1). *)
Definition utf8_width (s : string) : option nat :=
  match s with
  | String b0 (String b1 r1) =>
      match utf8_first b0 with
      | Some (sz, lo, hi) =>
          if negb (between lo hi b1) then None
          else if (sz =? 2)%nat then Some 2%nat
          else match r1 with
               | String b2 r2 =>
                   if negb (between 128 191 b2) then None
                   else if (sz =? 3)%nat then Some 3%nat
                   else match r2 with
                        | String b3 _ =>
                            if between 128 191 b3 then Some 4%nat else None
                        | EmptyString => None
                        end
               | EmptyString => None
               end
      | None => None
      end
  | _ => None
  end.

(** U+2028 and U+2029 are E2 80 A8 and E2 80 A9. *)
Definition line_separator (s : string) : option ascii :=
  match s with
  | String b0 (String b1 (String b2 _)) =>
      if (byte_val b0 =? 226) && (byte_val b1 =? 128) then
        if byte_val b2 =? 168 then Some "8"%char
        else if byte_val b2 =? 169 then Some "9"%char
        else None
      else None
  | _ => None
  end.

(** The loop of [appendString] with [escapeHTML = true]; one unit of
    [fuel] per iteration, each of which consumes at least one byte. *)
Fixpoint appendString_loop (fuel : nat) (src : string) : string :=
  match fuel with
  | O => ""
  | S f =>
      match src with
      | EmptyString => ""
      | String b rest =>
          if byte_val b <? 128 then
            (if htmlSafe b then str1 b else escape_ascii b)
              ++ appendString_loop f rest
          else
            match utf8_width src with
            | None => String backslash "ufffd" ++ appendString_loop f rest
            | Some size =>
                match line_separator src with
                | Some h =>
                    String backslash "u202" ++ str1 h
                      ++ appendString_loop f (string_drop size src)
                | None =>
                    string_take size src
                      ++ appendString_loop f (string_drop size src)
                end
            end
      end
  end.

Definition appendString (src : string) : string :=
  str1 dquote ++ appendString_loop (String.length src) src ++ str1 dquote.

(** The dynamic values stored in the worker's [map[string]interface{}]. *)
Inductive GoValue : Type :=
| VString (s : string)
| VInt (n : Z).

Definition encode_value (v : GoValue) : string :=
  match v with
  | VString s => appendString s
  | VInt n => itoa n
  end.

(** Map keys are written in increasing byte order. *)
Fixpoint insert_by_key (kv : string * GoValue) (l : list (string * GoValue))
  : list (string * GoValue) :=
  match l with
  | [] => [kv]
  | kv' :: r =>
      if String.leb (fst kv) (fst kv') then kv :: l
      else kv' :: insert_by_key kv r
  end.

Definition sort_by_key (l : list (string * GoValue)) : list (string * GoValue) :=
  fold_right insert_by_key [] l.

Fixpoint join_members (l : list (string * string)) : string :=
  match l with
  | [] => ""
  | [(k, v)] => appendString k ++ ":" ++ v
  | (k, v) :: r => appendString k ++ ":" ++ v ++ "," ++ join_members r
  end.

Definition encode_object (members : list (string * string)) : string :=
  "{" ++ join_members members ++ "}".

(** [json.Marshal] of a [map[string]interface{}]. *)
Definition Marshal_map (m : list (string * GoValue)) : string :=
  encode_object (map (fun kv => (fst kv, encode_value (snd kv))) (sort_by_key m)).

End json_enc.

(* ================================================================= *)
(** ** encoding/json: the scanner and [Indent]

    [prettyPrint] is [json.Indent] with an empty prefix and a two-space
    indent.  [Indent] drives the package's validating scanner, a state
    machine whose current state is the function stored in [s.step]; the
    state is the constructor of [StepFn] of the same name. *)

Module json_scan.

Inductive ScanCode : Type :=
| scanContinue | scanBeginLiteral | scanBeginObject | scanObjectKey
| scanObjectValue | scanEndObject | scanBeginArray | scanArrayValue
| scanEndArray | scanSkipSpace | scanEnd | scanError.

Inductive ParseState : Type :=
| parseObjectKey | parseObjectValue | parseArrayValue.

Inductive StepFn : Type :=
| fn_BeginValueOrEmpty | fn_BeginValue | fn_BeginStringOrEmpty
| fn_BeginString | fn_EndValue | fn_EndTop
| fn_InString | fn_InStringEsc | fn_InStringEscU | fn_InStringEscU1
| fn_InStringEscU12 | fn_InStringEscU123
| fn_Neg | fn_1 | fn_0 | fn_Dot | fn_Dot0 | fn_E | fn_ESign | fn_E0
| fn_T | fn_Tr | fn_Tru | fn_F | fn_Fa | fn_Fal | fn_Fals
| fn_N | fn_Nu | fn_Nul | fn_Error.

(** The scanner; [parseState] is kept with its top (Go's last element)
    at the head. *)
Record scanner : Type := mkScanner {
  step : StepFn;
  endTop : bool;
  parseState : list ParseState;
  err : option error;
  bytes : Z
}.

Definition maxNestingDepth : Z := 10000.

Definition newScanner : scanner :=
  {| step := fn_BeginValue; endTop := false; parseState := [];
     err := None; bytes := 0 |}.

Definition set_step (s : scanner) (f : StepFn) : scanner :=
  {| step := f; endTop := endTop s; parseState := parseState s;
     err := err s; bytes := bytes s |}.

Definition set_parseState (s : scanner) (ps : list ParseState) : scanner :=
  {| step := step s; endTop := endTop s; parseState := ps;
     err := err s; bytes := bytes s |}.

Definition byte_is (c : ascii) (lit : string) : bool :=
  match lit with
  | String d EmptyString => Ascii.eqb c d
  | _ => false
  end.

Definition is_digit (c : ascii) : bool := (48 <=? byte_val c) && (byte_val c <=? 57).
Definition is_digit19 (c : ascii) : bool := (49 <=? byte_val c) && (byte_val c <=? 57).
Definition is_hex (c : ascii) : bool :=
  is_digit c || ((97 <=? byte_val c) && (byte_val c <=? 102))
             || ((65 <=? byte_val c) && (byte_val c <=? 70)).

Definition isSpace (c : ascii) : bool :=
  (byte_val c <=? 32) &&
  ((byte_val c =? 32) || (byte_val c =? 9) || (byte_val c =? 13) || (byte_val c =? 10)).

(** [s.error(c, context)] *)
Definition scan_error (s : scanner) (c : ascii) (context : string)
  : ScanCode * scanner :=
  (scanError,
   {| step := fn_Error; endTop := endTop s; parseState := parseState s;
      err := Some (json_SyntaxError_char c context (bytes s)); bytes := bytes s |}).

Definition pushParseState (s : scanner) (c : ascii) (newParseState : ParseState)
           (successState : ScanCode) : ScanCode * scanner :=
  let s := set_parseState s (newParseState :: parseState s) in
  if Z.of_nat (List.length (parseState s)) <=? maxNestingDepth then (successState, s)
  else scan_error s c "exceeded max depth".

Definition popParseState (s : scanner) : scanner :=
  let ps := tl (parseState s) in
  match ps with
  | [] => {| step := fn_EndTop; endTop := true; parseState := ps;
             err := err s; bytes := bytes s |}
  | _ :: _ => {| step := fn_EndValue; endTop := endTop s; parseState := ps;
                 err := err s; bytes := bytes s |}
  end.

Definition stateEndTop (s : scanner) (c : ascii) : ScanCode * scanner :=
  if negb (isSpace c)
  then (scanEnd, snd (scan_error s c "after top-level value"))
  else (scanEnd, s).

Definition stateEndValue (s : scanner) (c : ascii) : ScanCode * scanner :=
  match parseState s with
  | [] =>
      stateEndTop {| step := fn_EndTop; endTop := true; parseState := [];
                     err := err s; bytes := bytes s |} c
  | ps :: rest =>
      if isSpace c then (scanSkipSpace, set_step s fn_EndValue)
      else match ps with
           | parseObjectKey =>
               if byte_is c ":" then
                 (scanObjectKey,
                  set_step (set_parseState s (parseObjectValue :: rest)) fn_BeginValue)
               else scan_error s c "after object key"
           | parseObjectValue =>
               if byte_is c "," then
                 (scanObjectValue,
                  set_step (set_parseState s (parseObjectKey :: rest)) fn_BeginString)
               else if byte_is c "}" then (scanEndObject, popParseState s)
               else scan_error s c "after object key:value pair"
           | parseArrayValue =>
               if byte_is c "," then (scanArrayValue, set_step s fn_BeginValue)
               else if byte_is c "]" then (scanEndArray, popParseState s)
               else scan_error s c "after array element"
           end
  end.

Definition stateBeginValue (s : scanner) (c : ascii) : ScanCode * scanner :=
  if isSpace c then (scanSkipSpace, s)
  else if byte_is c "{" then
    pushParseState (set_step s fn_BeginStringOrEmpty) c parseObjectKey scanBeginObject
  else if byte_is c "[" then
    pushParseState (set_step s fn_BeginValueOrEmpty) c parseArrayValue scanBeginArray
  else if Ascii.eqb c dquote then (scanBeginLiteral, set_step s fn_InString)
  else if byte_is c "-" then (scanBeginLiteral, set_step s fn_Neg)
  else if byte_is c "0" then (scanBeginLiteral, set_step s fn_0)
  else if byte_is c "t" then (scanBeginLiteral, set_step s fn_T)
  else if byte_is c "f" then (scanBeginLiteral, set_step s fn_F)
  else if byte_is c "n" then (scanBeginLiteral, set_step s fn_N)
  else if is_digit19 c then (scanBeginLiteral, set_step s fn_1)
  else scan_error s c "looking for beginning of value".

Definition stateBeginValueOrEmpty (s : scanner) (c : ascii) : ScanCode * scanner :=
  if isSpace c then (scanSkipSpace, s)
  else if byte_is c "]" then stateEndValue s c
  else stateBeginValue s c.

Definition stateBeginString (s : scanner) (c : ascii) : ScanCode * scanner :=
  if isSpace c then (scanSkipSpace, s)
  else if Ascii.eqb c dquote then (scanBeginLiteral, set_step s fn_InString)
  else scan_error s c "looking for beginning of object key string".

Definition stateBeginStringOrEmpty (s : scanner) (c : ascii) : ScanCode * scanner :=
  if isSpace c then (scanSkipSpace, s)
  else if byte_is c "}" then
    stateEndValue (set_parseState s (parseObjectValue :: tl (parseState s))) c
  else stateBeginString s c.

Definition stateInString (s : scanner) (c : ascii) : ScanCode * scanner :=
  if Ascii.eqb c dquote then (scanContinue, set_step s fn_EndValue)
  else if Ascii.eqb c backslash then (scanContinue, set_step s fn_InStringEsc)
  else if byte_val c <? 32 then scan_error s c "in string literal"
  else (scanContinue, s).

Definition stateInStringEsc (s : scanner) (c : ascii) : ScanCode * scanner :=
  if byte_is c "b" || byte_is c "f" || byte_is c "n" || byte_is c "r" || byte_is c "t"
     || Ascii.eqb c backslash || byte_is c "/" || Ascii.eqb c dquote
  then (scanContinue, set_step s fn_InString)
  else if byte_is c "u" then (scanContinue, set_step s fn_InStringEscU)
  else scan_error s c "in string escape code".

Definition stateHex (next : StepFn) (s : scanner) (c : ascii) : ScanCode * scanner :=
  if is_hex c then (scanContinue, set_step s next)
  else scan_error s c "in \u hexadecimal character escape".

Definition state0 (s : scanner) (c : ascii) : ScanCode * scanner :=
  if byte_is c "." then (scanContinue, set_step s fn_Dot)
  else if byte_is c "e" || byte_is c "E" then (scanContinue, set_step s fn_E)
  else stateEndValue s c.

Definition state1 (s : scanner) (c : ascii) : ScanCode * scanner :=
  if is_digit c then (scanContinue, set_step s fn_1)
  else state0 s c.

Definition stateNeg (s : scanner) (c : ascii) : ScanCode * scanner :=
  if byte_is c "0" then (scanContinue, set_step s fn_0)
  else if is_digit19 c then (scanContinue, set_step s fn_1)
  else scan_error s c "in numeric literal".

Definition stateDot (s : scanner) (c : ascii) : ScanCode * scanner :=
  if is_digit c then (scanContinue, set_step s fn_Dot0)
  else scan_error s c "after decimal point in numeric literal".

Definition stateDot0 (s : scanner) (c : ascii) : ScanCode * scanner :=
  if is_digit c then (scanContinue, s)
  else if byte_is c "e" || byte_is c "E" then (scanContinue, set_step s fn_E)
  else stateEndValue s c.

Definition stateESign (s : scanner) (c : ascii) : ScanCode * scanner :=
  if is_digit c then (scanContinue, set_step s fn_E0)
  else scan_error s c "in exponent of numeric literal".

Definition stateE (s : scanner) (c : ascii) : ScanCode * scanner :=
  if byte_is c "+" || byte_is c "-" then (scanContinue, set_step s fn_ESign)
  else stateESign s c.

Definition stateE0 (s : scanner) (c : ascii) : ScanCode * scanner :=
  if is_digit c then (scanContinue, s)
  else stateEndValue s c.

(** The states inside the literals [true], [false] and [null]. *)
Definition stateLit (expect : string) (next : StepFn) (context : string)
           (s : scanner) (c : ascii) : ScanCode * scanner :=
  if byte_is c expect then (scanContinue, set_step s next)
  else scan_error s c context.

(** [s.step(s, c)] *)
Definition scan_step (s : scanner) (c : ascii) : ScanCode * scanner :=
  match step s with
  | fn_BeginValueOrEmpty => stateBeginValueOrEmpty s c
  | fn_BeginValue => stateBeginValue s c
  | fn_BeginStringOrEmpty => stateBeginStringOrEmpty s c
  | fn_BeginString => stateBeginString s c
  | fn_EndValue => stateEndValue s c
  | fn_EndTop => stateEndTop s c
  | fn_InString => stateInString s c
  | fn_InStringEsc => stateInStringEsc s c
  | fn_InStringEscU => stateHex fn_InStringEscU1 s c
  | fn_InStringEscU1 => stateHex fn_InStringEscU12 s c
  | fn_InStringEscU12 => stateHex fn_InStringEscU123 s c
  | fn_InStringEscU123 => stateHex fn_InString s c
  | fn_Neg => stateNeg s c
  | fn_1 => state1 s c
  | fn_0 => state0 s c
  | fn_Dot => stateDot s c
  | fn_Dot0 => stateDot0 s c
  | fn_E => stateE s c
  | fn_ESign => stateESign s c
  | fn_E0 => stateE0 s c
  | fn_T => stateLit "r" fn_Tr "in literal true (expecting 'r')" s c
  | fn_Tr => stateLit "u" fn_Tru "in literal true (expecting 'u')" s c
  | fn_Tru => stateLit "e" fn_EndValue "in literal true (expecting 'e')" s c
  | fn_F => stateLit "a" fn_Fa "in literal false (expecting 'a')" s c
  | fn_Fa => stateLit "l" fn_Fal "in literal false (expecting 'l')" s c
  | fn_Fal => stateLit "s" fn_Fals "in literal false (expecting 's')" s c
  | fn_Fals => stateLit "e" fn_EndValue "in literal false (expecting 'e')" s c
  | fn_N => stateLit "u" fn_Nu "in literal null (expecting 'u')" s c
  | fn_Nu => stateLit "l" fn_Nul "in literal null (expecting 'l')" s c
  | fn_Nul => stateLit "l" fn_EndValue "in literal null (expecting 'l')" s c
  | fn_Error => (scanError, s)
  end.

(** [s.eof()]: the error the scanner ends with, if any. *)
Definition eof (s : scanner) : option error :=
  match err s with
  | Some e => Some e
  | None =>
      if endTop s then None
      else
        let s' := snd (scan_step s " "%char) in
        if endTop s' then None
        else match err s' with
             | Some e => Some e
             | None => Some (json_SyntaxError_eof (bytes s'))
             end
  end.

(** The variables of [Indent]'s loop; [stopped] records the [break]. *)
Record IndentState : Type := mkIndent {
  scan : scanner;
  needIndent : bool;
  depth : Z;
  dst : string;
  stopped : bool
}.

(** [appendNewline]: a line feed, the prefix, and [depth] indents. *)
Definition appendNewline (dst prefix indent : string) (depth : Z) : string :=
  dst ++ str1 newline ++ prefix ++ repeat_string (Z.to_nat depth) indent.

Definition is_end_code (v : ScanCode) : bool :=
  match v with
  | scanEndObject | scanEndArray => true
  | _ => false
  end.

(** One iteration of the loop [for _, c := range src] of [Indent]. *)
Definition indent_byte (prefix indent : string) (st : IndentState) (c : ascii)
  : IndentState :=
  if stopped st then st else
  let s0 := scan st in
  let s1 := {| step := step s0; endTop := endTop s0; parseState := parseState s0;
               err := err s0; bytes := bytes s0 + 1 |} in
  let (v, s) := scan_step s1 c in
  match v with
  | scanSkipSpace => mkIndent s (needIndent st) (depth st) (dst st) false
  | scanError => mkIndent s (needIndent st) (depth st) (dst st) true
  | _ =>
      let '(ni, d, out) :=
        if needIndent st && negb (is_end_code v)
        then (false, depth st + 1,
              appendNewline (dst st) prefix indent (depth st + 1))
        else (needIndent st, depth st, dst st) in
      match v with
      | scanContinue => mkIndent s ni d (out ++ str1 c) false
      | _ =>
          if byte_is c "{" || byte_is c "[" then mkIndent s true d (out ++ str1 c) false
          else if byte_is c "," then
            mkIndent s ni d (appendNewline (out ++ str1 c) prefix indent d) false
          else if byte_is c ":" then mkIndent s ni d (out ++ str1 c ++ " ") false
          else if byte_is c "}" || byte_is c "]" then
            if ni then mkIndent s false d (out ++ str1 c) false
            else mkIndent s ni (d - 1)
                   (appendNewline out prefix indent (d - 1) ++ str1 c) false
          else mkIndent s ni d (out ++ str1 c) false
      end
  end.

Fixpoint indent_loop (prefix indent : string) (src : string) (st : IndentState)
  : IndentState :=
  match src with
  | EmptyString => st
  | String c rest => indent_loop prefix indent rest (indent_byte prefix indent st c)
  end.

Definition indent_init : IndentState := mkIndent newScanner false 0 "" false.

(** [json.Indent(&out, b, prefix, indent)] on an empty buffer: the buffer's
    contents afterwards and the error returned. *)
Definition Indent (src prefix indent : string) : string * option error :=
  let st := indent_loop prefix indent src indent_init in
  match eof (scan st) with
  | Some e => ("", Some e)
  | None => (dst st, None)
  end.

End json_scan.

(* ================================================================= *)
(** ** The data of the program and of its collaborators *)

(** [*http.Response]: the status code, and what [ioutil.ReadAll] yields on
    the body (the bytes read and the read error). *)
Record http_Response : Type := {
  StatusCode : Z;
  Body : string * option error
}.

(** [*url.URL], kept as the text it was parsed from. *)
Inductive url_URL : Type := parsed_URL (raw : string).

(** [http.Request], the fields the worker sets. *)
Record http_Request : Type := {
  Method : string;
  URL : option url_URL;
  Header : list (string * list string);
  ReqBody : string
}.

Definition http_StatusOK : Z := 200.
Definition http_StatusCreated : Z := 201.
Definition http_StatusAccepted : Z := 202.
Definition http_StatusNoContent : Z := 204.

(** What one worker obtains from outside: [url.Parse] (its error is
    dropped by the worker, a failed parse leaves a nil URL),
    [time.Now().String()], and [http.DefaultClient.Do].  The call is taken
    to return: the default client has no timeout, and a worker whose call
    never returns has done nothing yet and stays where it is for ever.
    Statements about the progress of a burst say that they rest on it. *)
Record Env : Type := {
  url_Parse : string -> option url_URL;
  time_Now_String : string;
  http_DefaultClient_Do : http_Request -> option http_Response * option error
}.

(** [type Request struct] *)
Record Request : Type := {
  Index : Z;
  Response : option http_Response;
  Err : option error
}.

(** [type Report struct] *)
Record Report : Type := {
  TotalRequests : Z;
  TotalSuccess : Z;
  TotalFail : Z
}.

(** The two channels of one burst. *)
Inductive Chan : Type := resultC | errorC.

(** The goroutines a burst starts, by the call that starts them. *)
Inductive Goroutine : Type :=
| go_doRequest (count : Z) (reqUrl key : string) (verbose : bool)
| go_processResults (bulk : Z) (verbose : bool)
| go_processErrors (bulk : Z) (verbose : bool).

(** Operands of [Println] / [Printf]. *)
Inductive Arg : Type :=
| AStr (s : string)
| AInt (n : Z)
| ABool (b : bool)
| AErr (e : error).

(** What the process does that is visible from outside. *)
Inductive Event : Type :=
| log_Println (args : list Arg)
| log_Printf (format : string) (args : list Arg)
| fmt_Println (args : list Arg)
| Stderr_error (e : error)          (* [fmt.Fprintf(os.Stderr, "error: %v\n", err)] *)
| go_executeRequestWithTimer (url key : string) (rqs : Z) (verbose : bool)
                                    (* the [go] statement of the controller *)
| time_Sleep (d : Z).               (* [d] is a [time.Duration], in nanoseconds *)

(* ================================================================= *)
(** ** Sequential code that logs, may panic and may exit *)

Inductive Result (A : Type) : Type :=
| Ok (a : A)
| Panic                             (* nil pointer dereference *)
| Exit (code : Z).                  (* [os.Exit] *)
Arguments Ok {A} a.
Arguments Panic {A}.
Arguments Exit {A} code.

Definition IO (A : Type) : Type := (list Event * Result A)%type.

Definition ret {A} (a : A) : IO A := ([], Ok a).

Definition bind {A B} (m : IO A) (f : A -> IO B) : IO B :=
  match m with
  | (t, Ok a) => let (t', r) := f a in ((t ++ t')%list, r)
  | (t, Panic) => (t, Panic)
  | (t, Exit c) => (t, Exit c)
  end.

Notation "x <- m ;; k" := (bind m (fun x => k))
  (at level 61, m at next level, right associativity).
Notation "m ;; k" := (bind m (fun _ => k))
  (at level 61, right associativity).

Definition emit (e : Event) : IO unit := ([e], Ok tt).

(** Reading a field through a pointer that may be nil. *)
Definition deref {A} (p : option A) : IO A :=
  match p with
  | Some a => ret a
  | None => ([], Panic)
  end.

(** [func exitGracefully(err error)] *)
Definition exitGracefully {A} (err : error) : IO A :=
  ([Stderr_error err], Exit 1).

(** [func check(err error)] *)
Definition check (err : option error) : IO unit :=
  match err with
  | Some e => exitGracefully e
  | None => ret tt
  end.

(** [func prettyPrint(b []byte) ([]byte, error)] *)
Definition prettyPrint (b : string) : string * option error :=
  json_scan.Indent b "" "  ".

(** The status with which the process ends when its main goroutine ends
    with [r]: 0 on return, 2 on panic, the argument of [os.Exit]. *)
Definition exit_status {A} (r : IO A) : Z :=
  match snd r with
  | Ok _ => 0
  | Panic => 2
  | Exit c => c
  end.

(* ================================================================= *)
(** ** The worker *)

(** The atomic actions of goroutines on the state shared within a burst:
    the counters of the report, the two channels and the wait group. *)
Inductive Op : Type :=
| IncTotalRequests                  (* [report.TotalRequests += 1] *)
| IncTotalSuccess                   (* [report.TotalSuccess += 1] *)
| IncTotalFail                      (* [report.TotalFail += 1] *)
| Send (c : Chan) (m : Request)     (* [c <- m] *)
| WgAdd (delta : Z)                 (* [wg.Add(delta)] *)
| WgDone                            (* [wg.Done()] *)
| WgWait                            (* [wg.Wait()] *)
| Go (g : Goroutine).               (* [go g] *)

(** [fmt.Sprintf("request #%d", count)] *)
Definition Sprintf_request (count : Z) : string := "request #" ++ itoa count.

(** The request built by [doRequest] (lines 43-59). *)
Definition build_request (env : Env) (count : Z) (reqUrl key : string)
  : http_Request :=
  let reqURL := url_Parse env reqUrl in
  let bodyBytes :=
    json_enc.Marshal_map
      [ ("name", json_enc.VString (Sprintf_request count));
        ("date", json_enc.VString (time_Now_String env));
        ("requests_sent", json_enc.VInt count) ] in
  {| Method := "POST";
     URL := reqURL;
     Header := [ ("Content-Type", ["application/json; charset=UTF-8"]);
                 ("X-Api-Key", [key]) ];
     ReqBody := bodyBytes |}.

(** The condition of line 66: the status is none of the accepted ones. *)
Definition status_rejected (sc : Z) : bool :=
  negb (sc =? http_StatusOK) && negb (sc =? http_StatusAccepted) &&
  negb (sc =? http_StatusCreated) && negb (sc =? http_StatusNoContent).

(** [func doRequest(wg, resultC, errorC, count, reqUrl, key, verbose, report)]:
    the worker's actions on the shared state, in program order. *)
Definition doRequest (env : Env) (count : Z) (reqUrl key : string)
           (verbose : bool) : list Op :=
  let req := build_request env count reqUrl key in
  let (resp, err) := http_DefaultClient_Do env req in
  ([IncTotalRequests]
   ++ match resp with
      | Some r =>
          if status_rejected (StatusCode r) then
            [IncTotalFail;
             Send errorC {| Index := count; Err := err; Response := resp |}]
          else
            [IncTotalSuccess;
             Send resultC {| Index := count; Response := resp; Err := None |}]
      | None => []
      end
   ++ match err with
      | Some _ =>
          [IncTotalFail;
           Send errorC {| Index := count; Err := err; Response := None |}]
      | None => []
      end
   ++ [WgDone])%list.

(** The effect of one action on the report. *)
Definition report_op (op : Op) (r : Report) : Report :=
  match op with
  | IncTotalRequests =>
      {| TotalRequests := GoInt.add (TotalRequests r) 1;
         TotalSuccess := TotalSuccess r; TotalFail := TotalFail r |}
  | IncTotalSuccess =>
      {| TotalRequests := TotalRequests r;
         TotalSuccess := GoInt.add (TotalSuccess r) 1; TotalFail := TotalFail r |}
  | IncTotalFail =>
      {| TotalRequests := TotalRequests r;
         TotalSuccess := TotalSuccess r; TotalFail := GoInt.add (TotalFail r) 1 |}
  | _ => r
  end.

(** The report after a goroutine has run [ops] on its own. *)
Definition report_after (ops : list Op) (r : Report) : Report :=
  fold_left (fun r op => report_op op r) ops r.

(** The outcomes a goroutine running [ops] publishes, oldest first, each with
    the channel it is sent on. *)
Fixpoint published (ops : list Op) : list (Chan * Request) :=
  match ops with
  | [] => []
  | Send c m :: r => (c, m) :: published r
  | _ :: r => published r
  end.

Definition published_on (c : Chan) (ops : list Op) : list Request :=
  map snd (filter (fun cm => match fst cm, c with
                             | resultC, resultC | errorC, errorC => true
                             | _, _ => false
                             end) (published ops)).

(** How often [ops] increments each counter. *)
Definition count_op (p : Op -> bool) (ops : list Op) : nat :=
  List.length (filter p ops).

Definition is_IncTotalRequests (op : Op) : bool :=
  match op with IncTotalRequests => true | _ => false end.
Definition is_IncTotalSuccess (op : Op) : bool :=
  match op with IncTotalSuccess => true | _ => false end.
Definition is_IncTotalFail (op : Op) : bool :=
  match op with IncTotalFail => true | _ => false end.

(* ================================================================= *)
(** ** The collectors

    [processResults] and [processErrors] loop forever over a non-blocking
    [select]; what they do with one received outcome is the body of the
    [case] branch.  [count] is the collector's local counter, returned
    updated.  The [defer] of line 108 never runs (the function never
    returns). *)

(** The branch [case res := <-resultC] of [processResults]. *)
Definition processResults_recv (bulk : Z) (verbose : bool) (count : Z)
           (res : Request) : IO Z :=
  let count := GoInt.add count 1 in
  (if count =? 1 then emit (log_Println [AStr "buffer #"; AInt bulk]) else ret tt) ;;
  r <- deref (Response res) ;;
  emit (log_Printf "request #%d >> http status response %d"
          [AInt (Index res); AInt (StatusCode r)]) ;;
  (if verbose then
     let (respBody, err) := Body r in
     check err ;;
     let (prettyResp, err) := prettyPrint respBody in
     check err ;;
     emit (log_Printf "request #%d >> response: %s"
             [AInt (Index res); AStr prettyResp])
   else ret tt) ;;
  ret count.

(** The branch [case err := <-errorC] of [processErrors]. *)
Definition processErrors_recv (bulk : Z) (verbose : bool) (count : Z)
           (err : Request) : IO Z :=
  let count := GoInt.add count 1 in
  (if count =? 1 then emit (log_Println [AStr "buffer #"; AInt bulk]) else ret tt) ;;
  match Err err with
  | Some e =>
      emit (log_Printf "error on request #%d >> %v" [AInt (Index err); AErr e])
  | None =>
      r <- deref (Response err) ;;
      emit (log_Printf "error on request #%d >> http status code: %d"
              [AInt (Index err); AInt (StatusCode r)]) ;;
      if verbose then
        let (respBody, newErr) := Body r in
        check newErr ;;
        if (0 <? String.length respBody)%nat then
          emit (log_Printf "request #%d >> response: %s"
                  [AInt (Index err); AStr respBody])
        else ret tt
      else ret tt
  end ;;
  ret count.

(* ================================================================= *)
(** ** One burst of the dispatcher

    One iteration of the loop of [executeRequestWithTimer] creates two
    unbuffered channels and a wait group, starts [rqs] workers and the two
    collectors, and waits for the workers.  The goroutines of the burst
    interleave; a run of the burst is given by a schedule, the list of the
    goroutines that take the successive steps. *)

(** The values [idx] takes in [for idx := 1; idx <= rqs; idx++], for [rqs]
    below the largest [int] (at which [idx++] would wrap around). *)
Definition indices (rqs : Z) : list Z :=
  map Z.of_nat (seq 1 (Z.to_nat rqs)).

(** The body of the loop of [executeRequestWithTimer] (lines 143-156), at
    the tick numbered [count]. *)
Definition tick_body (count : Z) (url key : string) (rqs : Z) (verbose : bool)
  : list Op :=
  (flat_map (fun idx => [WgAdd 1; Go (go_doRequest idx url key verbose)])
            (indices rqs)
   ++ [Go (go_processResults count verbose);
       Go (go_processErrors count verbose);
       WgWait])%list.

Record Collector : Type := {
  col_bulk : Z;
  col_verbose : bool;
  col_count : Z
}.

(** The state of a burst: the shared report, the counter of the wait group,
    the collectors once started, the outcomes received so far, what has
    been logged, and what is left to do for the dispatcher and for each
    worker. *)
Record Proc : Type := {
  report : Report;
  wg : Z;
  results : option Collector;
  errors : option Collector;
  delivered : list (Chan * Request);
  events : list Event;
  dispatcher : list Op;
  workers : list (list Op)
}.

Inductive Tid : Type := Dispatcher | Worker (i : nat).

(** How the process is brought down by a goroutine of the burst. *)
Inductive Abort : Type :=
| NilDereference                    (* panic: nil pointer dereference *)
| NegativeWaitGroup                 (* panic: negative WaitGroup counter *)
| OsExit (code : Z).                (* [os.Exit(code)] *)

Inductive Outcome : Type :=
| Next (p : Proc)
| Blocked
| Crashed (events : list Event) (how : Abort).

Fixpoint update_nth {A} (i : nat) (x : A) (l : list A) : list A :=
  match l, i with
  | [], _ => []
  | _ :: r, O => x :: r
  | y :: r, S k => y :: update_nth k x r
  end.

(** The goroutine [t] is left with [rest]. *)
Definition advance (t : Tid) (rest : list Op) (p : Proc) : Proc :=
  match t with
  | Dispatcher =>
      {| report := report p; wg := wg p; results := results p; errors := errors p;
         delivered := delivered p; events := events p;
         dispatcher := rest; workers := workers p |}
  | Worker i =>
      {| report := report p; wg := wg p; results := results p; errors := errors p;
         delivered := delivered p; events := events p;
         dispatcher := dispatcher p; workers := update_nth i rest (workers p) |}
  end.

Definition pending (t : Tid) (p : Proc) : list Op :=
  match t with
  | Dispatcher => dispatcher p
  | Worker i => nth i (workers p) []
  end.

(** [wg.Add(delta)]; a negative counter panics.  The counter is taken
    unbounded. *)
Definition wg_add (delta : Z) (p : Proc) : Outcome :=
  if wg p + delta <? 0 then Crashed (events p) NegativeWaitGroup
  else Next {| report := report p; wg := wg p + delta; results := results p;
               errors := errors p; delivered := delivered p; events := events p;
               dispatcher := dispatcher p; workers := workers p |}.

(** A send on an unbuffered channel completes when the collector of the
    channel receives it; the collector then runs its [case] branch, which
    is taken together with the step of the sender.  Before the collector
    is started the sender is blocked. *)
Definition send (c : Chan) (m : Request) (p : Proc) : Outcome :=
  match c with
  | resultC =>
      match results p with
      | None => Blocked
      | Some col =>
          match processResults_recv (col_bulk col) (col_verbose col) (col_count col) m with
          | (evs, Ok n) =>
              Next {| report := report p; wg := wg p;
                      results := Some {| col_bulk := col_bulk col;
                                         col_verbose := col_verbose col;
                                         col_count := n |};
                      errors := errors p;
                      delivered := (delivered p ++ [(c, m)])%list;
                      events := (events p ++ evs)%list;
                      dispatcher := dispatcher p; workers := workers p |}
          | (evs, Panic) => Crashed (events p ++ evs)%list NilDereference
          | (evs, Exit code) => Crashed (events p ++ evs)%list (OsExit code)
          end
      end
  | errorC =>
      match errors p with
      | None => Blocked
      | Some col =>
          match processErrors_recv (col_bulk col) (col_verbose col) (col_count col) m with
          | (evs, Ok n) =>
              Next {| report := report p; wg := wg p;
                      results := results p;
                      errors := Some {| col_bulk := col_bulk col;
                                        col_verbose := col_verbose col;
                                        col_count := n |};
                      delivered := (delivered p ++ [(c, m)])%list;
                      events := (events p ++ evs)%list;
                      dispatcher := dispatcher p; workers := workers p |}
          | (evs, Panic) => Crashed (events p ++ evs)%list NilDereference
          | (evs, Exit code) => Crashed (events p ++ evs)%list (OsExit code)
          end
      end
  end.

(** [go g] *)
Definition spawn (envs : Z -> Env) (g : Goroutine) (p : Proc) : Proc :=
  match g with
  | go_doRequest count reqUrl key verbose =>
      {| report := report p; wg := wg p; results := results p; errors := errors p;
         delivered := delivered p; events := events p;
         dispatcher := dispatcher p;
         workers := (workers p ++ [doRequest (envs count) count reqUrl key verbose])%list |}
  | go_processResults bulk verbose =>
      {| report := report p; wg := wg p;
         results := Some {| col_bulk := bulk; col_verbose := verbose; col_count := 0 |};
         errors := errors p;
         delivered := delivered p; events := events p;
         dispatcher := dispatcher p; workers := workers p |}
  | go_processErrors bulk verbose =>
      {| report := report p; wg := wg p; results := results p;
         errors := Some {| col_bulk := bulk; col_verbose := verbose; col_count := 0 |};
         delivered := delivered p; events := events p;
         dispatcher := dispatcher p; workers := workers p |}
  end.

(** The goroutine [t] takes its next step.  [envs idx] is the environment
    of the worker numbered [idx].  An increment [report.X += 1] is taken as
    one atomic step; the program does not synchronise the workers'
    increments, and the statements about the values of the counters after
    concurrent increments say that they rest on it. *)
Definition step_thread (envs : Z -> Env) (t : Tid) (p : Proc) : Outcome :=
  match pending t p with
  | [] => Blocked
  | op :: rest =>
      let p' := advance t rest p in
      match op with
      | IncTotalRequests | IncTotalSuccess | IncTotalFail =>
          Next {| report := report_op op (report p'); wg := wg p';
                  results := results p'; errors := errors p';
                  delivered := delivered p'; events := events p';
                  dispatcher := dispatcher p'; workers := workers p' |}
      | Send c m => send c m p'
      | WgAdd delta => wg_add delta p'
      | WgDone => wg_add (-1) p'
      | WgWait => if wg p' =? 0 then Next p' else Blocked
      | Go g => Next (spawn envs g p')
      end
  end.

Inductive RunResult : Type :=
| Reached (p : Proc)
| Stuck (p : Proc) (t : Tid)
| Crash (events : list Event) (how : Abort).

(** The burst run along a schedule.  A schedule that picks a goroutine
    that cannot move is not a run of the program ([Stuck]). *)
Fixpoint run_schedule (envs : Z -> Env) (sched : list Tid) (p : Proc) : RunResult :=
  match sched with
  | [] => Reached p
  | t :: rest =>
      match step_thread envs t p with
      | Next p' => run_schedule envs rest p'
      | Blocked => Stuck p t
      | Crashed evs how => Crash evs how
      end
  end.

(** The burst of tick [count] about to start, on a report [r]. *)
Definition burst_start (r : Report) (count : Z) (url key : string) (rqs : Z)
           (verbose : bool) : Proc :=
  {| report := r; wg := 0; results := None; errors := None;
     delivered := []; events := [];
     dispatcher := tick_body count url key rqs verbose; workers := [] |}.

(** The burst is complete when [wg.Wait()] has returned. *)
Definition burst_complete (p : Proc) : Prop := dispatcher p = [].

(* ================================================================= *)
(** ** The invariant of a burst *)

(** What a pending action still owes to [TotalRequests]: an increment, or
    a worker to be started. *)
Definition owed_req (op : Op) : Z :=
  match op with
  | IncTotalRequests => 1
  | Go (go_doRequest _ _ _ _) => 1
  | _ => 0
  end.

(** What a pending action still owes to the counter of the wait group. *)
Definition owed_done (op : Op) : Z :=
  match op with
  | WgDone => 1
  | Go (go_doRequest _ _ _ _) => 1
  | WgAdd delta => - delta
  | _ => 0
  end.

Definition sum_ops (f : Op -> Z) (ops : list Op) : Z :=
  fold_right (fun op acc => f op + acc) 0 ops.

Definition sum_threads (f : Op -> Z) (ts : list (list Op)) : Z :=
  fold_right (fun t acc => sum_ops f t + acc) 0 ts.

(** What is left of a worker: counter increments and sends, closed by the
    deferred [wg.Done()]. *)
Inductive worker_tail : list Op -> Prop :=
| worker_nil : worker_tail []
| worker_done : worker_tail [WgDone]
| worker_inc_requests t : t <> [] -> worker_tail t -> worker_tail (IncTotalRequests :: t)
| worker_inc_success t : t <> [] -> worker_tail t -> worker_tail (IncTotalSuccess :: t)
| worker_inc_fail t : t <> [] -> worker_tail t -> worker_tail (IncTotalFail :: t)
| worker_send c m t : t <> [] -> worker_tail t -> worker_tail (Send c m :: t).

(** What is left of the dispatcher's tick: [wg.Add(1)] and [go] statements,
    closed by [wg.Wait()]. *)
Inductive disp_tail : list Op -> Prop :=
| disp_nil : disp_tail []
| disp_wait : disp_tail [WgWait]
| disp_add t : t <> [] -> disp_tail t -> disp_tail (WgAdd 1 :: t)
| disp_go g t : t <> [] -> disp_tail t -> disp_tail (Go g :: t).

(** The invariant of the burst that is to raise [TotalRequests] to
    [target] (up to wrap-around) with [n] workers. *)
Record burst_inv (target : Z) (n : Z) (p : Proc) : Prop := {
  inv_requests :
    GoInt.wrap (TotalRequests (report p)
                + sum_ops owed_req (dispatcher p)
                + sum_threads owed_req (workers p)) = GoInt.wrap target;
  inv_range : GoInt.in_range (TotalRequests (report p));
  inv_wg :
    wg p = sum_ops owed_done (dispatcher p) + sum_threads owed_done (workers p);
  inv_started :
    Z.of_nat (List.length (workers p)) + sum_ops owed_req (dispatcher p) = n;
  inv_dispatcher : disp_tail (dispatcher p);
  inv_workers : Forall worker_tail (workers p);
  inv_complete : dispatcher p = [] -> Forall (fun t => t = []) (workers p)
}.

(* ================================================================= *)
(** ** The run controller *)

Definition time_Second : Z := 1000000000.

(** [json.Marshal(report)]: the exported fields in declaration order under
    their Go names; encoding a struct of ints cannot fail. *)
Definition json_Marshal_Report (r : Report) : string * option error :=
  (json_enc.encode_object
     [ ("TotalRequests", itoa (TotalRequests r));
       ("TotalSuccess", itoa (TotalSuccess r));
       ("TotalFail", itoa (TotalFail r)) ],
   None).

(** [func executeRequests(url, key string, rqs, duration int, verbose bool)],
    as the goroutine that calls it runs it when no other goroutine ends
    the process meanwhile.  [snapshot] is what the shared variable
    [report], created zero and handed to the dispatcher, holds when the
    controller reads it on line 167. *)
Definition executeRequests (url key : string) (rqs duration : Z) (verbose : bool)
           (snapshot : Report) : IO unit :=
  emit (log_Println [AStr "Waiting for all requests to be executed..."]) ;;
  emit (go_executeRequestWithTimer url key rqs verbose) ;;
  emit (time_Sleep (GoInt.mul time_Second (GoInt.add duration 1))) ;;
  emit (log_Println [AStr "Requests executed successfully."]) ;;
  emit (log_Println [AStr "--------------------REPORT--------------------"]) ;;
  let (jsonReport, err) := json_Marshal_Report snapshot in
  check err ;;
  let (prettyReport, err) := prettyPrint jsonReport in
  check err ;;
  emit (fmt_Println [AStr prettyReport]).

(** The values of the command-line flags after [flag.Parse]. *)
Record Flags : Type := {
  flag_url : string;
  flag_key : string;
  flag_rqs : Z;
  flag_duration : Z;
  flag_verbose : bool
}.

(** [func getFlags()], after the flags are parsed. *)
Definition getFlags (parsed : Flags) : IO Flags :=
  emit (fmt_Println [AStr "url:"; AStr (flag_url parsed)]) ;;
  emit (fmt_Println [AStr "key:"; AStr (flag_key parsed)]) ;;
  emit (fmt_Println [AStr "rqs:"; AInt (flag_rqs parsed)]) ;;
  emit (fmt_Println [AStr "duration:"; AInt (flag_duration parsed)]) ;;
  emit (fmt_Println [AStr "verbose:"; ABool (flag_verbose parsed)]) ;;
  ret parsed.

(** [func main()], as the main goroutine runs it when no other goroutine
    ends the process meanwhile. *)
Definition main (parsed : Flags) (snapshot : Report) : IO unit :=
  f <- getFlags parsed ;;
  executeRequests (flag_url f) (flag_key f) (flag_rqs f) (flag_duration f)
                  (flag_verbose f) snapshot.

(** How long [time.Sleep(d)] pauses: not at all for [d <= 0]. *)
Definition sleep_pause (d : Z) : Z := Z.max 0 d.

(* ================================================================= *)
(** ** Notions used in the statements *)

Definition quoted (s : string) : string := str1 dquote ++ s ++ str1 dquote.

(** The report as the specification prints it: an object indented by two
    spaces with the fields TotalRequests, TotalSuccess and TotalFail. *)
Definition report_text (r : Report) : string :=
  "{" ++ str1 newline
  ++ "  " ++ quoted "TotalRequests" ++ ": " ++ itoa (TotalRequests r) ++ "," ++ str1 newline
  ++ "  " ++ quoted "TotalSuccess" ++ ": " ++ itoa (TotalSuccess r) ++ "," ++ str1 newline
  ++ "  " ++ quoted "TotalFail" ++ ": " ++ itoa (TotalFail r) ++ str1 newline
  ++ "}".

(** The sum invariant of the report. *)
Definition report_balanced (r : Report) : Prop :=
  TotalSuccess r + TotalFail r = TotalRequests r.

(** An outcome has exactly one of response and error. *)
Definition exactly_one_signal (m : Request) : Prop :=
  (Response m <> None /\ Err m = None) \/ (Response m = None /\ Err m <> None).

(** A computation that does not end in a panic. *)
Definition no_panic {A} (m : IO A) : Prop := snd m <> Panic.

(** An outcome that its collector can log. *)
Definition loggable (op : Op) : Prop :=
  match op with
  | Send resultC m => Response m <> None
  | Send errorC m => Err m <> None \/ Response m <> None
  | _ => True
  end.

(** Every outcome that is still to be sent can be logged. *)
Definition sends_loggable (p : Proc) : Prop :=
  Forall loggable (dispatcher p) /\ Forall (Forall loggable) (workers p).

(** Both collectors run, and do not print bodies. *)
Definition collectors_quiet (p : Proc) : Prop :=
  (exists c, results p = Some c /\ col_verbose c = false) /\
  (exists c, errors p = Some c /\ col_verbose c = false).

(** Lookup in a [map[string][]string]. *)
Fixpoint header_get (k : string) (h : list (string * list string))
  : option (list string) :=
  match h with
  | [] => None
  | (k', v) :: r => if String.eqb k k' then Some v else header_get k r
  end.

(** The client of [env] replaced by [client]. *)
Definition with_client (env : Env)
           (client : http_Request -> option http_Response * option error) : Env :=
  {| url_Parse := url_Parse env;
     time_Now_String := time_Now_String env;
     http_DefaultClient_Do := client |}.

(** The controller has started the dispatcher. *)
Definition run_started (t : list Event) : bool :=
  existsb (fun e => match e with
                    | go_executeRequestWithTimer _ _ _ _ => true
                    | _ => false
                    end) t.

(** The process rejects its configuration: it ends with a non-zero status
    without having started the run. *)
Definition rejected (r : IO unit) : Prop :=
  exit_status r <> 0 /\ run_started (fst r) = false.

(** The loop state of [Indent] with the scanner in state [stp], no error
    and the top-level value not finished. *)
Definition indent_at (stp : json_scan.StepFn) (ps : list json_scan.ParseState)
           (b : Z) (ni : bool) (d : Z) (out : string) : json_scan.IndentState :=
  json_scan.mkIndent (json_scan.mkScanner stp false ps None b) ni d out false.

(** The loop state [st] of [Indent] had the buffer held [out] before. *)
Definition prepend (out : string) (st : json_scan.IndentState) : json_scan.IndentState :=
  json_scan.mkIndent (json_scan.scan st) (json_scan.needIndent st)
                     (json_scan.depth st) (out ++ json_scan.dst st)
                     (json_scan.stopped st).

(* ================================================================= *)
(** ** Schedules *)

(** The schedule that runs the dispatcher up to [wg.Wait()], then each of
    the [n] workers in turn for [k] steps, then [wg.Wait()]. *)
Definition sequential_schedule (n k : nat) : list Tid :=
  (repeat Dispatcher (2 * n + 2)
   ++ flat_map (fun i => repeat (Worker i) k) (seq 0 n)
   ++ [Dispatcher])%list.

(** The schedule that lets each of the workers [ws], numbered from [k],
    run to its end, one after the other. *)
Fixpoint worker_schedule (k : nat) (ws : list (list Op)) : list Tid :=
  match ws with
  | [] => []
  | w :: r => (repeat (Worker k) (List.length w) ++ worker_schedule (S k) r)%list
  end.

(** The workers of a burst, as the dispatcher starts them. *)
Definition burst_workers (envs : Z -> Env) (url key : string) (rqs : Z)
           (verbose : bool) : list (list Op) :=
  map (fun idx => doRequest (envs idx) idx url key verbose) (indices rqs).

(** A schedule of the whole burst: the dispatcher up to [wg.Wait()], the
    workers one after the other, then [wg.Wait()]. *)
Definition complete_schedule (envs : Z -> Env) (url key : string) (rqs : Z)
           (verbose : bool) : list Tid :=
  let ws := burst_workers envs url key rqs verbose in
  (flat_map (fun _ => [Dispatcher; Dispatcher]) ws
   ++ [Dispatcher; Dispatcher]
   ++ worker_schedule 0 ws
   ++ [Dispatcher])%list.

(* ================================================================= *)
(** ** Concrete inputs *)

Definition env_of (resp : option http_Response) (err : option error) : Env :=
  {| url_Parse := fun s => Some (parsed_URL s);
     time_Now_String := "2026-11-02 15:09:00.000000001 +0000 UTC m=+1.000000001";
     http_DefaultClient_Do := fun _ => (resp, err) |}.

Definition resp_status (sc : Z) : http_Response :=
  {| StatusCode := sc; Body := ("", None) |}.

(** [http.Client.Do] gives up after ten redirects and returns the last
    redirect response together with an error. *)
Definition redirect_limit : error := errorString "stopped after 10 redirects".

Definition env_redirect_limit : Env :=
  env_of (Some (resp_status 302)) (Some redirect_limit).

Definition connection_refused : error := errorString "connect: connection refused".

Definition unexpected_eof : error := errorString "unexpected EOF".

Definition zero_report : Report :=
  {| TotalRequests := 0; TotalSuccess := 0; TotalFail := 0 |}.

(** A burst of two workers: the first is answered 200, the second is
    refused the connection. *)
Definition example_envs (idx : Z) : Env :=
  if idx =? 1 then env_of (Some (resp_status 200)) None
  else env_of None (Some connection_refused).

Definition example_burst_end : Proc :=
  match run_schedule example_envs (sequential_schedule 2 4)
                     (burst_start zero_report 1 "u" "k" 2 false) with
  | Reached p => p
  | _ => burst_start zero_report 1 "u" "k" 2 false
  end.

(** The burst of the two workers when the dispatcher has started them and
    the collectors and is in [wg.Wait()], no worker having moved yet. *)
Definition example_burst_waiting : Proc :=
  match run_schedule example_envs (repeat Dispatcher 6)
                     (burst_start zero_report 1 "u" "k" 2 false) with
  | Reached p => p
  | _ => burst_start zero_report 1 "u" "k" 2 false
  end.

Definition example_flags (rqs duration : Z) : Flags :=
  {| flag_url := "https://postman-echo.com/post"; flag_key := "k";
     flag_rqs := rqs; flag_duration := duration; flag_verbose := false |}.

(** A server that looks at what it is sent: it answers 200 to a POST with
    the two headers and the body that the attempt numbered [count] is to
    send with the key [key] at the clock reading [now], and refuses the
    connection to anything else. *)
Definition expected_request (now key : string) (count : Z) (req : http_Request)
  : bool :=
  String.eqb (Method req) "POST"
  && match header_get "Content-Type" (Header req) with
     | Some [v] => String.eqb v "application/json; charset=UTF-8"
     | _ => false
     end
  && match header_get "X-Api-Key" (Header req) with
     | Some [v] => String.eqb v key
     | _ => false
     end
  && String.eqb (ReqBody req)
       ("{" ++ quoted "date" ++ ":" ++ quoted now ++ ","
            ++ quoted "name" ++ ":" ++ quoted ("request #" ++ itoa count) ++ ","
            ++ quoted "requests_sent" ++ ":" ++ itoa count ++ "}").

Definition strict_server (now key : string) (count : Z) (req : http_Request)
  : option http_Response * option error :=
  if expected_request now key count req then (Some (resp_status 200), None)
  else (None, Some connection_refused).

(* ================================================================= *)
(** ** The loops of the collectors *)

(** A collector on the outcomes [ms] it receives one after the other: the
    [case] branch runs on each, the polls that find the channel empty do
    nothing.  [count] is the local counter. *)
Fixpoint collect (recv : Z -> Request -> IO Z) (count : Z) (ms : list Request)
  : IO Z :=
  match ms with
  | [] => ret count
  | m :: r => bind (recv count m) (fun c => collect recv c r)
  end.

(** [func processResults(bulk int, resultC chan Request, verbose bool)],
    when [resultC] yields [ms]. *)
Definition processResults (bulk : Z) (verbose : bool) (ms : list Request) : IO Z :=
  collect (processResults_recv bulk verbose) 0 ms.

(** [func processErrors(bulk int, errorC chan Request, verbose bool)],
    when [errorC] yields [ms]. *)
Definition processErrors (bulk : Z) (verbose : bool) (ms : list Request) : IO Z :=
  collect (processErrors_recv bulk verbose) 0 ms.

(** The lines of the log. *)
Definition buffer_line (bulk : Z) : Event :=
  log_Println [AStr "buffer #"; AInt bulk].

Definition status_of (m : Request) : Z :=
  match Response m with
  | Some r => StatusCode r
  | None => 0
  end.

Definition result_line (m : Request) : Event :=
  log_Printf "request #%d >> http status response %d"
             [AInt (Index m); AInt (status_of m)].

Definition error_line (m : Request) (e : error) : Event :=
  log_Printf "error on request #%d >> %v" [AInt (Index m); AErr e].

Definition error_status_line (m : Request) : Event :=
  log_Printf "error on request #%d >> http status code: %d"
             [AInt (Index m); AInt (status_of m)].

(** The header a collector logs with the first outcome it receives. *)
Definition header (bulk count : Z) : list Event :=
  if GoInt.add count 1 =? 1 then [buffer_line bulk] else [].

(** The line the error collector logs for an outcome: the error if there is
    one, the status code otherwise. *)
Definition errors_line (m : Request) : Event :=
  match Err m with
  | Some e => error_line m e
  | None => error_status_line m
  end.

(** The first line of a collector's log, if it has received anything. *)
Definition log_head {A} (bulk : Z) (ms : list A) : list Event :=
  match ms with
  | [] => []
  | _ :: _ => [buffer_line bulk]
  end.

Definition body_line (m : Request) (b : string) : Event :=
  log_Printf "request #%d >> response: %s" [AInt (Index m); AStr b].

(** The outcomes of [l] that went over channel [c]. *)
Definition on_chan (c : Chan) (cm : Chan * Request) : bool :=
  match fst cm, c with
  | resultC, resultC | errorC, errorC => true
  | _, _ => false
  end.

Definition received (c : Chan) (l : list (Chan * Request)) : list Request :=
  map snd (filter (on_chan c) l).

(** What is left of the dispatcher's tick when it starts no worker. *)
Definition idle_tail (count : Z) (verbose : bool) (d : list Op) : Prop :=
  d = [Go (go_processResults count verbose); Go (go_processErrors count verbose); WgWait]
  \/ d = [Go (go_processErrors count verbose); WgWait]
  \/ d = [WgWait] \/ d = [].

(* ================================================================= *)
(** ** Accounting over the goroutines of a burst *)

(** What an action adds to the counter of the wait group. *)
Definition wg_delta (op : Op) : Z :=
  match op with
  | WgAdd d => d
  | WgDone => -1
  | _ => 0
  end.

(** The outcome an action sends. *)
Definition sent (op : Op) : list (Chan * Request) :=
  match op with
  | Send c m => [(c, m)]
  | _ => []
  end.

(** The worker an action starts. *)
Definition spawned (envs : Z -> Env) (op : Op) : list (list Op) :=
  match op with
  | Go (go_doRequest count reqUrl key verbose) =>
      [doRequest (envs count) count reqUrl key verbose]
  | _ => []
  end.

(** The weight [f] of an action, counting in the worker it starts. *)
Definition weight (envs : Z -> Env) (f : Op -> Z) (op : Op) : Z :=
  f op + sum_threads f (spawned envs op).

(** The weight of everything the goroutines of the burst have yet to do. *)
Definition potential (envs : Z -> Env) (f : Op -> Z) (p : Proc) : Z :=
  sum_ops (weight envs f) (dispatcher p)
  + sum_threads (weight envs f) (workers p).

Definition indicator (b : bool) : Z := if b then 1 else 0.

(** A state the burst can be in. *)
Definition reachable (envs : Z -> Env) (start p : Proc) : Prop :=
  exists sched, run_schedule envs sched start = Reached p.

(** What is left of the dispatcher's tick, in full: pairs of [wg.Add(1)]
    and [go doRequest], then the two collectors of the tick, then
    [wg.Wait()]. *)
Inductive launch_tail (count : Z) (verbose : bool) : list Op -> Prop :=
| launch_end :
    launch_tail count verbose
      [Go (go_processResults count verbose); Go (go_processErrors count verbose); WgWait]
| launch_pair idx url key v t :
    launch_tail count verbose t ->
    launch_tail count verbose (WgAdd 1 :: Go (go_doRequest idx url key v) :: t).

Inductive tick_tail (count : Z) (verbose : bool) : list Op -> Prop :=
| tick_launch t : launch_tail count verbose t -> tick_tail count verbose t
| tick_half idx url key v t :
    launch_tail count verbose t ->
    tick_tail count verbose (Go (go_doRequest idx url key v) :: t)
| tick_errors : tick_tail count verbose [Go (go_processErrors count verbose); WgWait]
| tick_wait : tick_tail count verbose [WgWait]
| tick_done : tick_tail count verbose [].

(** The collectors of the tick: those that are not yet started are still to
    be started by the dispatcher, and those that are print bodies or not as
    the tick has it. *)
Record tick_inv (count : Z) (verbose : bool) (p : Proc) : Prop := {
  tick_shape : tick_tail count verbose (dispatcher p);
  tick_results_due :
    results p = None -> In (Go (go_processResults count verbose)) (dispatcher p);
  tick_errors_due :
    errors p = None -> In (Go (go_processErrors count verbose)) (dispatcher p);
  tick_results_verbose : forall c, results p = Some c -> col_verbose c = verbose;
  tick_errors_verbose : forall c, errors p = Some c -> col_verbose c = verbose
}.

(** Reading a decimal numeral back: [strconv.Atoi] on the output of
    [strconv.Itoa]. *)
Definition digit_val (c : ascii) : N := (N_of_ascii c - 48)%N.

Fixpoint read_digits (s : string) (k : N) : N :=
  match s with
  | EmptyString => k
  | String c r => read_digits r (10 * k + digit_val c)%N
  end.

Definition atoi (s : string) : Z :=
  match s with
  | String c r =>
      if Ascii.eqb c "-" then - Z.of_N (read_digits r 0) else Z.of_N (read_digits s 0)
  | EmptyString => 0
  end.

(** The characters of a decimal numeral. *)
Definition numeral_char (c : ascii) : bool :=
  json_scan.is_digit c || Ascii.eqb c "-".

(* ================================================================= *)
(** ** The ticks of the dispatcher *)

(** How the loop of [executeRequestWithTimer] stands after some ticks. *)
Inductive TimerResult : Type :=
| Ticked (count : Z) (r : Report)     (* between two ticks *)
| InBurst (p : Proc)                  (* [wg.Wait()] has not returned *)
| NotARun                             (* the schedule picks a goroutine that cannot move *)
| Down (events : list Event) (how : Abort).

(** [func executeRequestWithTimer(url, key, rqs, verbose, report)] over the
    ticks whose bursts run along the schedules [scheds].  [count] is the
    local counter and [r] what the shared [report] holds; every tick makes
    its own channels and wait group.  [envs count] are the environments of
    the workers of the tick numbered [count]. *)
Fixpoint executeRequestWithTimer (envs : Z -> Z -> Env) (url key : string)
         (rqs : Z) (verbose : bool) (scheds : list (list Tid)) (count : Z)
         (r : Report) : TimerResult :=
  match scheds with
  | [] => Ticked count r
  | sched :: rest =>
      let count := GoInt.add count 1 in
      match run_schedule (envs count) sched
                         (burst_start r count url key rqs verbose) with
      | Reached p =>
          match dispatcher p with
          | [] => executeRequestWithTimer envs url key rqs verbose rest count (report p)
          | _ :: _ => InBurst p
          end
      | Stuck _ _ => NotARun
      | Crash evs how => Down evs how
      end
  end.

(* ================================================================= *)
(** * Properties *)

(** ** Machine integers *)

Lemma wrap_in_range : forall z, GoInt.in_range z -> GoInt.wrap z = z.
Proof.
  unfold GoInt.in_range, GoInt.wrap, GoInt.min_int, GoInt.max_int.
  intros z Hz. rewrite Z.mod_small; lia.
Qed.

Lemma wrap_add_l : forall a b, GoInt.wrap (GoInt.wrap a + b) = GoInt.wrap (a + b).
Proof.
  intros a b. unfold GoInt.wrap.
  f_equal.
  replace ((a + 2 ^ 63) mod 2 ^ 64 - 2 ^ 63 + b + 2 ^ 63)
    with ((a + 2 ^ 63) mod 2 ^ 64 + b) by ring.
  replace (a + b + 2 ^ 63) with ((a + 2 ^ 63) + b) by ring.
  rewrite Zplus_mod_idemp_l. reflexivity.
Qed.

Lemma add_add : forall a b c, GoInt.add (GoInt.add a b) c = GoInt.wrap (a + (b + c)).
Proof.
  intros. unfold GoInt.add. rewrite wrap_add_l. f_equal. ring.
Qed.

Lemma wrap_range : forall z, GoInt.in_range (GoInt.wrap z).
Proof.
  intro z. unfold GoInt.in_range, GoInt.wrap, GoInt.min_int, GoInt.max_int.
  pose proof (Z.mod_pos_bound (z + 2 ^ 63) (2 ^ 64) ltac:(lia)). lia.
Qed.

(** ** The accepted statuses *)

Lemma status_rejected_false : forall sc,
  status_rejected sc = false <-> In sc [200; 201; 202; 204].
Proof.
  intro sc. unfold status_rejected, http_StatusOK, http_StatusAccepted,
    http_StatusCreated, http_StatusNoContent. simpl.
  destruct (sc =? 200) eqn:E0; destruct (sc =? 202) eqn:E2;
  destruct (sc =? 201) eqn:E1; destruct (sc =? 204) eqn:E4; simpl;
  repeat match goal with
         | H : (_ =? _) = true |- _ => apply Z.eqb_eq in H
         | H : (_ =? _) = false |- _ => apply Z.eqb_neq in H
         end;
  split; intro H; try reflexivity; try discriminate; try lia;
  intuition (try lia; try congruence).
Qed.

Lemma status_rejected_true : forall sc,
  status_rejected sc = true <-> ~ In sc [200; 201; 202; 204].
Proof.
  intro sc. rewrite <- status_rejected_false.
  destruct (status_rejected sc); split; congruence.
Qed.

(** ** The worker, by what the HTTP call returned *)

Section Attempt.

Variables (env : Env) (count : Z) (reqUrl key : string) (verbose : bool).

Let ops := doRequest env count reqUrl key verbose.
Let call := http_DefaultClient_Do env (build_request env count reqUrl key).

Lemma doRequest_accepted : forall r err,
  call = (Some r, err) -> status_rejected (StatusCode r) = false ->
  ops = ([IncTotalRequests; IncTotalSuccess;
          Send resultC {| Index := count; Response := Some r; Err := None |}]
         ++ match err with
            | Some _ => [IncTotalFail;
                         Send errorC {| Index := count; Err := err; Response := None |}]
            | None => []
            end ++ [WgDone])%list.
Proof.
  intros r err Hc Hs. unfold ops, doRequest. fold call. rewrite Hc, Hs.
  reflexivity.
Qed.

Lemma doRequest_rejected : forall r err,
  call = (Some r, err) -> status_rejected (StatusCode r) = true ->
  ops = ([IncTotalRequests; IncTotalFail;
          Send errorC {| Index := count; Response := Some r; Err := err |}]
         ++ match err with
            | Some _ => [IncTotalFail;
                         Send errorC {| Index := count; Err := err; Response := None |}]
            | None => []
            end ++ [WgDone])%list.
Proof.
  intros r err Hc Hs. unfold ops, doRequest. fold call. rewrite Hc, Hs.
  reflexivity.
Qed.

Lemma doRequest_transport_error : forall e,
  call = (None, Some e) ->
  ops = [IncTotalRequests; IncTotalFail;
         Send errorC {| Index := count; Response := None; Err := Some e |};
         WgDone].
Proof.
  intros e Hc. unfold ops, doRequest. fold call. rewrite Hc. reflexivity.
Qed.

Lemma doRequest_nothing :
  call = (None, None) -> ops = [IncTotalRequests; WgDone].
Proof.
  intros Hc. unfold ops, doRequest. fold call. rewrite Hc. reflexivity.
Qed.

End Attempt.

(** ** Classification of one attempt *)

(** C1. When the HTTP call returns a response, the attempt is classified
    by the status code alone: for a status in {200, 201, 202, 204} the
    worker increments [TotalSuccess] (once) and publishes the outcome, with
    the response, on the success channel; for any other status it leaves
    [TotalSuccess] alone, publishes nothing on the success channel,
    increments [TotalFail] and publishes on the error channel an outcome
    with the response attached. *)
Theorem doRequest_classifies_response :
  forall env count reqUrl key verbose r err rep,
    http_DefaultClient_Do env (build_request env count reqUrl key) = (Some r, err) ->
    let ops := doRequest env count reqUrl key verbose in
    (In (StatusCode r) [200; 201; 202; 204] ->
       count_op is_IncTotalSuccess ops = 1%nat /\
       TotalSuccess (report_after ops rep) = GoInt.add (TotalSuccess rep) 1 /\
       published_on resultC ops =
         [{| Index := count; Response := Some r; Err := None |}])
    /\
    (~ In (StatusCode r) [200; 201; 202; 204] ->
       count_op is_IncTotalSuccess ops = 0%nat /\
       TotalSuccess (report_after ops rep) = TotalSuccess rep /\
       published_on resultC ops = [] /\
       (1 <= count_op is_IncTotalFail ops)%nat /\
       TotalFail (report_after ops rep) =
         GoInt.wrap (TotalFail rep + Z.of_nat (count_op is_IncTotalFail ops)) /\
       hd_error (published_on errorC ops) =
         Some {| Index := count; Response := Some r; Err := err |}).
Proof.
  intros env count reqUrl key verbose r err rep Hcall ops. split; intro Hs.
  - apply status_rejected_false in Hs.
    unfold ops. rewrite (doRequest_accepted _ _ _ _ _ _ _ Hcall Hs).
    destruct err; simpl; repeat split; reflexivity.
  - apply status_rejected_true in Hs.
    unfold ops. rewrite (doRequest_rejected _ _ _ _ _ _ _ Hcall Hs).
    destruct err; cbn [app report_after fold_left report_op TotalSuccess TotalFail
                       count_op filter is_IncTotalSuccess is_IncTotalFail
                       List.length published_on published map fst snd hd_error];
      repeat split; try reflexivity; try lia.
    + rewrite add_add. reflexivity.
Qed.

Lemma doRequest_classifies_response_witness :
  let ops := doRequest (env_of (Some (resp_status 201)) None) 3 "u" "k" false in
  count_op is_IncTotalSuccess ops = 1%nat /\
  TotalSuccess (report_after ops zero_report) = GoInt.add (TotalSuccess zero_report) 1 /\
  published_on resultC ops =
    [{| Index := 3; Response := Some (resp_status 201); Err := None |}].
Proof.
  apply (doRequest_classifies_response
           (env_of (Some (resp_status 201)) None) 3 "u" "k" false
           (resp_status 201) None zero_report).
  - reflexivity.
  - simpl. auto.
Defined.

(** C4. When the HTTP call fails without a response, the worker counts the
    attempt as a failure ([TotalFail] incremented once, [TotalSuccess] not
    touched) and publishes exactly one outcome, on the error channel,
    carrying the error and no response. *)
Theorem doRequest_transport_failure :
  forall env count reqUrl key verbose e rep,
    http_DefaultClient_Do env (build_request env count reqUrl key) = (None, Some e) ->
    let ops := doRequest env count reqUrl key verbose in
    TotalFail (report_after ops rep) = GoInt.add (TotalFail rep) 1 /\
    TotalSuccess (report_after ops rep) = TotalSuccess rep /\
    count_op is_IncTotalFail ops = 1%nat /\
    count_op is_IncTotalSuccess ops = 0%nat /\
    published ops =
      [(errorC, {| Index := count; Response := None; Err := Some e |})].
Proof.
  intros env count reqUrl key verbose e rep Hcall ops.
  unfold ops. rewrite (doRequest_transport_error _ _ _ _ _ _ Hcall).
  simpl. repeat split; reflexivity.
Qed.

Lemma doRequest_transport_failure_witness :
  let ops := doRequest (env_of None (Some connection_refused)) 1 "u" "k" false in
  TotalFail (report_after ops zero_report) = GoInt.add (TotalFail zero_report) 1 /\
  TotalSuccess (report_after ops zero_report) = TotalSuccess zero_report /\
  count_op is_IncTotalFail ops = 1%nat /\
  count_op is_IncTotalSuccess ops = 0%nat /\
  published ops =
    [(errorC, {| Index := 1; Response := None; Err := Some connection_refused |})].
Proof.
  apply (doRequest_transport_failure
           (env_of None (Some connection_refused)) 1 "u" "k" false
           connection_refused zero_report).
  reflexivity.
Defined.

(** When the HTTP call returns exactly one of a response and an error, the
    worker increments exactly one of the two counters, once. *)
Lemma doRequest_exclusive_outcome :
  forall env count reqUrl key verbose resp err,
    http_DefaultClient_Do env (build_request env count reqUrl key) = (resp, err) ->
    (resp = None <-> err <> None) ->
    let ops := doRequest env count reqUrl key verbose in
    (count_op is_IncTotalSuccess ops + count_op is_IncTotalFail ops = 1)%nat /\
    count_op is_IncTotalRequests ops = 1%nat.
Proof.
  intros env count reqUrl key verbose resp err Hcall Hx ops. unfold ops.
  destruct resp as [r|], err as [e|].
  - exfalso. destruct Hx as [_ Hx]. discriminate Hx. discriminate.
  - destruct (status_rejected (StatusCode r)) eqn:Hs.
    + rewrite (doRequest_rejected _ _ _ _ _ _ _ Hcall Hs). split; reflexivity.
    + rewrite (doRequest_accepted _ _ _ _ _ _ _ Hcall Hs). split; reflexivity.
  - rewrite (doRequest_transport_error _ _ _ _ _ _ Hcall). split; reflexivity.
  - exfalso. destruct Hx as [Hx _]. apply Hx; reflexivity.
Qed.

Lemma add_one_in_range : forall x,
  GoInt.min_int <= x < GoInt.max_int -> GoInt.add x 1 = x + 1.
Proof.
  intros x Hx. unfold GoInt.add. apply wrap_in_range.
  unfold GoInt.in_range. lia.
Qed.

(** In that case the attempt keeps the report balanced, short of overflow. *)
Lemma doRequest_exclusive_keeps_balance :
  forall env count reqUrl key verbose resp err rep,
    http_DefaultClient_Do env (build_request env count reqUrl key) = (resp, err) ->
    (resp = None <-> err <> None) ->
    report_balanced rep ->
    0 <= TotalSuccess rep -> 0 <= TotalFail rep ->
    TotalRequests rep < GoInt.max_int ->
    report_balanced (report_after (doRequest env count reqUrl key verbose) rep).
Proof.
  intros env count reqUrl key verbose resp err rep Hcall Hx Hb Hs Hf Hlt.
  unfold report_balanced in *.
  assert (Hmin : GoInt.min_int <= 0) by (unfold GoInt.min_int; lia).
  destruct resp as [r|], err as [e|].
  - exfalso. destruct Hx as [_ Hx]. discriminate Hx. discriminate.
  - destruct (status_rejected (StatusCode r)) eqn:Hrej.
    + rewrite (doRequest_rejected _ _ _ _ _ _ _ Hcall Hrej). simpl.
      rewrite !add_one_in_range by lia. lia.
    + rewrite (doRequest_accepted _ _ _ _ _ _ _ Hcall Hrej). simpl.
      rewrite !add_one_in_range by lia. lia.
  - rewrite (doRequest_transport_error _ _ _ _ _ _ Hcall). simpl.
    rewrite !add_one_in_range by lia. lia.
  - exfalso. destruct Hx as [Hx _]. apply Hx; reflexivity.
Qed.

(** C2, where the code departs from it.  The two tests [resp != nil] and
    [err != nil] of [doRequest] are independent.  On an accepted response
    that comes with an error the worker increments both [TotalSuccess] and
    [TotalFail]; on the redirect response that [http.Client.Do] returns
    together with its redirect-limit error it increments [TotalFail] twice
    and publishes two outcomes; on neither a response nor an error it
    increments neither counter. *)
Theorem doRequest_double_classification :
  (let ops := doRequest (env_of (Some (resp_status 200)) (Some unexpected_eof))
                        1 "u" "k" false in
   count_op is_IncTotalSuccess ops = 1%nat /\
   count_op is_IncTotalFail ops = 1%nat /\
   report_after ops zero_report =
     {| TotalRequests := 1; TotalSuccess := 1; TotalFail := 1 |})
  /\
  (let ops := doRequest env_redirect_limit 1 "u" "k" false in
   count_op is_IncTotalSuccess ops = 0%nat /\
   count_op is_IncTotalFail ops = 2%nat /\
   report_after ops zero_report =
     {| TotalRequests := 1; TotalSuccess := 0; TotalFail := 2 |} /\
   List.length (published ops) = 2%nat)
  /\
  (let ops := doRequest (env_of None None) 1 "u" "k" false in
   count_op is_IncTotalSuccess ops = 0%nat /\
   count_op is_IncTotalFail ops = 0%nat).
Proof.
  repeat split; reflexivity.
Qed.

(** C3, where the code departs from it.  A worker whose HTTP call returns
    the redirect response together with the redirect-limit error takes the
    balanced empty report to one with 1 request, 0 successes and 2
    failures; a burst of that single worker run to completion ends with
    that report, and the controller prints it. *)
Theorem report_sum_broken_by_double_count :
  let r := report_after (doRequest env_redirect_limit 1 "u" "k" false) zero_report in
  report_balanced zero_report /\
  r = {| TotalRequests := 1; TotalSuccess := 0; TotalFail := 2 |} /\
  ~ report_balanced r /\
  (exists p,
      run_schedule (fun _ => env_redirect_limit) (sequential_schedule 1 6)
                   (burst_start zero_report 1 "u" "k" 1 false) = Reached p /\
      burst_complete p /\ report p = r) /\
  In (fmt_Println [AStr (report_text r)])
     (fst (executeRequests "u" "k" 1 1 false r)).
Proof.
  cbv zeta. split; [reflexivity|]. split; [reflexivity|].
  split; [intro H; vm_compute in H; discriminate H|]. split.
  - eexists. split; [vm_compute; reflexivity|]. split; reflexivity.
  - vm_compute. do 5 right. left. reflexivity.
Qed.

(** Case analysis on the members of a concrete list of published outcomes. *)
Ltac each_published H :=
  repeat (destruct H as [H|H]; [inversion H; subst; clear H|]);
  try contradiction.

Ltac signal_case :=
  first
    [ left; discriminate
    | right; discriminate
    | intros [?|?]; congruence
    | intro; congruence
    | intros _; left; split; [discriminate|reflexivity]
    | intros _; right; split; [reflexivity|discriminate]
    | intros _; split; [discriminate|reflexivity] ].

(** ** The signals of a published outcome *)

(** C7, counterexample.  On the redirect response returned together with
    the redirect-limit error, the worker publishes an outcome that has both
    a response and an error. *)
Lemma outcome_with_response_and_error :
  ~ Forall exactly_one_signal
      (map snd (published (doRequest env_redirect_limit 1 "u" "k" false))).
Proof.
  intro H. vm_compute in H. inversion H as [|m l Hm _]; subst.
  destruct Hm as [[_ Hm]|[Hm _]]; discriminate Hm.
Qed.

(** C7, amended.  Every published outcome has a response or an error, and
    exactly one of them whenever the HTTP call returned only one of the
    two; outcomes on the success channel have a response and no error; and
    for a response with a non-accepted status the worker publishes an
    outcome with the response set whose error field is whatever error the
    call returned (none if it returned none). *)
Theorem published_outcome_signals :
  forall env count reqUrl key verbose resp err,
    http_DefaultClient_Do env (build_request env count reqUrl key) = (resp, err) ->
    let ops := doRequest env count reqUrl key verbose in
    (forall c m, In (c, m) (published ops) ->
       (Response m <> None \/ Err m <> None) /\
       (resp = None \/ err = None -> exactly_one_signal m) /\
       (c = resultC -> Response m <> None /\ Err m = None)) /\
    (forall r, resp = Some r -> ~ In (StatusCode r) [200; 201; 202; 204] ->
       In (errorC, {| Index := count; Response := Some r; Err := err |})
          (published ops)).
Proof.
  intros env count reqUrl key verbose resp err Hcall ops. unfold ops.
  unfold exactly_one_signal.
  destruct resp as [r|].
  - destruct (status_rejected (StatusCode r)) eqn:Hs.
    + rewrite (doRequest_rejected _ _ _ _ _ _ _ Hcall Hs). split.
      * intros c m Hin. destruct err as [e|]; simpl in Hin; each_published Hin;
          simpl; (split; [|split]); signal_case.
      * intros r0 Hr _. inversion Hr; subst. destruct err; simpl; auto.
    + rewrite (doRequest_accepted _ _ _ _ _ _ _ Hcall Hs). split.
      * intros c m Hin. destruct err as [e|]; simpl in Hin; each_published Hin;
          simpl; (split; [|split]); signal_case.
      * intros r0 Hr Hn. inversion Hr; subst.
        apply status_rejected_true in Hn. congruence.
  - split; [|intros r Hr; discriminate Hr].
    destruct err as [e|].
    + rewrite (doRequest_transport_error _ _ _ _ _ _ Hcall).
      intros c m Hin. simpl in Hin; each_published Hin.
      simpl; (split; [|split]); signal_case.
    + rewrite (doRequest_nothing _ _ _ _ _ Hcall). intros c m [].
Qed.

Lemma published_outcome_signals_witness :
  let ops := doRequest (env_of (Some (resp_status 404)) None) 2 "u" "k" false in
  (forall c m, In (c, m) (published ops) ->
     (Response m <> None \/ Err m <> None) /\
     (Some (resp_status 404) = None \/ @None error = None -> exactly_one_signal m) /\
     (c = resultC -> Response m <> None /\ Err m = None)) /\
  (forall r, Some (resp_status 404) = Some r -> ~ In (StatusCode r) [200; 201; 202; 204] ->
     In (errorC, {| Index := 2; Response := Some r; Err := None |}) (published ops)).
Proof.
  apply (published_outcome_signals
           (env_of (Some (resp_status 404)) None) 2 "u" "k" false
           (Some (resp_status 404)) None).
  reflexivity.
Defined.

(** ** Computations that do not panic *)

Lemma no_panic_ret : forall A (a : A), no_panic (ret a).
Proof. intros A a H. discriminate H. Qed.

Lemma no_panic_emit : forall e, no_panic (emit e).
Proof. intros e H. discriminate H. Qed.

Lemma no_panic_check : forall err, no_panic (check err).
Proof. intros [e|] H; discriminate H. Qed.

Lemma no_panic_bind : forall A B (m : IO A) (f : A -> IO B),
  no_panic m -> (forall a, no_panic (f a)) -> no_panic (bind m f).
Proof.
  intros A B [t [a| |c]] f Hm Hf; unfold no_panic in *; simpl in *.
  - specialize (Hf a). destruct (f a) as [t' r]. exact Hf.
  - congruence.
  - discriminate.
Qed.

Lemma no_panic_if : forall A (b : bool) (m1 m2 : IO A),
  no_panic m1 -> no_panic m2 -> no_panic (if b then m1 else m2).
Proof. intros A [|] m1 m2 H1 H2; assumption. Qed.

Ltac no_panic_steps :=
  repeat first
    [ apply no_panic_bind; [|intro]
    | apply no_panic_if
    | apply no_panic_ret | apply no_panic_emit | apply no_panic_check
    | match goal with
      | |- no_panic (let (_, _) := ?p in _) => destruct p
      end ].


(** ** The burst: every worker is counted once *)

Lemma sum_ops_cons : forall f op t, sum_ops f (op :: t) = f op + sum_ops f t.
Proof. reflexivity. Qed.

Lemma sum_threads_app : forall f a b,
  sum_threads f (a ++ b) = sum_threads f a + sum_threads f b.
Proof.
  intros f a b. induction a as [|x a IH]; simpl; [reflexivity|].
  rewrite IH. ring.
Qed.

Lemma sum_threads_update : forall f i op rest ts,
  nth i ts [] = op :: rest ->
  sum_threads f (update_nth i rest ts) = sum_threads f ts - f op.
Proof.
  intros f i op rest ts. revert i.
  induction ts as [|t ts IH]; intros [|i] H; simpl in *; try discriminate.
  - subst t. simpl. ring.
  - rewrite (IH i H). ring.
Qed.

Lemma length_update_nth : forall A i (x : A) l,
  List.length (update_nth i x l) = List.length l.
Proof.
  intros A i x l. revert i. induction l as [|y l IH]; intros [|i]; simpl; auto.
Qed.

Lemma Forall_update_nth : forall A (P : A -> Prop) i x l,
  Forall P l -> P x -> Forall P (update_nth i x l).
Proof.
  intros A P i x l Hl Hx. revert i.
  induction Hl as [|y l Hy Hl IH]; intros [|i]; simpl; auto.
Qed.

Lemma Forall_nth_default : forall A (P : A -> Prop) i d l,
  Forall P l -> P d -> P (nth i l d).
Proof.
  intros A P i d l Hl Hd. revert i.
  induction Hl as [|y l Hy Hl IH]; intros [|i]; simpl; auto.
Qed.

Lemma worker_tail_tl : forall op t, worker_tail (op :: t) -> worker_tail t.
Proof. intros op t H. inversion H; subst; auto using worker_nil. Qed.

Lemma disp_tail_tl : forall op t, disp_tail (op :: t) -> disp_tail t.
Proof. intros op t H. inversion H; subst; auto using disp_nil. Qed.

Lemma worker_tail_owed_done : forall t,
  worker_tail t -> sum_ops owed_done t = match t with [] => 0 | _ :: _ => 1 end.
Proof.
  intros t H. induction H; simpl; try reflexivity;
    destruct t; try congruence; simpl in *; lia.
Qed.

Lemma workers_all_done : forall ts,
  Forall worker_tail ts -> sum_threads owed_done ts = 0 ->
  Forall (fun t => t = []) ts.
Proof.
  intros ts H. induction H as [|t ts Ht Hts IH]; intros Hs; [constructor|].
  simpl in Hs.
  assert (Hnn : 0 <= sum_threads owed_done ts).
  { clear -Hts. induction Hts as [|u us Hu Hus IH]; simpl; [lia|].
    rewrite (worker_tail_owed_done _ Hu). destruct u; lia. }
  rewrite (worker_tail_owed_done _ Ht) in Hs.
  destruct t; [|lia]. constructor; [reflexivity|]. apply IH. lia.
Qed.

Lemma sum_threads_all_nil : forall f ts,
  Forall (fun t => t = []) ts -> sum_threads f ts = 0.
Proof.
  intros f ts H. induction H as [|t ts Ht _ IH]; simpl; [reflexivity|].
  subst t. simpl. exact IH.
Qed.

Lemma doRequest_worker_tail : forall env count reqUrl key verbose,
  worker_tail (doRequest env count reqUrl key verbose).
Proof.
  intros. unfold doRequest.
  destruct (http_DefaultClient_Do env (build_request env count reqUrl key))
    as [[r|] [e|]]; simpl;
    try destruct (status_rejected (StatusCode r));
    repeat (constructor; [discriminate|]); constructor.
Qed.

Lemma doRequest_owed_req : forall env count reqUrl key verbose,
  sum_ops owed_req (doRequest env count reqUrl key verbose) = 1.
Proof.
  intros. unfold doRequest.
  destruct (http_DefaultClient_Do env (build_request env count reqUrl key))
    as [[r|] [e|]]; simpl;
    try destruct (status_rejected (StatusCode r)); reflexivity.
Qed.

Lemma doRequest_counts_request_once : forall env count reqUrl key verbose,
  count_op is_IncTotalRequests (doRequest env count reqUrl key verbose) = 1%nat.
Proof.
  intros. unfold doRequest.
  destruct (http_DefaultClient_Do env (build_request env count reqUrl key))
    as [[r|] [e|]]; simpl;
    try destruct (status_rejected (StatusCode r)); reflexivity.
Qed.

Section TickBody.

Variables (count : Z) (url key : string) (verbose : bool).

Let launch (l : list Z) : list Op :=
  (flat_map (fun idx => [WgAdd 1; Go (go_doRequest idx url key verbose)]) l
   ++ [Go (go_processResults count verbose);
       Go (go_processErrors count verbose);
       WgWait])%list.

Lemma launch_facts : forall l,
  disp_tail (launch l) /\ launch l <> [] /\
  sum_ops owed_req (launch l) = Z.of_nat (List.length l) /\
  sum_ops owed_done (launch l) = 0.
Proof.
  induction l as [|idx l [Ht [Hne [Hr Hd]]]].
  - unfold launch. simpl. repeat split; try discriminate.
    repeat (constructor; [discriminate|]). constructor.
  - unfold launch in *. cbn [flat_map app] in *. repeat split.
    + constructor; [discriminate|]. constructor; assumption.
    + discriminate.
    + rewrite !sum_ops_cons, Hr. cbn [List.length owed_req].
      rewrite Nat2Z.inj_succ. lia.
    + rewrite !sum_ops_cons, Hd. cbn [owed_done]. lia.
Qed.

Lemma tick_body_facts : forall rqs,
  disp_tail (tick_body count url key rqs verbose) /\
  sum_ops owed_req (tick_body count url key rqs verbose) = Z.of_nat (Z.to_nat rqs) /\
  sum_ops owed_done (tick_body count url key rqs verbose) = 0.
Proof.
  intro rqs. unfold tick_body.
  destruct (launch_facts (indices rqs)) as [Ht [_ [Hr Hd]]].
  unfold launch in *. repeat split; try assumption.
  rewrite Hr. unfold indices. rewrite length_map, length_seq. reflexivity.
Qed.

End TickBody.

Lemma burst_start_inv : forall r count url key rqs verbose,
  0 <= rqs -> GoInt.in_range (TotalRequests r) ->
  burst_inv (TotalRequests r + rqs) rqs (burst_start r count url key rqs verbose).
Proof.
  intros r count url key rqs verbose Hrqs Hrange.
  destruct (tick_body_facts count url key verbose rqs) as [Ht [Hr Hd]].
  constructor; unfold burst_start; cbn [report wg dispatcher workers].
  - rewrite Hr. simpl. f_equal. lia.
  - exact Hrange.
  - rewrite Hd. reflexivity.
  - rewrite Hr. simpl. lia.
  - exact Ht.
  - constructor.
  - intros _. constructor.
Qed.

Lemma all_nil_nth : forall i (ts : list (list Op)),
  Forall (fun t => t = []) ts -> nth i ts [] = [].
Proof.
  intros i ts H. apply (Forall_nth_default _ (fun t => t = [])); auto.
Qed.

(** A step of a worker preserves the invariant. *)
Lemma worker_step_inv : forall envs target n i p p',
  burst_inv target n p ->
  step_thread envs (Worker i) p = Next p' ->
  burst_inv target n p'.
Proof.
  intros envs target n i p p' [Hreq Hrg Hwg Hst Hd Hw Hc] Hstep.
  unfold step_thread in Hstep. cbn [pending] in Hstep.
  destruct (nth i (workers p) []) as [|op rest] eqn:Hnth; [discriminate|].
  assert (Hdisp : dispatcher p <> []).
  { intro H0. rewrite (all_nil_nth i _ (Hc H0)) in Hnth. discriminate. }
  assert (Htail : worker_tail (op :: rest)).
  { rewrite <- Hnth. apply Forall_nth_default; [assumption|constructor]. }
  assert (Hrest : worker_tail rest) by (eapply worker_tail_tl; eassumption).
  pose proof (sum_threads_update owed_req i op rest _ Hnth) as Ureq.
  pose proof (sum_threads_update owed_done i op rest _ Hnth) as Udone.
  pose proof (Forall_update_nth _ worker_tail i rest _ Hw Hrest) as Uw.
  pose proof (length_update_nth _ i rest (workers p)) as Ulen.
  destruct p as [rep w res errs del evs disp wks].
  cbn [report wg results errors delivered events dispatcher workers advance] in *.
  inversion Htail; subst op; try subst rest.
  - (* wg.Done() *)
    unfold wg_add in Hstep. cbn [wg events] in Hstep.
    destruct (w + -1 <? 0); [discriminate|].
    inversion Hstep; subst p'; clear Hstep.
    constructor; cbn [report wg dispatcher workers]; auto; try congruence; try apply wrap_range.
    + rewrite Ureq. rewrite <- Hreq. f_equal. simpl. ring.
    + rewrite Udone. simpl. lia.
  - (* report.TotalRequests += 1 *)
    inversion Hstep; subst p'; clear Hstep.
    constructor; cbn [report wg dispatcher workers report_op TotalRequests];
      auto; try congruence; try apply wrap_range.
    + rewrite Ureq. rewrite <- Hreq. unfold GoInt.add.
      rewrite <- Z.add_assoc, wrap_add_l. f_equal. simpl. ring.
    + rewrite Udone. simpl. lia.
  - (* report.TotalSuccess += 1 *)
    inversion Hstep; subst p'; clear Hstep.
    constructor; cbn [report wg dispatcher workers report_op TotalRequests];
      auto; try congruence; try apply wrap_range.
    + rewrite Ureq. rewrite <- Hreq. f_equal. simpl. ring.
    + rewrite Udone. simpl. lia.
  - (* report.TotalFail += 1 *)
    inversion Hstep; subst p'; clear Hstep.
    constructor; cbn [report wg dispatcher workers report_op TotalRequests];
      auto; try congruence; try apply wrap_range.
    + rewrite Ureq. rewrite <- Hreq. f_equal. simpl. ring.
    + rewrite Udone. simpl. lia.
  - (* a send *)
    match type of Hnth with
    | _ = _ :: ?r =>
        assert (Hp' : report p' = rep /\ wg p' = w /\ dispatcher p' = disp /\
                      workers p' = update_nth i r wks)
    end.
    { unfold send in Hstep.
      cbn [results errors report wg dispatcher workers delivered events] in Hstep.
      destruct c.
      - destruct res as [col|]; [|discriminate].
        destruct (processResults_recv _ _ _ m) as [evs' [k| |code]];
          inversion Hstep; subst p'; auto.
      - destruct errs as [col|]; [|discriminate].
        destruct (processErrors_recv _ _ _ m) as [evs' [k| |code]];
          inversion Hstep; subst p'; auto. }
    destruct Hp' as [E1 [E2 [E3 E4]]].
    constructor; rewrite ?E1, ?E2, ?E3, ?E4; auto; try congruence; try apply wrap_range.
    + rewrite Ureq. rewrite <- Hreq. f_equal. simpl. ring.
    + rewrite Udone. simpl. lia.
Qed.

(** A step of the dispatcher preserves the invariant. *)
Lemma dispatcher_step_inv : forall envs target n p p',
  burst_inv target n p ->
  step_thread envs Dispatcher p = Next p' ->
  burst_inv target n p'.
Proof.
  intros envs target n p p' [Hreq Hrg Hwg Hst Hd Hw Hc] Hstep.
  unfold step_thread in Hstep. cbn [pending] in Hstep.
  destruct p as [rep w res errs del evs disp wks].
  cbn [report wg results errors delivered events dispatcher workers advance] in *.
  destruct disp as [|op rest]; [discriminate|].
  assert (Hrest : disp_tail rest) by (eapply disp_tail_tl; eassumption).
  rewrite sum_ops_cons in Hreq, Hwg, Hst.
  revert Hreq Hwg Hst.
  inversion Hd as [ | | t Hne Ht | g t Hne Ht]; subst; intros Hreq Hwg Hst;
    cbn [owed_req owed_done] in Hreq, Hwg, Hst.
  - (* wg.Wait() *)
    cbn [wg] in Hstep. destruct (_ =? 0) eqn:Hz; [|discriminate].
    apply Z.eqb_eq in Hz. simpl in Hwg, Hreq, Hst.
    inversion Hstep; subst p'; clear Hstep.
    constructor; cbn [report wg dispatcher workers]; auto.
    intros _. apply workers_all_done; [assumption|lia].
  - (* wg.Add(1) *)
    unfold wg_add in Hstep. cbn [wg events] in Hstep.
    destruct (_ <? 0); [discriminate|].
    inversion Hstep; subst p'; clear Hstep.
    constructor; cbn [report wg dispatcher workers]; auto; try congruence.
    lia.
  - (* go *)
    inversion Hstep; subst p'; clear Hstep.
    destruct g as [idx u k v | bulk v | bulk v];
      constructor; cbn [spawn report wg dispatcher workers]; auto; try congruence.
    + rewrite sum_threads_app. cbn [sum_threads fold_right]. rewrite doRequest_owed_req.
      rewrite <- Hreq. f_equal. cbn [owed_req]. ring.
    + rewrite sum_threads_app. cbn [sum_threads fold_right].
      rewrite (worker_tail_owed_done _ (doRequest_worker_tail (envs idx) idx u k v)).
      assert (Hn : sum_ops owed_req (doRequest (envs idx) idx u k v) = 1)
        by apply doRequest_owed_req.
      destruct (doRequest (envs idx) idx u k v); [discriminate Hn|].
      cbn [owed_done]. lia.
    + rewrite length_app, Nat2Z.inj_add. cbn [owed_req] in Hst. simpl List.length. lia.
    + apply Forall_app. split; [assumption|].
      constructor; [apply doRequest_worker_tail|constructor].
Qed.

Lemma step_inv : forall envs target n t p p',
  burst_inv target n p ->
  step_thread envs t p = Next p' ->
  burst_inv target n p'.
Proof.
  intros envs target n [|i] p p' Hinv Hstep.
  - eapply dispatcher_step_inv; eassumption.
  - eapply worker_step_inv; eassumption.
Qed.

Lemma run_schedule_inv : forall envs target n sched p p',
  burst_inv target n p ->
  run_schedule envs sched p = Reached p' ->
  burst_inv target n p'.
Proof.
  intros envs target n sched. induction sched as [|t sched IH]; intros p p' Hinv Hrun.
  - simpl in Hrun. inversion Hrun; subst. assumption.
  - simpl in Hrun. destruct (step_thread envs t p) as [q| |evs st] eqn:Hstep;
      try discriminate.
    eapply IH; [|eassumption]. eapply step_inv; eassumption.
Qed.


(** ** A burst can run to completion *)

Lemma run_schedule_app : forall envs a b p,
  run_schedule envs (a ++ b) p =
  match run_schedule envs a p with
  | Reached q => run_schedule envs b q
  | other => other
  end.
Proof.
  intros envs a. induction a as [|t a IH]; intros b p; simpl; [reflexivity|].
  destruct (step_thread envs t p); auto.
Qed.

Lemma doRequest_loggable : forall env count reqUrl key verbose,
  Forall loggable (doRequest env count reqUrl key verbose).
Proof.
  intros. unfold doRequest.
  destruct (http_DefaultClient_Do env (build_request env count reqUrl key))
    as [[r|] [e|]]; simpl;
    try destruct (status_rejected (StatusCode r));
    repeat (apply Forall_cons;
            [simpl; first [exact I | discriminate
                          | left; discriminate | right; discriminate]|]);
    apply Forall_nil.
Qed.

Lemma doRequest_nonempty : forall env count reqUrl key verbose,
  doRequest env count reqUrl key verbose <> [].
Proof.
  intros. unfold doRequest.
  destruct (http_DefaultClient_Do env (build_request env count reqUrl key))
    as [resp err]. discriminate.
Qed.

Lemma update_nth_twice : forall A i (x y : A) l,
  update_nth i x (update_nth i y l) = update_nth i x l.
Proof.
  intros A i x y l. revert i. induction l as [|z l IH]; intros [|i]; simpl; auto.
  rewrite IH. reflexivity.
Qed.

Lemma nth_update_nth : forall A i (x : A) l d,
  (i < List.length l)%nat -> nth i (update_nth i x l) d = x.
Proof.
  intros A i x l d. revert i. induction l as [|z l IH]; intros [|i] H; simpl in *;
    try lia; try reflexivity.
  apply IH. lia.
Qed.

(** The quiet collectors log every loggable outcome and carry on. *)
Lemma send_quiet : forall c m p,
  collectors_quiet p -> loggable (Send c m) ->
  exists p',
    send c m p = Next p' /\ collectors_quiet p' /\
    report p' = report p /\ wg p' = wg p /\
    dispatcher p' = dispatcher p /\ workers p' = workers p.
Proof.
  intros c m p [[cr [Hr Hvr]] [ce [He Hve]]] Hm.
  unfold send. destruct c; simpl in Hm.
  - rewrite Hr, Hvr. destruct (Response m) as [r|] eqn:Hresp; [|congruence].
    unfold processResults_recv. rewrite Hresp. cbn [deref].
    destruct (GoInt.add (col_count cr) 1 =? 1); cbn;
      (eexists; split; [reflexivity|]);
      (split; [split; eexists; cbn; eauto|cbn; auto]).
  - rewrite He, Hve. unfold processErrors_recv.
    destruct (Err m) as [e|] eqn:Herr.
    + destruct (GoInt.add (col_count ce) 1 =? 1); cbn;
        (eexists; split; [reflexivity|]);
        (split; [split; eexists; cbn; eauto|cbn; auto]).
    + destruct Hm as [Hm|Hm]; [congruence|].
      destruct (Response m) as [r|] eqn:Hresp; [|congruence]. cbn [deref].
      destruct (GoInt.add (col_count ce) 1 =? 1); cbn;
        (eexists; split; [reflexivity|]);
        (split; [split; eexists; cbn; eauto|cbn; auto]).
Qed.

Lemma flat_map_map_const : forall A B C (f : A -> B) (ys : list C) (l : list A),
  flat_map (fun _ => ys) (map f l) = flat_map (fun _ => ys) l.
Proof.
  intros. induction l as [|x l IH]; simpl; [reflexivity|]. rewrite IH. reflexivity.
Qed.

Lemma advance_quiet : forall t rest p,
  collectors_quiet p -> collectors_quiet (advance t rest p).
Proof. intros [|i] rest p H; exact H. Qed.

(** A worker whose outcomes are loggable runs to its end once the
    collectors are there. *)
Lemma worker_runs : forall envs i ops,
  worker_tail ops -> ops <> [] -> Forall loggable ops ->
  forall p,
    collectors_quiet p ->
    nth i (workers p) [] = ops -> (i < List.length (workers p))%nat ->
    1 <= wg p ->
    exists p',
      run_schedule envs (repeat (Worker i) (List.length ops)) p = Reached p' /\
      collectors_quiet p' /\ wg p' = wg p - 1 /\
      dispatcher p' = dispatcher p /\
      workers p' = update_nth i [] (workers p).
Proof.
  intros envs i ops Htail.
  induction Htail as [ | | t Hne Ht IH | t Hne Ht IH | t Hne Ht IH | c m t Hne Ht IH];
    intros Hnn Hlog p Hq Hnth Hlen Hwg; try congruence;
    cbn [List.length repeat run_schedule]; unfold step_thread;
    cbn [pending]; rewrite Hnth.
  - (* wg.Done() *)
    unfold wg_add. destruct p as [rep w res errs del evs disp wks].
    cbn [advance wg events report results errors delivered dispatcher workers] in *.
    destruct (w + -1 <? 0) eqn:Hneg; [apply Z.ltb_lt in Hneg; lia|].
    eexists. split; [reflexivity|].
    split; [exact Hq|]. cbn [wg dispatcher workers]. repeat split.
  - (* report.TotalRequests += 1 *)
    inversion Hlog as [|? ? _ Hlog']; subst.
    destruct p as [rep w res errs del evs disp wks].
    cbn [advance wg events report results errors delivered dispatcher workers] in *.
    edestruct (IH Hne Hlog') as [p' [Hrun [Hq' [Hw' [Hd' Hws']]]]];
      [ | | | | exists p'; split; [exact Hrun|] ];
      cbn [wg dispatcher workers results errors] in *;
      try exact Hq; try (rewrite nth_update_nth; auto);
      try (rewrite length_update_nth; auto); try assumption.
    rewrite update_nth_twice in Hws'. auto.
  - (* report.TotalSuccess += 1 *)
    inversion Hlog as [|? ? _ Hlog']; subst.
    destruct p as [rep w res errs del evs disp wks].
    cbn [advance wg events report results errors delivered dispatcher workers] in *.
    edestruct (IH Hne Hlog') as [p' [Hrun [Hq' [Hw' [Hd' Hws']]]]];
      [ | | | | exists p'; split; [exact Hrun|] ];
      cbn [wg dispatcher workers results errors] in *;
      try exact Hq; try (rewrite nth_update_nth; auto);
      try (rewrite length_update_nth; auto); try assumption.
    rewrite update_nth_twice in Hws'. auto.
  - (* report.TotalFail += 1 *)
    inversion Hlog as [|? ? _ Hlog']; subst.
    destruct p as [rep w res errs del evs disp wks].
    cbn [advance wg events report results errors delivered dispatcher workers] in *.
    edestruct (IH Hne Hlog') as [p' [Hrun [Hq' [Hw' [Hd' Hws']]]]];
      [ | | | | exists p'; split; [exact Hrun|] ];
      cbn [wg dispatcher workers results errors] in *;
      try exact Hq; try (rewrite nth_update_nth; auto);
      try (rewrite length_update_nth; auto); try assumption.
    rewrite update_nth_twice in Hws'. auto.
  - (* a send *)
    inversion Hlog as [|? ? Hm Hlog']; subst.
    destruct (send_quiet c m (advance (Worker i) t p) (advance_quiet _ _ _ Hq) Hm)
      as [p1 [Hs [Hq1 [_ [Hw1 [Hd1 Hws1]]]]]].
    rewrite Hs. cbn [advance wg dispatcher workers] in Hw1, Hd1, Hws1.
    destruct (IH Hne Hlog' p1 Hq1) as [p' [Hrun [Hq' [Hw' [Hd' Hws']]]]].
    + rewrite Hws1. apply nth_update_nth. assumption.
    + rewrite Hws1, length_update_nth. assumption.
    + lia.
    + exists p'. split; [exact Hrun|]. rewrite Hw', Hd', Hws', Hw1, Hd1, Hws1.
      rewrite update_nth_twice. auto.
Qed.

Lemma update_nth_app : forall A (pre : list A) x w r,
  update_nth (List.length pre) x (pre ++ w :: r) = (pre ++ x :: r)%list.
Proof.
  intros A pre x w r. induction pre as [|y pre IH]; simpl; [reflexivity|].
  rewrite IH. reflexivity.
Qed.

(** The workers run to their ends one after the other. *)
Lemma workers_run : forall envs ws pre p,
  Forall (fun w => worker_tail w /\ w <> [] /\ Forall loggable w) ws ->
  collectors_quiet p ->
  workers p = (pre ++ ws)%list ->
  wg p = Z.of_nat (List.length ws) ->
  exists p',
    run_schedule envs (worker_schedule (List.length pre) ws) p = Reached p' /\
    wg p' = 0 /\ dispatcher p' = dispatcher p.
Proof.
  intros envs ws. induction ws as [|w r IH]; intros pre p Hws Hq Hw Hwg.
  - exists p. simpl in *. auto.
  - inversion Hws as [|? ? [Ht [Hne Hlog]] Hr]; subst.
    cbn [worker_schedule]. rewrite run_schedule_app.
    destruct (worker_runs envs (List.length pre) w Ht Hne Hlog p Hq)
      as [p1 [Hrun [Hq1 [Hw1 [Hd1 Hws1]]]]].
    + rewrite Hw. rewrite app_nth2, Nat.sub_diag; [reflexivity|lia].
    + rewrite Hw, length_app. simpl. lia.
    + rewrite Hwg. cbn [List.length]. lia.
    + rewrite Hrun. rewrite Hw, update_nth_app in Hws1.
      destruct (IH (pre ++ [[]])%list p1 Hr Hq1) as [p' [Hrun' [Hw' Hd']]].
      * rewrite Hws1, <- app_assoc. reflexivity.
      * rewrite Hw1, Hwg. cbn [List.length]. lia.
      * exists p'. rewrite length_app in Hrun'. cbn [List.length] in Hrun'.
        rewrite Nat.add_1_r in Hrun'. rewrite Hrun'. split; [reflexivity|].
        split; [assumption|congruence].
Qed.

(** The dispatcher starts the workers. *)
Lemma dispatcher_launches : forall envs url key verbose l rest p,
  dispatcher p =
    (flat_map (fun idx => [WgAdd 1; Go (go_doRequest idx url key verbose)]) l
     ++ rest)%list ->
  0 <= wg p ->
  exists p',
    run_schedule envs (flat_map (fun _ => [Dispatcher; Dispatcher]) l) p = Reached p' /\
    dispatcher p' = rest /\
    wg p' = wg p + Z.of_nat (List.length l) /\
    workers p' =
      (workers p ++ map (fun idx => doRequest (envs idx) idx url key verbose) l)%list /\
    results p' = results p /\ errors p' = errors p.
Proof.
  intros envs url key verbose l. induction l as [|idx l IH]; intros rest p Hd Hwg.
  - exists p. simpl in *. rewrite app_nil_r, Z.add_0_r. repeat split; auto.
  - destruct p as [rep w res errs del evs disp wks].
    cbn [dispatcher wg workers results errors] in *. subst disp.
    cbn [flat_map app run_schedule]. unfold step_thread at 1.
    cbn [pending advance dispatcher wg events report results errors delivered workers].
    unfold wg_add. cbn [wg events report results errors delivered dispatcher workers].
    destruct (w + 1 <? 0) eqn:Hneg; [apply Z.ltb_lt in Hneg; lia|].
    unfold step_thread at 1.
    cbn [pending advance spawn dispatcher wg events report results errors delivered workers].
    edestruct (IH rest) as [p' [Hrun [Hd' [Hw' [Hws' [Hr' He']]]]]];
      [ | | exists p'; split; [exact Hrun|] ];
      cbn [dispatcher wg workers results errors] in *.
    + reflexivity.
    + lia.
    + rewrite Hw', Hws', <- app_assoc. cbn [List.length map app].
      rewrite Nat2Z.inj_succ. repeat split; auto. lia.
Qed.

Lemma burst_workers_ready : forall envs url key rqs verbose,
  Forall (fun w => worker_tail w /\ w <> [] /\ Forall loggable w)
         (burst_workers envs url key rqs verbose).
Proof.
  intros. unfold burst_workers. apply Forall_map.
  apply Forall_forall. intros idx _.
  split; [apply doRequest_worker_tail|].
  split; [apply doRequest_nonempty|apply doRequest_loggable].
Qed.

(** Whatever the HTTP calls of the workers return, a burst whose
    collectors do not print bodies can run to completion. *)
Lemma burst_can_complete : forall envs r count url key rqs,
  exists p,
    run_schedule envs (complete_schedule envs url key rqs false)
                 (burst_start r count url key rqs false) = Reached p /\
    burst_complete p.
Proof.
  intros envs r count url key rqs. unfold complete_schedule.
  rewrite run_schedule_app.
  destruct (dispatcher_launches envs url key false (indices rqs)
              [Go (go_processResults count false);
               Go (go_processErrors count false); WgWait]
              (burst_start r count url key rqs false))
    as [p1 [Hrun [Hd1 [Hw1 [Hws1 [Hr1 He1]]]]]].
  - reflexivity.
  - simpl. lia.
  - unfold burst_workers at 1. rewrite flat_map_map_const, Hrun. clear Hrun.
    destruct p1 as [rep w res errs del evs disp wks].
    cbn [dispatcher wg workers results errors burst_start] in *. subst.
    rewrite run_schedule_app. cbn [run_schedule]. unfold step_thread at 1.
    cbn [pending advance spawn dispatcher]. unfold step_thread at 1.
    cbn [pending advance spawn dispatcher wg events report results errors delivered workers].
    rewrite run_schedule_app.
    match goal with
    | |- context [run_schedule _ (worker_schedule 0 _) ?q] =>
        destruct (workers_run envs (burst_workers envs url key rqs false) [] q
                    (burst_workers_ready _ _ _ _ _))
          as [p2 [Hrun2 [Hw2 Hd2]]]
    end.
    + split; eexists; cbn; eauto.
    + reflexivity.
    + cbn [wg]. unfold burst_workers. rewrite length_map. lia.
    + cbn [List.length] in Hrun2. rewrite Hrun2.
      cbn [dispatcher] in Hd2. cbn [run_schedule]. unfold step_thread.
      cbn [pending]. rewrite Hd2.
      replace (wg (advance Dispatcher [] p2)) with 0
        by (destruct p2; cbn in *; congruence).
      cbn. eexists. split; [reflexivity|]. destruct p2; reflexivity.
Qed.

(** ** No run of a burst dereferences a nil response *)

Lemma processResults_recv_safe : forall bulk v n m,
  Response m <> None -> no_panic (processResults_recv bulk v n m).
Proof.
  intros bulk v n m Hm. destruct (Response m) as [r|] eqn:Hr; [|congruence].
  unfold processResults_recv. rewrite Hr. cbn [deref]. no_panic_steps.
Qed.

Lemma processErrors_recv_safe : forall bulk v n m,
  Err m <> None \/ Response m <> None -> no_panic (processErrors_recv bulk v n m).
Proof.
  intros bulk v n m Hm. unfold processErrors_recv.
  destruct (Err m) as [e|] eqn:He.
  - no_panic_steps.
  - destruct Hm as [Hm|Hm]; [congruence|].
    destruct (Response m) as [r|] eqn:Hr; [|congruence].
    cbn [deref]. no_panic_steps.
Qed.

Lemma send_no_nil : forall c m p evs,
  loggable (Send c m) -> send c m p <> Crashed evs NilDereference.
Proof.
  intros c m p evs Hm. unfold send. destruct c; simpl in Hm.
  - destruct (results p) as [col|]; [|discriminate].
    pose proof (processResults_recv_safe (col_bulk col) (col_verbose col)
                  (col_count col) m Hm) as Hs.
    unfold no_panic in Hs.
    destruct (processResults_recv _ _ _ m) as [evs' [k| |code]];
      simpl in Hs; congruence.
  - destruct (errors p) as [col|]; [|discriminate].
    pose proof (processErrors_recv_safe (col_bulk col) (col_verbose col)
                  (col_count col) m Hm) as Hs.
    unfold no_panic in Hs.
    destruct (processErrors_recv _ _ _ m) as [evs' [k| |code]];
      simpl in Hs; congruence.
Qed.

Lemma send_keeps_threads : forall c m p p',
  send c m p = Next p' ->
  dispatcher p' = dispatcher p /\ workers p' = workers p.
Proof.
  intros c m p p' H. unfold send in H. destruct c.
  - destruct (results p) as [col|]; [|discriminate].
    destruct (processResults_recv _ _ _ m) as [evs' [k| |code]];
      inversion H; subst; auto.
  - destruct (errors p) as [col|]; [|discriminate].
    destruct (processErrors_recv _ _ _ m) as [evs' [k| |code]];
      inversion H; subst; auto.
Qed.

Lemma pending_loggable : forall t p,
  sends_loggable p -> Forall loggable (pending t p).
Proof.
  intros [|i] p [Hd Hw]; simpl; [assumption|].
  apply Forall_nth_default; [assumption|constructor].
Qed.

Lemma advance_loggable : forall t rest p,
  sends_loggable p -> Forall loggable rest -> sends_loggable (advance t rest p).
Proof.
  intros [|i] rest p [Hd Hw] Hr; split; simpl; auto.
  apply Forall_update_nth; assumption.
Qed.

Lemma step_no_nil : forall envs t p evs,
  sends_loggable p -> step_thread envs t p <> Crashed evs NilDereference.
Proof.
  intros envs t p evs Hp. unfold step_thread.
  pose proof (pending_loggable t p Hp) as Hpend.
  destruct (pending t p) as [|op rest]; [discriminate|].
  inversion Hpend as [|? ? Hop Hrest]; subst.
  destruct op; try discriminate.
  - apply send_no_nil. assumption.
  - unfold wg_add. destruct (_ <? 0); discriminate.
  - unfold wg_add. destruct (_ <? 0); discriminate.
  - destruct (_ =? 0); discriminate.
Qed.

Lemma step_loggable : forall envs t p p',
  sends_loggable p -> step_thread envs t p = Next p' -> sends_loggable p'.
Proof.
  intros envs t p p' Hp Hstep. unfold step_thread in Hstep.
  pose proof (pending_loggable t p Hp) as Hpend.
  destruct (pending t p) as [|op rest]; [discriminate|].
  inversion Hpend as [|? ? Hop Hrest]; subst.
  pose proof (advance_loggable t rest p Hp Hrest) as Ha.
  destruct op.
  - inversion Hstep; subst. exact Ha.
  - inversion Hstep; subst. exact Ha.
  - inversion Hstep; subst. exact Ha.
  - destruct (send_keeps_threads _ _ _ _ Hstep) as [E1 E2].
    destruct Ha as [Hd Hw]. split; congruence.
  - unfold wg_add in Hstep. destruct (_ <? 0); [discriminate|].
    inversion Hstep; subst. exact Ha.
  - unfold wg_add in Hstep. destruct (_ <? 0); [discriminate|].
    inversion Hstep; subst. exact Ha.
  - destruct (_ =? 0); [|discriminate]. inversion Hstep; subst. exact Ha.
  - inversion Hstep; subst. destruct Ha as [Hd Hw].
    destruct g; split; simpl; auto.
    apply Forall_app. split; [assumption|].
    constructor; [apply doRequest_loggable|constructor].
Qed.

Lemma run_no_nil : forall envs sched p evs,
  sends_loggable p -> run_schedule envs sched p <> Crash evs NilDereference.
Proof.
  intros envs sched. induction sched as [|t sched IH]; intros p evs Hp;
    simpl; [discriminate|].
  destruct (step_thread envs t p) as [q| |evs' how] eqn:Hstep.
  - apply IH. eapply step_loggable; eassumption.
  - discriminate.
  - intro H. inversion H; subst. eapply step_no_nil; eassumption.
Qed.

Lemma burst_start_loggable : forall r count url key rqs verbose,
  sends_loggable (burst_start r count url key rqs verbose).
Proof.
  intros. split; simpl; [|constructor].
  unfold tick_body. apply Forall_app. split.
  - apply Forall_flat_map. apply Forall_forall. intros idx _.
    repeat constructor.
  - repeat constructor.
Qed.

(** C10. Every outcome a worker publishes on the success channel has a
    response and no error, and every outcome it publishes on the error
    channel without an error has a response; so neither collector, whatever
    its state, panics on an outcome it receives from a worker, and no run
    of a burst, however its goroutines interleave, ends in a nil
    dereference. *)
Theorem collectors_never_dereference_nil :
  (forall env count reqUrl key verbose c m,
      In (c, m) (published (doRequest env count reqUrl key verbose)) ->
      match c with
      | resultC =>
          Response m <> None /\ Err m = None /\
          forall bulk v n, snd (processResults_recv bulk v n m) <> Panic
      | errorC =>
          (Err m = None -> Response m <> None) /\
          forall bulk v n, snd (processErrors_recv bulk v n m) <> Panic
      end) /\
  (forall envs sched r count url key rqs verbose evs,
      run_schedule envs sched (burst_start r count url key rqs verbose)
      <> Crash evs NilDereference).
Proof.
  split.
  - intros env count reqUrl key verbose c m Hin.
    assert (Hlog : loggable (Send c m)).
    { pose proof (doRequest_loggable env count reqUrl key verbose) as Hall.
      rewrite Forall_forall in Hall. apply Hall.
      clear Hall. induction (doRequest env count reqUrl key verbose) as [|op ops IH];
        [contradiction|].
      destruct op; simpl in Hin; try (right; apply IH; assumption).
      destruct Hin as [Hin|Hin]; [inversion Hin; subst; left; reflexivity|].
      right. apply IH. assumption. }
    assert (Hres : c = resultC -> Err m = None).
    { intro Hc. subst c. unfold doRequest in Hin.
      destruct (http_DefaultClient_Do env (build_request env count reqUrl key))
        as [[r|] [e|]]; simpl in Hin;
        try destruct (status_rejected (StatusCode r)); simpl in Hin;
        each_published Hin; try discriminate; reflexivity. }
    destruct c; simpl in Hlog.
    + split; [assumption|]. split; [auto|].
      intros bulk v n. apply processResults_recv_safe. assumption.
    + split.
      * intro He. destruct Hlog as [Hl|Hl]; [congruence|assumption].
      * intros bulk v n. apply processErrors_recv_safe. assumption.
  - intros envs sched r count url key rqs verbose evs.
    apply run_no_nil. apply burst_start_loggable.
Qed.

Lemma collectors_never_dereference_nil_witness :
  (Err {| Index := 1; Response := Some (resp_status 500); Err := None |} = None ->
   Response {| Index := 1; Response := Some (resp_status 500); Err := None |} <> None) /\
  forall bulk v n,
    snd (processErrors_recv bulk v n
           {| Index := 1; Response := Some (resp_status 500); Err := None |}) <> Panic.
Proof.
  destruct collectors_never_dereference_nil as [H _].
  apply (H (env_of (Some (resp_status 500)) None) 1 "u" "k" true errorC
           {| Index := 1; Response := Some (resp_status 500); Err := None |}).
  simpl. left. reflexivity.
Defined.

(** ** Every request of a burst is counted once *)

(** C6. In a burst of [rqs >= 1] workers, every worker increments
    [TotalRequests] exactly once, whatever its HTTP call returns; and
    however the goroutines of the burst interleave (each increment being
    atomic), once [wg.Wait()] has returned all [rqs] workers have been
    started and have run to their ends, and [TotalRequests] has grown by
    exactly [rqs], provided the sum fits an [int].  Such complete runs
    exist: when the collectors do not print bodies, the burst can always
    run to completion. *)
Theorem burst_counts_every_request :
  forall envs r count url key rqs verbose,
    1 <= rqs ->
    GoInt.in_range (TotalRequests r) ->
    GoInt.in_range (TotalRequests r + rqs) ->
    (forall idx,
        count_op is_IncTotalRequests (doRequest (envs idx) idx url key verbose) = 1%nat) /\
    (forall sched p,
        run_schedule envs sched (burst_start r count url key rqs verbose) = Reached p ->
        burst_complete p ->
        Z.of_nat (List.length (workers p)) = rqs /\
        Forall (fun t => t = []) (workers p) /\
        TotalRequests (report p) = TotalRequests r + rqs) /\
    (verbose = false ->
     exists sched p,
       run_schedule envs sched (burst_start r count url key rqs verbose) = Reached p /\
       burst_complete p).
Proof.
  intros envs r count url key rqs verbose Hrqs Hr Hfit.
  split; [intro idx; apply doRequest_counts_request_once|]. split.
  - intros sched p Hrun Hdone.
    assert (Hinv : burst_inv (TotalRequests r + rqs) rqs p).
    { eapply run_schedule_inv; [|eassumption].
      apply burst_start_inv; [lia|assumption]. }
    destruct Hinv as [Hreq Hrg Hwg Hst Hd Hw Hc].
    unfold burst_complete in Hdone. rewrite Hdone in *.
    specialize (Hc eq_refl). simpl in Hst, Hreq.
    rewrite (sum_threads_all_nil _ _ Hc) in Hreq.
    repeat split.
    + lia.
    + assumption.
    + rewrite <- (wrap_in_range _ Hfit). rewrite <- Hreq.
      rewrite !Z.add_0_r. symmetry. apply wrap_in_range. assumption.
  - intros Hv. subst verbose.
    destruct (burst_can_complete envs r count url key rqs) as [p [Hrun Hdone]].
    exists (complete_schedule envs url key rqs false), p. auto.
Qed.

Lemma burst_counts_every_request_witness :
  Z.of_nat (List.length (workers example_burst_end)) = 2 /\
  Forall (fun t => t = []) (workers example_burst_end) /\
  TotalRequests (report example_burst_end) = TotalRequests zero_report + 2.
Proof.
  destruct (burst_counts_every_request example_envs zero_report 1 "u" "k" 2 false)
    as [_ [H _]].
  - lia.
  - vm_compute. split; discriminate.
  - vm_compute. split; discriminate.
  - apply (H (sequential_schedule 2 4) example_burst_end).
    + vm_compute. reflexivity.
    + vm_compute. reflexivity.
Defined.

(** ** Strings and decimal numerals *)

Lemma string_app_assoc : forall a b c : string, (a ++ b) ++ c = a ++ (b ++ c).
Proof.
  induction a as [|x a IH]; intros b c; simpl; [reflexivity|].
  rewrite IH. reflexivity.
Qed.

Lemma string_app_nil_r : forall a : string, a ++ "" = a.
Proof.
  induction a as [|x a IH]; simpl; [reflexivity|]. rewrite IH. reflexivity.
Qed.

Lemma string_forallb_app : forall p a b,
  string_forallb p (a ++ b) = string_forallb p a && string_forallb p b.
Proof.
  intros p. induction a as [|x a IH]; intros b; simpl; [reflexivity|].
  rewrite IH. rewrite andb_assoc. reflexivity.
Qed.

Lemma digit_char_is_digit : forall d, (d < 10)%N ->
  json_scan.is_digit (digit_char d) = true.
Proof.
  intros d Hd.
  assert (H : In d [0;1;2;3;4;5;6;7;8;9]%N).
  { simpl. lia. }
  simpl in H. repeat (destruct H as [H|H]; [subst d; reflexivity|]). contradiction.
Qed.

Lemma digit_char_is_digit19 : forall d, (0 < d < 10)%N ->
  json_scan.is_digit19 (digit_char d) = true.
Proof.
  intros d Hd.
  assert (H : In d [1;2;3;4;5;6;7;8;9]%N).
  { simpl. lia. }
  simpl in H. repeat (destruct H as [H|H]; [subst d; reflexivity|]). contradiction.
Qed.

(** A positive number prints as a digit from 1 to 9 followed by digits. *)
Lemma utoa_fuel_shape : forall fuel n acc,
  (0 < n)%N -> (n < 2 ^ N.of_nat fuel)%N ->
  exists d ds,
    utoa_fuel fuel n acc = String d (ds ++ acc) /\
    json_scan.is_digit19 d = true /\
    string_forallb json_scan.is_digit ds = true.
Proof.
  induction fuel as [|f IH]; intros n acc Hpos Hlt.
  - simpl in Hlt. lia.
  - cbn [utoa_fuel]. destruct (n / 10 =? 0)%N eqn:Hq.
    + apply N.eqb_eq in Hq. exists (digit_char (n mod 10)), "".
      assert (Hn : (n < 10)%N).
      { destruct (N.lt_ge_cases n 10) as [|Hge]; [assumption|].
        pose proof (N.Div0.div_le_mono 10 n 10 Hge) as Hd.
        rewrite N.div_same in Hd by lia. lia. }
      rewrite N.mod_small by assumption.
      repeat split. apply digit_char_is_digit19. lia.
    + apply N.eqb_neq in Hq.
      assert (Hlt' : (n / 10 < 2 ^ N.of_nat f)%N).
      { rewrite Nat2N.inj_succ, N.pow_succ_r' in Hlt.
        apply N.Div0.div_lt_upper_bound.
        remember (2 ^ N.of_nat f)%N as X. clear HeqX. lia. }
      destruct (IH (n / 10)%N (String (digit_char (n mod 10)) acc)) as [d [ds [E [Hd Hds]]]];
        [apply N.neq_0_lt_0; assumption|assumption|].
      exists d, (ds ++ str1 (digit_char (n mod 10))). repeat split.
      * rewrite E. rewrite string_app_assoc. reflexivity.
      * assumption.
      * rewrite string_forallb_app, Hds. simpl.
        rewrite digit_char_is_digit; [reflexivity|].
        apply N.mod_lt. lia.
Qed.

Lemma utoa_shape : forall p,
  exists d ds,
    utoa (Npos p) = String d ds /\
    json_scan.is_digit19 d = true /\
    string_forallb json_scan.is_digit ds = true.
Proof.
  intro p. unfold utoa.
  destruct (utoa_fuel_shape (S (N.to_nat (N.log2 (Npos p)))) (Npos p) "")
    as [d [ds [E [Hd Hds]]]].
  - lia.
  - rewrite Nat2N.inj_succ, N2Nat.id.
    apply N.log2_spec. lia.
  - exists d, ds. rewrite E, string_app_nil_r. auto.
Qed.

(** ** [Indent] on the encoding of a report *)

Import json_scan.

Lemma indent_loop_app : forall p i a b st,
  indent_loop p i (a ++ b) st = indent_loop p i b (indent_loop p i a st).
Proof.
  intros p i a. induction a as [|c a IH]; intros b st; simpl; [reflexivity|].
  apply IH.
Qed.

Ltac each_byte c :=
  destruct c as [[|] [|] [|] [|] [|] [|] [|] [|]].

(** What [Indent] has written before does not influence what it writes. *)
Lemma indent_byte_prepend : forall p i out st c,
  indent_byte p i (prepend out st) c = prepend out (indent_byte p i st c).
Proof.
  intros p i out [sc ni d o stp] c.
  unfold indent_byte, prepend. cbn [scan needIndent depth dst stopped].
  destruct stp; [reflexivity|].
  destruct (scan_step _ c) as [v s].
  destruct v; cbn [is_end_code negb andb];
    destruct ni; cbn [andb scan needIndent depth dst stopped];
    unfold appendNewline;
    repeat match goal with
           | |- context [if ?b then _ else _] => destruct b
           end;
    cbn [scan needIndent depth dst stopped];
    rewrite ?string_app_assoc; reflexivity.
Qed.

Lemma indent_loop_prepend : forall p i s out st,
  indent_loop p i s (prepend out st) = prepend out (indent_loop p i s st).
Proof.
  intros p i s. induction s as [|c s IH]; intros out st; simpl; [reflexivity|].
  rewrite indent_byte_prepend. apply IH.
Qed.

Lemma indent_at_prepend : forall stp ps b ni d out,
  indent_at stp ps b ni d out = prepend out (indent_at stp ps b ni d "").
Proof.
  intros. unfold indent_at, prepend. simpl. rewrite string_app_nil_r. reflexivity.
Qed.

Lemma indent_byte_first_digit : forall c ps b d out,
  is_digit19 c = true ->
  indent_byte "" "  " (indent_at fn_BeginValue ps b false d out) c =
  indent_at fn_1 ps (b + 1) false d (out ++ str1 c).
Proof.
  intros c ps b d out H.
  each_byte c; vm_compute in H; try discriminate H; reflexivity.
Qed.

Lemma indent_byte_neg_digit : forall c ps b d out,
  is_digit19 c = true ->
  indent_byte "" "  " (indent_at fn_Neg ps b false d out) c =
  indent_at fn_1 ps (b + 1) false d (out ++ str1 c).
Proof.
  intros c ps b d out H.
  each_byte c; vm_compute in H; try discriminate H; reflexivity.
Qed.

Lemma indent_byte_digit : forall c ps b d out,
  is_digit c = true ->
  indent_byte "" "  " (indent_at fn_1 ps b false d out) c =
  indent_at fn_1 ps (b + 1) false d (out ++ str1 c).
Proof.
  intros c ps b d out H.
  each_byte c; vm_compute in H; try discriminate H; reflexivity.
Qed.

Lemma indent_digits : forall ds ps b d out,
  string_forallb is_digit ds = true ->
  exists b',
    indent_loop "" "  " ds (indent_at fn_1 ps b false d out) =
    indent_at fn_1 ps b' false d (out ++ ds).
Proof.
  induction ds as [|c ds IH]; intros ps b d out H.
  - exists b. simpl. rewrite string_app_nil_r. reflexivity.
  - simpl in H. apply andb_true_iff in H. destruct H as [Hc Hds].
    cbn [indent_loop]. rewrite (indent_byte_digit _ _ _ _ _ Hc).
    destruct (IH ps (b + 1) d (out ++ str1 c) Hds) as [b' E].
    exists b'. rewrite E. rewrite string_app_assoc. reflexivity.
Qed.

(** A decimal numeral in value position is copied as it is, and leaves the
    scanner in one of the two states that end an integer. *)
Lemma indent_number : forall z ps b d out,
  exists stp b',
    (stp = fn_0 \/ stp = fn_1) /\
    indent_loop "" "  " (itoa z) (indent_at fn_BeginValue ps b false d out) =
    indent_at stp ps b' false d (out ++ itoa z).
Proof.
  intros z ps b d out. destruct z as [|p|p]; cbn [itoa].
  - exists fn_0, (b + 1). split; [left; reflexivity|reflexivity].
  - destruct (utoa_shape p) as [c [ds [E [Hc Hds]]]]. rewrite E.
    cbn [indent_loop]. rewrite (indent_byte_first_digit _ _ _ _ _ Hc).
    destruct (indent_digits ds ps (b + 1) d (out ++ str1 c) Hds) as [b' E'].
    exists fn_1, b'. split; [right; reflexivity|].
    rewrite E', string_app_assoc. reflexivity.
  - destruct (utoa_shape p) as [c [ds [E [Hc Hds]]]]. rewrite E.
    change ("-" ++ String c ds) with (String "-" (String c ds)).
    cbn [indent_loop].
    change (indent_byte "" "  " (indent_at fn_BeginValue ps b false d out) "-")
      with (indent_at fn_Neg ps (b + 1) false d (out ++ "-")).
    rewrite (indent_byte_neg_digit _ _ _ _ _ Hc).
    destruct (indent_digits ds ps (b + 1 + 1) d ((out ++ "-") ++ str1 c) Hds) as [b' E'].
    exists fn_1, b'. split; [right; reflexivity|].
    rewrite E', !string_app_assoc. reflexivity.
Qed.

(** The member separator and the next key, after a number. *)
Lemma indent_next_member : forall name stp b out,
  name = "TotalSuccess" \/ name = "TotalFail" ->
  stp = fn_0 \/ stp = fn_1 ->
  exists b',
    indent_loop "" "  " ("," ++ quoted name ++ ":")
                (indent_at stp [parseObjectValue] b false 1 out) =
    indent_at fn_BeginValue [parseObjectValue] b' false 1
              (out ++ "," ++ str1 newline ++ "  " ++ quoted name ++ ": ").
Proof.
  intros name stp b out Hname Hstp.
  rewrite indent_at_prepend, indent_loop_prepend.
  destruct Hname; subst name; destruct Hstp; subst stp;
    eexists; cbv; reflexivity.
Qed.

Lemma indent_close_object : forall stp b out,
  stp = fn_0 \/ stp = fn_1 ->
  exists b',
    indent_loop "" "  " "}" (indent_at stp [parseObjectValue] b false 1 out) =
    mkIndent (mkScanner fn_EndTop true [] None b') false 0
             (out ++ str1 newline ++ "}") false.
Proof.
  intros stp b out Hstp.
  rewrite indent_at_prepend, indent_loop_prepend.
  destruct Hstp; subst stp; eexists; cbv; reflexivity.
Qed.

Lemma marshal_report_text : forall r,
  fst (json_Marshal_Report r) =
  ("{" ++ quoted "TotalRequests" ++ ":") ++ itoa (TotalRequests r)
  ++ ("," ++ quoted "TotalSuccess" ++ ":") ++ itoa (TotalSuccess r)
  ++ ("," ++ quoted "TotalFail" ++ ":") ++ itoa (TotalFail r) ++ "}".
Proof.
  intro r. unfold json_Marshal_Report, json_enc.encode_object. cbn [fst json_enc.join_members].
  change (json_enc.appendString "TotalRequests") with (quoted "TotalRequests").
  change (json_enc.appendString "TotalSuccess") with (quoted "TotalSuccess").
  change (json_enc.appendString "TotalFail") with (quoted "TotalFail").
  rewrite !string_app_assoc. reflexivity.
Qed.

(** [prettyPrint] never fails on the encoding of a report, and renders it
    as the indented object [report_text]. *)
Lemma prettyPrint_report : forall r,
  prettyPrint (fst (json_Marshal_Report r)) = (report_text r, None).
Proof.
  intro r. unfold prettyPrint, Indent. rewrite marshal_report_text.
  rewrite indent_loop_app.
  change (indent_loop "" "  " ("{" ++ quoted "TotalRequests" ++ ":") indent_init)
    with (indent_at fn_BeginValue [parseObjectValue] 17 false 1
            ("{" ++ str1 newline ++ "  " ++ quoted "TotalRequests" ++ ": ")).
  rewrite indent_loop_app.
  destruct (indent_number (TotalRequests r) [parseObjectValue] 17 1
              ("{" ++ str1 newline ++ "  " ++ quoted "TotalRequests" ++ ": "))
    as [s1 [b1 [Hs1 E1]]]. rewrite E1.
  rewrite indent_loop_app.
  destruct (indent_next_member "TotalSuccess" s1 b1
              (("{" ++ str1 newline ++ "  " ++ quoted "TotalRequests" ++ ": ")
                 ++ itoa (TotalRequests r)) (or_introl eq_refl) Hs1) as [b2 E2].
  rewrite E2. rewrite indent_loop_app.
  match goal with
  | |- context [indent_loop _ _ (itoa (TotalSuccess r)) (indent_at _ ?ps ?b _ ?d ?o)] =>
      destruct (indent_number (TotalSuccess r) ps b d o) as [s3 [b3 [Hs3 E3]]]
  end.
  rewrite E3. rewrite indent_loop_app.
  match goal with
  | |- context [indent_loop _ _ _ (indent_at s3 _ b3 _ _ ?o)] =>
      destruct (indent_next_member "TotalFail" s3 b3 o (or_intror eq_refl) Hs3)
        as [b4 E4]
  end.
  rewrite E4. rewrite indent_loop_app.
  match goal with
  | |- context [indent_loop _ _ (itoa (TotalFail r)) (indent_at _ ?ps ?b _ ?d ?o)] =>
      destruct (indent_number (TotalFail r) ps b d o) as [s5 [b5 [Hs5 E5]]]
  end.
  rewrite E5.
  match goal with
  | |- context [indent_loop _ _ _ (indent_at s5 _ b5 _ _ ?o)] =>
      destruct (indent_close_object s5 b5 o Hs5) as [b6 E6]
  end.
  rewrite E6. cbn [scan eof err endTop dst].
  unfold report_text. rewrite !string_app_assoc. reflexivity.
Qed.

(** ** The run controller *)

Lemma executeRequests_unfold : forall url key rqs duration verbose snapshot,
  executeRequests url key rqs duration verbose snapshot =
  ([ log_Println [AStr "Waiting for all requests to be executed..."];
     go_executeRequestWithTimer url key rqs verbose;
     time_Sleep (GoInt.mul time_Second (GoInt.add duration 1));
     log_Println [AStr "Requests executed successfully."];
     log_Println [AStr "--------------------REPORT--------------------"];
     fmt_Println [AStr (report_text snapshot)] ],
   Ok tt).
Proof.
  intros. unfold executeRequests.
  pose proof (prettyPrint_report snapshot) as Hp.
  unfold json_Marshal_Report in *. cbn [fst] in Hp. rewrite Hp.
  reflexivity.
Qed.

(** C9, counterexample.  With a duration of 9223372036 seconds the
    controller does not sleep for [duration + 1] seconds: that many
    nanoseconds do not fit a [time.Duration], the product wraps around to
    a negative number, and [time.Sleep] returns at once. *)
Lemma executeRequests_pause_overflows :
  fst (executeRequests "u" "k" 5 9223372036 false zero_report) =
  [ log_Println [AStr "Waiting for all requests to be executed..."];
    go_executeRequestWithTimer "u" "k" 5 false;
    time_Sleep (-9223372036709551616);
    log_Println [AStr "Requests executed successfully."];
    log_Println [AStr "--------------------REPORT--------------------"];
    fmt_Println [AStr (report_text zero_report)] ] /\
  sleep_pause (-9223372036709551616) = 0 /\
  sleep_pause ((9223372036 + 1) * time_Second) = 9223372037000000000.
Proof.
  rewrite executeRequests_unfold. repeat split.
Qed.

(** C5, counterexample.  With zero requests per tick and a negative
    duration the program is not rejected: it starts the dispatcher and
    ends with status 0. *)
Lemma nonpositive_configuration_accepted :
  flag_rqs (example_flags 0 (-3)) <= 0 /\
  flag_duration (example_flags 0 (-3)) <= 0 /\
  ~ rejected (main (example_flags 0 (-3)) zero_report).
Proof.
  split; [simpl; lia|]. split; [simpl; lia|].
  intros [H _]. apply H. vm_compute. reflexivity.
Qed.

(** ** The request of a worker *)

Lemma appendString_loop_safe : forall s fuel,
  (String.length s <= fuel)%nat ->
  string_forallb json_enc.htmlSafe s = true ->
  json_enc.appendString_loop fuel s = s.
Proof.
  induction s as [|c s IH]; intros fuel Hf Hs.
  - destruct fuel; reflexivity.
  - destruct fuel as [|f]; [simpl in Hf; lia|].
    simpl in Hs. apply andb_true_iff in Hs. destruct Hs as [Hc Hs].
    cbn [json_enc.appendString_loop]. rewrite Hc.
    assert (Hlt : (byte_val c <? 128) = true).
    { unfold json_enc.htmlSafe in Hc. cbv zeta in Hc.
      repeat (apply andb_true_iff in Hc; destruct Hc as [Hc ?]).
      assumption. }
    rewrite Hlt. simpl. rewrite IH; [reflexivity| simpl in Hf; lia | assumption].
Qed.

(** A string of printable ASCII without quote, backslash, [<], [>], [&]
    is encoded as itself between quotes. *)
Lemma appendString_safe : forall s,
  string_forallb json_enc.htmlSafe s = true ->
  json_enc.appendString s = quoted s.
Proof.
  intros s Hs. unfold json_enc.appendString, quoted.
  rewrite appendString_loop_safe; auto.
Qed.

Lemma digit_htmlSafe : forall c,
  json_scan.is_digit c = true -> json_enc.htmlSafe c = true.
Proof.
  intros c H. each_byte c; vm_compute in H; try discriminate H; reflexivity.
Qed.

Lemma digit19_is_digit : forall c,
  json_scan.is_digit19 c = true -> json_scan.is_digit c = true.
Proof.
  intros c H. each_byte c; vm_compute in H; try discriminate H; reflexivity.
Qed.

Lemma digits_htmlSafe : forall ds,
  string_forallb json_scan.is_digit ds = true ->
  string_forallb json_enc.htmlSafe ds = true.
Proof.
  induction ds as [|c ds IH]; intro H; [reflexivity|].
  simpl in *. apply andb_true_iff in H. destruct H as [Hc Hds].
  rewrite (digit_htmlSafe _ Hc), (IH Hds). reflexivity.
Qed.

Lemma itoa_htmlSafe : forall z, string_forallb json_enc.htmlSafe (itoa z) = true.
Proof.
  intros [|p|p]; cbn [itoa]; [reflexivity| |];
    destruct (utoa_shape p) as [c [ds [E [Hc Hds]]]]; rewrite E.
  - simpl. rewrite (digit_htmlSafe _ (digit19_is_digit _ Hc)), (digits_htmlSafe _ Hds).
    reflexivity.
  - change ("-" ++ String c ds) with (String "-" (String c ds)). simpl.
    rewrite (digit_htmlSafe _ (digit19_is_digit _ Hc)), (digits_htmlSafe _ Hds).
    reflexivity.
Qed.

Lemma Sprintf_request_encoded : forall count,
  json_enc.appendString (Sprintf_request count) = quoted (Sprintf_request count).
Proof.
  intro count. apply appendString_safe. unfold Sprintf_request.
  rewrite string_forallb_app, itoa_htmlSafe. reflexivity.
Qed.

(** C8. For the attempt numbered [count] the worker builds a POST request
    with the headers Content-Type: application/json; charset=UTF-8 and
    X-Api-Key: the configured key, whose body is the JSON object with the
    members date (the JSON string of [time.Now().String()]), name (the
    string "request #" followed by [count] in decimal) and requests_sent
    (the number [count]); and this is the request the worker issues: what
    it publishes is the answer of the HTTP client to this very request,
    whatever the client would answer to any other. *)
Theorem doRequest_request_shape :
  forall env count reqUrl key verbose,
    let req := build_request env count reqUrl key in
    Method req = "POST" /\
    URL req = url_Parse env reqUrl /\
    header_get "Content-Type" (Header req) = Some ["application/json; charset=UTF-8"] /\
    header_get "X-Api-Key" (Header req) = Some [key] /\
    ReqBody req =
      "{" ++ quoted "date" ++ ":" ++ json_enc.appendString (time_Now_String env) ++ ","
          ++ quoted "name" ++ ":" ++ quoted ("request #" ++ itoa count) ++ ","
          ++ quoted "requests_sent" ++ ":" ++ itoa count ++ "}" /\
    (forall client,
        client req = http_DefaultClient_Do env req ->
        doRequest (with_client env client) count reqUrl key verbose =
        doRequest env count reqUrl key verbose) /\
    (forall client r,
        client req = (Some r, None) ->
        status_rejected (StatusCode r) = false ->
        published (doRequest (with_client env client) count reqUrl key verbose) =
        [(resultC, {| Index := count; Response := Some r; Err := None |})]) /\
    (forall client e,
        client req = (None, Some e) ->
        published (doRequest (with_client env client) count reqUrl key verbose) =
        [(errorC, {| Index := count; Response := None; Err := Some e |})]).
Proof.
  intros env count reqUrl key verbose req. unfold req.
  assert (Hreq : forall client,
             build_request (with_client env client) count reqUrl key =
             build_request env count reqUrl key) by reflexivity.
  repeat split.
  - unfold build_request. cbn [ReqBody].
    unfold json_enc.Marshal_map, json_enc.encode_object.
    change (json_enc.sort_by_key
              [("name", json_enc.VString (Sprintf_request count));
               ("date", json_enc.VString (time_Now_String env));
               ("requests_sent", json_enc.VInt count)])
      with [("date", json_enc.VString (time_Now_String env));
            ("name", json_enc.VString (Sprintf_request count));
            ("requests_sent", json_enc.VInt count)].
    cbn [map fst snd json_enc.encode_value json_enc.join_members].
    rewrite Sprintf_request_encoded.
    change (json_enc.appendString "date") with (quoted "date").
    change (json_enc.appendString "name") with (quoted "name").
    change (json_enc.appendString "requests_sent") with (quoted "requests_sent").
    unfold Sprintf_request. rewrite !string_app_assoc. reflexivity.
  - intros client Hc. unfold doRequest. rewrite Hreq.
    cbn [http_DefaultClient_Do with_client]. rewrite Hc. reflexivity.
  - intros client r Hc Hst.
    rewrite (doRequest_accepted (with_client env client) count reqUrl key verbose
               r None); [reflexivity| |exact Hst].
    rewrite Hreq. exact Hc.
  - intros client e Hc.
    rewrite (doRequest_transport_error (with_client env client) count reqUrl key
               verbose e); [reflexivity|].
    rewrite Hreq. exact Hc.
Qed.

Lemma doRequest_request_shape_witness :
  let env := env_of None (Some connection_refused) in
  published (doRequest (with_client env (strict_server (time_Now_String env) "k" 7))
                       7 "u" "k" false) =
  [(resultC, {| Index := 7; Response := Some (resp_status 200); Err := None |})].
Proof.
  intro env.
  destruct (doRequest_request_shape env 7 "u" "k" false)
    as [_ [_ [_ [_ [_ [_ [H _]]]]]]].
  apply H; vm_compute; reflexivity.
Defined.

(* ================================================================= *)
(** * Further properties *)

(** ** The collectors, outcome by outcome *)

Lemma indent_blank : forall b st,
  string_forallb json_scan.isSpace b = true ->
  json_scan.stopped st = false ->
  json_scan.step (json_scan.scan st) = json_scan.fn_BeginValue ->
  json_scan.indent_loop "" "  " b st =
  json_scan.mkIndent
    (json_scan.mkScanner json_scan.fn_BeginValue
       (json_scan.endTop (json_scan.scan st))
       (json_scan.parseState (json_scan.scan st))
       (json_scan.err (json_scan.scan st))
       (json_scan.bytes (json_scan.scan st) + Z.of_nat (String.length b)))
    (json_scan.needIndent st) (json_scan.depth st) (json_scan.dst st) false.
Proof.
  induction b as [|c b IH]; intros st Hb Hs Hstep.
  - destruct st as [[stp et ps er by_] ni d o s]. simpl in *. subst.
    rewrite Z.add_0_r. reflexivity.
  - simpl in Hb. apply andb_true_iff in Hb. destruct Hb as [Hc Hb].
    cbn [json_scan.indent_loop].
    assert (E : json_scan.indent_byte "" "  " st c =
                json_scan.mkIndent
                  (json_scan.mkScanner json_scan.fn_BeginValue
                     (json_scan.endTop (json_scan.scan st))
                     (json_scan.parseState (json_scan.scan st))
                     (json_scan.err (json_scan.scan st))
                     (json_scan.bytes (json_scan.scan st) + 1))
                  (json_scan.needIndent st) (json_scan.depth st)
                  (json_scan.dst st) false).
    { destruct st as [[stp et ps er by_] ni d o s]. simpl in *. subst.
      unfold json_scan.indent_byte, json_scan.scan_step. simpl.
      unfold json_scan.stateBeginValue. rewrite Hc. reflexivity. }
    rewrite E. rewrite IH; try assumption; try reflexivity.
    simpl. f_equal. f_equal. rewrite Zpos_P_of_succ_nat. lia.
Qed.

(** [prettyPrint] rejects an input that is empty or made of white space. *)
Lemma prettyPrint_blank : forall b,
  string_forallb json_scan.isSpace b = true ->
  prettyPrint b = ("", Some (json_SyntaxError_eof (Z.of_nat (String.length b)))).
Proof.
  intros b Hb. unfold prettyPrint, json_scan.Indent.
  rewrite (indent_blank b json_scan.indent_init Hb eq_refl eq_refl).
  reflexivity.
Qed.

Lemma bind_ret : forall A B (a : A) (k : A -> IO B), bind (ret a) k = k a.
Proof. intros A B a k. unfold bind, ret. destruct (k a). reflexivity. Qed.

Lemma bind_events : forall A B (t : list Event) (a : A) (k : A -> IO B),
  bind (t, Ok a) k = ((t ++ fst (k a))%list, snd (k a)).
Proof. intros. unfold bind. destruct (k a). reflexivity. Qed.

Lemma header_bind : forall A bulk n (k : IO A),
  bind (if GoInt.add n 1 =? 1
        then emit (log_Println [AStr "buffer #"; AInt bulk]) else ret tt)
       (fun _ => k) =
  ((header bulk n ++ fst k)%list, snd k).
Proof.
  intros A bulk n [t r]. unfold header, buffer_line.
  destruct (GoInt.add n 1 =? 1); reflexivity.
Qed.

(** What [processResults] does with one outcome that has a response. *)
Lemma processResults_recv_cases : forall bulk verbose n m r,
  Response m = Some r ->
  processResults_recv bulk verbose n m =
  if verbose then
    match Body r with
    | (_, Some e) => ((header bulk n ++ [result_line m; Stderr_error e])%list, Exit 1)
    | (b, None) =>
        match prettyPrint b with
        | (_, Some e) => ((header bulk n ++ [result_line m; Stderr_error e])%list, Exit 1)
        | (pb, None) =>
            ((header bulk n ++
              [result_line m;
               log_Printf "request #%d >> response: %s" [AInt (Index m); AStr pb]])%list,
             Ok (GoInt.add n 1))
        end
    end
  else ((header bulk n ++ [result_line m])%list, Ok (GoInt.add n 1)).
Proof.
  intros bulk verbose n m r Hr. unfold processResults_recv.
  rewrite header_bind. rewrite Hr. cbn [deref]. rewrite bind_ret.
  unfold result_line, status_of. rewrite Hr.
  destruct verbose.
  - destruct (Body r) as [b [e|]]; [reflexivity|].
    destruct (prettyPrint b) as [pb [e|]]; reflexivity.
  - reflexivity.
Qed.

(** What [processErrors] does with one outcome. *)
Lemma processErrors_recv_cases : forall bulk verbose n m,
  processErrors_recv bulk verbose n m =
  match Err m with
  | Some e => ((header bulk n ++ [error_line m e])%list, Ok (GoInt.add n 1))
  | None =>
      match Response m with
      | None => (header bulk n, Panic)
      | Some r =>
          if verbose then
            match Body r with
            | (_, Some e) =>
                ((header bulk n ++ [error_status_line m; Stderr_error e])%list, Exit 1)
            | (b, None) =>
                if (0 <? String.length b)%nat
                then ((header bulk n ++ [error_status_line m; body_line m b])%list,
                      Ok (GoInt.add n 1))
                else ((header bulk n ++ [error_status_line m])%list, Ok (GoInt.add n 1))
            end
          else ((header bulk n ++ [error_status_line m])%list, Ok (GoInt.add n 1))
      end
  end.
Proof.
  intros bulk verbose n m. unfold processErrors_recv.
  rewrite header_bind. unfold error_line, error_status_line, status_of, body_line.
  destruct (Err m) as [e|]; [reflexivity|].
  destruct (Response m) as [r|]; cbn [deref].
  - rewrite bind_ret. destruct verbose; [|reflexivity].
    destruct (Body r) as [b [e|]]; [reflexivity|].
    destruct (0 <? String.length b)%nat; reflexivity.
  - cbn. rewrite app_nil_r. reflexivity.
Qed.

(** X1. The success collector always logs the status line of an outcome
    that has a response; it then carries on with its counter incremented,
    unless it prints bodies and the body cannot be read or is not
    well-formed JSON, in which case it ends the process with status 1. *)
Theorem processResults_exit_condition :
  forall bulk verbose n m r,
    Response m = Some r ->
    let res := processResults_recv bulk verbose n m in
    In (result_line m) (fst res) /\
    (snd res = Exit 1 <->
     verbose = true /\
     (snd (Body r) <> None \/ snd (prettyPrint (fst (Body r))) <> None)) /\
    (snd res <> Exit 1 -> snd res = Ok (GoInt.add n 1)).
Proof.
  intros bulk verbose n m r Hr res. unfold res.
  rewrite (processResults_recv_cases _ _ _ _ _ Hr).
  destruct verbose.
  - destruct (Body r) as [b [e|]]; cbn [fst snd].
    + split; [apply in_or_app; right; left; reflexivity|].
      split; [|congruence].
      split; [intros _; split; [reflexivity|left; discriminate]|reflexivity].
    + destruct (prettyPrint b) as [pb [e|]]; cbn [fst snd].
      * split; [apply in_or_app; right; left; reflexivity|].
        split; [|congruence].
        split; [intros _; split; [reflexivity|right; discriminate]|reflexivity].
      * split; [apply in_or_app; right; left; reflexivity|].
        split; [|reflexivity].
        split; [discriminate|]. intros [_ [H|H]]; congruence.
  - cbn [fst snd].
    split; [apply in_or_app; right; left; reflexivity|].
    split; [|reflexivity].
    split; [discriminate|]. intros [H _]; discriminate H.
Qed.

Lemma processResults_exit_condition_witness :
  snd (processResults_recv 1 true 0
         {| Index := 1; Response := Some (resp_status 204); Err := None |}) = Exit 1.
Proof.
  destruct (processResults_exit_condition 1 true 0
              {| Index := 1; Response := Some (resp_status 204); Err := None |}
              (resp_status 204) eq_refl) as [_ [H _]].
  apply H. split; [reflexivity|]. right. vm_compute. discriminate.
Defined.

(** X2. When it prints bodies, the success collector ends the process with
    status 1 on every response whose body is empty or made of white space
    (the body of a 204 answer, for one): [prettyPrint] rejects it with the
    error of an unexpected end of input, after the status line is logged. *)
Theorem processResults_exits_on_blank_body :
  forall bulk n m r b,
    Response m = Some r ->
    Body r = (b, None) ->
    string_forallb json_scan.isSpace b = true ->
    processResults_recv bulk true n m =
    ((header bulk n ++
      [result_line m;
       Stderr_error (json_SyntaxError_eof (Z.of_nat (String.length b)))])%list,
     Exit 1).
Proof.
  intros bulk n m r b Hr Hb Hblank.
  rewrite (processResults_recv_cases _ _ _ _ _ Hr), Hb.
  rewrite (prettyPrint_blank b Hblank). reflexivity.
Qed.

Lemma processResults_exits_on_blank_body_witness :
  processResults_recv 1 true 0
    {| Index := 3; Response := Some (resp_status 204); Err := None |} =
  ((header 1 0 ++
    [result_line {| Index := 3; Response := Some (resp_status 204); Err := None |};
     Stderr_error (json_SyntaxError_eof (Z.of_nat (String.length "")))])%list,
   Exit 1).
Proof.
  apply (processResults_exits_on_blank_body 1 0
           {| Index := 3; Response := Some (resp_status 204); Err := None |}
           (resp_status 204) "");
    reflexivity.
Defined.

(** X3. The error collector logs an outcome that has an error by its error
    alone, whatever response comes with it and whether or not bodies are
    printed, and carries on.  For an outcome without error it ends the
    process (status 1) only when it prints bodies and the body cannot be
    read; it prints a body as it is, without [prettyPrint], and only when
    the body is not empty. *)
Theorem processErrors_recv_outcome :
  forall bulk verbose n m,
    (forall e, Err m = Some e ->
       processErrors_recv bulk verbose n m =
       ((header bulk n ++ [error_line m e])%list, Ok (GoInt.add n 1))) /\
    (forall r, Err m = None -> Response m = Some r ->
       (snd (processErrors_recv bulk verbose n m) = Exit 1 <->
        verbose = true /\ snd (Body r) <> None) /\
       (snd (processErrors_recv bulk verbose n m) <> Exit 1 ->
        snd (processErrors_recv bulk verbose n m) = Ok (GoInt.add n 1)) /\
       (forall b, verbose = true -> Body r = (b, None) ->
          fst (processErrors_recv bulk verbose n m) =
          (header bulk n ++ error_status_line m ::
             (if String.eqb b "" then [] else [body_line m b]))%list)).
Proof.
  intros bulk verbose n m. split.
  - intros e He. rewrite processErrors_recv_cases, He. reflexivity.
  - intros r He Hr. rewrite processErrors_recv_cases, He, Hr.
    destruct verbose.
    + destruct (Body r) as [b [e|]].
      * cbn [snd]. split; [|split].
        -- split; [intros _; split; [reflexivity|discriminate]|reflexivity].
        -- congruence.
        -- intros b0 _ Hb. discriminate Hb.
      * destruct b as [|c b]; cbn [String.length Nat.ltb Nat.leb fst snd].
        -- split; [|split].
           ++ split; [discriminate|]. intros [_ H]; congruence.
           ++ reflexivity.
           ++ intros b0 _ Hb. inversion Hb; subst. reflexivity.
        -- split; [|split].
           ++ split; [discriminate|]. intros [_ H]; congruence.
           ++ reflexivity.
           ++ intros b0 _ Hb. inversion Hb; subst. reflexivity.
    + cbn [snd]. split; [|split].
      * split; [discriminate|]. intros [H _]; discriminate H.
      * reflexivity.
      * intros b H. discriminate H.
Qed.

Lemma processErrors_recv_outcome_witness :
  processErrors_recv 1 true 0
    {| Index := 2; Response := Some (resp_status 302); Err := Some redirect_limit |} =
  ((header 1 0 ++
    [error_line {| Index := 2; Response := Some (resp_status 302);
                   Err := Some redirect_limit |} redirect_limit])%list,
   Ok (GoInt.add 0 1)).
Proof.
  destruct (processErrors_recv_outcome 1 true 0
              {| Index := 2; Response := Some (resp_status 302);
                 Err := Some redirect_limit |}) as [H _].
  apply H. reflexivity.
Defined.

(** ** The collectors' logs *)

Lemma header_first : forall bulk, header bulk 0 = [buffer_line bulk].
Proof. reflexivity. Qed.

Lemma header_later : forall bulk n,
  0 < n < GoInt.max_int -> header bulk n = [].
Proof.
  intros bulk n Hn. unfold header.
  rewrite add_one_in_range by (unfold GoInt.min_int, GoInt.max_int in *; lia).
  destruct (n + 1 =? 1) eqn:E; [apply Z.eqb_eq in E; lia|reflexivity].
Qed.

(** A collector that logs one line per outcome and carries on. *)
Lemma collect_lines : forall (recv : Z -> Request -> IO Z) (line : Request -> Event)
                             (good : Request -> Prop) bulk,
  (forall n m, good m -> recv n m = ((header bulk n ++ [line m])%list, Ok (GoInt.add n 1))) ->
  forall ms n,
    Forall good ms -> 0 < n -> n + Z.of_nat (List.length ms) <= GoInt.max_int ->
    collect recv n ms = (map line ms, Ok (n + Z.of_nat (List.length ms))).
Proof.
  intros recv line good bulk Hrecv ms.
  induction ms as [|m ms IH]; intros n Hg Hn Hlen.
  - simpl. rewrite Z.add_0_r. reflexivity.
  - inversion Hg as [|? ? Hm Hms]; subst.
    cbn [collect List.length map] in *. rewrite Nat2Z.inj_succ in Hlen.
    rewrite (Hrecv n m Hm), header_later by lia.
    rewrite bind_events.
    rewrite add_one_in_range by (unfold GoInt.min_int; lia).
    rewrite IH by (assumption || lia).
    cbn [fst snd app]. rewrite Nat2Z.inj_succ. f_equal. f_equal. lia.
Qed.

Lemma collect_lines_from_zero :
  forall (recv : Z -> Request -> IO Z) (line : Request -> Event)
         (good : Request -> Prop) bulk,
  (forall n m, good m -> recv n m = ((header bulk n ++ [line m])%list, Ok (GoInt.add n 1))) ->
  forall ms,
    Forall good ms -> Z.of_nat (List.length ms) <= GoInt.max_int ->
    collect recv 0 ms =
    ((log_head bulk ms ++ map line ms)%list, Ok (Z.of_nat (List.length ms))).
Proof.
  intros recv line good bulk Hrecv [|m ms] Hg Hlen; [reflexivity|].
  inversion Hg as [|? ? Hm Hms]; subst.
  cbn [collect List.length map log_head] in *. rewrite Nat2Z.inj_succ in Hlen.
  rewrite (Hrecv 0 m Hm), header_first, bind_events.
  change (GoInt.add 0 1) with 1.
  rewrite (collect_lines recv line good bulk Hrecv ms 1) by (assumption || lia).
  cbn [fst snd app]. rewrite Nat2Z.inj_succ. f_equal. f_equal. lia.
Qed.

(** X4. A success collector that does not print bodies never stops: on
    outcomes that all have a response it logs the header of its burst
    once, before anything else, then one status line per outcome in the
    order of receipt, and has counted the outcomes. *)
Theorem processResults_logs_in_order :
  forall bulk ms,
    Forall (fun m => Response m <> None) ms ->
    Z.of_nat (List.length ms) <= GoInt.max_int ->
    processResults bulk false ms =
    ((log_head bulk ms ++ map result_line ms)%list, Ok (Z.of_nat (List.length ms))).
Proof.
  intros bulk ms Hg Hlen. unfold processResults.
  apply (collect_lines_from_zero _ result_line (fun m => Response m <> None) bulk);
    try assumption.
  intros n m Hm. destruct (Response m) as [r|] eqn:Hr; [|congruence].
  rewrite (processResults_recv_cases _ _ _ _ _ Hr). reflexivity.
Qed.

Lemma processResults_logs_in_order_witness :
  processResults 7 false
    [ {| Index := 2; Response := Some (resp_status 200); Err := None |};
      {| Index := 1; Response := Some (resp_status 201); Err := None |} ] =
  ([ buffer_line 7;
     result_line {| Index := 2; Response := Some (resp_status 200); Err := None |};
     result_line {| Index := 1; Response := Some (resp_status 201); Err := None |} ],
   Ok 2).
Proof.
  apply (processResults_logs_in_order 7
           [ {| Index := 2; Response := Some (resp_status 200); Err := None |};
             {| Index := 1; Response := Some (resp_status 201); Err := None |} ]).
  - repeat constructor; discriminate.
  - vm_compute. discriminate.
Defined.

(** X5. An error collector that does not print bodies never stops: on
    outcomes that each have an error or a response it logs the header of
    its burst once, then one line per outcome in the order of receipt (the
    error if the outcome has one, the status code otherwise). *)
Theorem processErrors_logs_in_order :
  forall bulk ms,
    Forall (fun m => Err m <> None \/ Response m <> None) ms ->
    Z.of_nat (List.length ms) <= GoInt.max_int ->
    processErrors bulk false ms =
    ((log_head bulk ms ++ map errors_line ms)%list, Ok (Z.of_nat (List.length ms))).
Proof.
  intros bulk ms Hg Hlen. unfold processErrors.
  apply (collect_lines_from_zero _ errors_line
           (fun m => Err m <> None \/ Response m <> None) bulk);
    try assumption.
  intros n m Hm. rewrite processErrors_recv_cases. unfold errors_line.
  destruct (Err m) as [e|]; [reflexivity|].
  destruct Hm as [Hm|Hm]; [congruence|].
  destruct (Response m) as [r|]; [reflexivity|congruence].
Qed.

Lemma processErrors_logs_in_order_witness :
  processErrors 7 false
    [ {| Index := 2; Response := None; Err := Some connection_refused |};
      {| Index := 1; Response := Some (resp_status 500); Err := None |} ] =
  ([ buffer_line 7;
     errors_line {| Index := 2; Response := None; Err := Some connection_refused |};
     errors_line {| Index := 1; Response := Some (resp_status 500); Err := None |} ],
   Ok 2).
Proof.
  apply (processErrors_logs_in_order 7
           [ {| Index := 2; Response := None; Err := Some connection_refused |};
             {| Index := 1; Response := Some (resp_status 500); Err := None |} ]).
  - constructor; [left; discriminate|]. constructor; [right; discriminate|].
    constructor.
  - vm_compute. discriminate.
Defined.

(** ** The steps of a burst *)

Lemma send_next_facts : forall c m p p',
  send c m p = Next p' ->
  report p' = report p /\ wg p' = wg p /\
  delivered p' = (delivered p ++ [(c, m)])%list /\
  dispatcher p' = dispatcher p /\ workers p' = workers p /\
  (results p' = None <-> results p = None) /\
  (errors p' = None <-> errors p = None) /\
  (forall x, results p' = Some x -> exists y, results p = Some y /\ col_verbose x = col_verbose y) /\
  (forall x, errors p' = Some x -> exists y, errors p = Some y /\ col_verbose x = col_verbose y).
Proof.
  intros c m p p' H. unfold send in H. destruct c.
  - destruct (results p) as [col|] eqn:Hres; [|discriminate].
    destruct (processResults_recv _ _ _ m) as [evs' [k| |code]];
      inversion H; subst; cbn [report wg delivered dispatcher workers results errors].
    repeat split; auto; try discriminate.
    + intros x Hx. inversion Hx; subst. eexists. split; reflexivity.
    + intros x Hx. eexists. split; [exact Hx|reflexivity].
  - destruct (errors p) as [col|] eqn:Herr; [|discriminate].
    destruct (processErrors_recv _ _ _ m) as [evs' [k| |code]];
      inversion H; subst; cbn [report wg delivered dispatcher workers results errors].
    repeat split; auto; try discriminate.
    + intros x Hx. eexists. split; [exact Hx|reflexivity].
    + intros x Hx. inversion Hx; subst. eexists. split; reflexivity.
Qed.

(** What a step changes. *)
Lemma step_next_facts : forall envs t p p',
  step_thread envs t p = Next p' ->
  exists op rest,
    pending t p = op :: rest /\
    report p' = report_op op (report p) /\
    wg p' = wg p + wg_delta op /\
    delivered p' = (delivered p ++ sent op)%list /\
    dispatcher p' = dispatcher (advance t rest p) /\
    workers p' = (workers (advance t rest p) ++ spawned envs op)%list.
Proof.
  intros envs t p p' H. unfold step_thread in H.
  destruct (pending t p) as [|op rest] eqn:Hp; [discriminate|].
  exists op, rest. split; [reflexivity|].
  assert (Ha : report (advance t rest p) = report p /\ wg (advance t rest p) = wg p /\
               delivered (advance t rest p) = delivered p).
  { destruct t; auto. }
  destruct Ha as [Ar [Aw Ad]].
  destruct op.
  - inversion H; subst. cbn. rewrite Ar, Aw, Ad, Z.add_0_r, !app_nil_r. auto.
  - inversion H; subst. cbn. rewrite Ar, Aw, Ad, Z.add_0_r, !app_nil_r. auto.
  - inversion H; subst. cbn. rewrite Ar, Aw, Ad, Z.add_0_r, !app_nil_r. auto.
  - destruct (send_next_facts _ _ _ _ H) as [E1 [E2 [E3 [E4 [E5 _]]]]].
    cbn [report_op wg_delta sent spawned]. rewrite E1, E2, E3, E4, E5, Ar, Aw, Ad.
    rewrite Z.add_0_r, app_nil_r. auto.
  - unfold wg_add in H. destruct (_ <? 0); [discriminate|].
    inversion H; subst. cbn. rewrite Ar, Aw, Ad, !app_nil_r. auto.
  - unfold wg_add in H. destruct (_ <? 0); [discriminate|].
    inversion H; subst. cbn. rewrite Ar, Aw, Ad, !app_nil_r. auto.
  - destruct (_ =? 0); [|discriminate]. inversion H; subst.
    cbn. rewrite Ar, Aw, Ad, Z.add_0_r, !app_nil_r. auto.
  - inversion H; subst. destruct g; cbn; rewrite Ar, Aw, Ad, Z.add_0_r, ?app_nil_r; auto.
Qed.

Lemma run_invariant : forall envs (I : Proc -> Prop),
  (forall t p p', I p -> step_thread envs t p = Next p' -> I p') ->
  forall sched p p', I p -> run_schedule envs sched p = Reached p' -> I p'.
Proof.
  intros envs I Hstep sched. induction sched as [|t sched IH]; intros p p' Hp Hrun.
  - simpl in Hrun. inversion Hrun; subst. assumption.
  - simpl in Hrun. destruct (step_thread envs t p) as [q| |evs how] eqn:Hs;
      try discriminate.
    eapply IH; [|eassumption]. eapply Hstep; eassumption.
Qed.

(** A run that ends badly does so at a step from a state it has reached. *)
Lemma run_crash_step : forall envs sched p evs how,
  run_schedule envs sched p = Crash evs how ->
  exists q t, reachable envs p q /\ step_thread envs t q = Crashed evs how.
Proof.
  intros envs sched. induction sched as [|t sched IH]; intros p evs how Hrun;
    simpl in Hrun; [discriminate|].
  destruct (step_thread envs t p) as [q| |evs' how'] eqn:Hs; try discriminate.
  - destruct (IH q evs how Hrun) as [q' [t' [[s Hr] Hc]]].
    exists q', t'. split; [|assumption].
    exists (t :: s). simpl. rewrite Hs. assumption.
  - inversion Hrun; subst. exists p, t. split; [exists []; reflexivity|assumption].
Qed.

Lemma sum_threads_weight_flat : forall envs f ts,
  Forall (Forall (fun op => spawned envs op = [])) ts ->
  sum_threads (weight envs f) ts = sum_threads f ts.
Proof.
  intros envs f ts H. induction H as [|t ts Ht _ IH]; [reflexivity|].
  simpl. rewrite IH. f_equal.
  induction Ht as [|op t Hop _ IHt]; [reflexivity|].
  simpl. unfold weight at 1. rewrite Hop. simpl. lia.
Qed.

Lemma doRequest_flat : forall envs env count reqUrl key verbose,
  Forall (fun op => spawned envs op = []) (doRequest env count reqUrl key verbose).
Proof.
  intros. unfold doRequest.
  destruct (http_DefaultClient_Do env (build_request env count reqUrl key))
    as [[r|] [e|]]; simpl;
    try destruct (status_rejected (StatusCode r)); repeat constructor.
Qed.

Lemma spawned_flat : forall envs op,
  Forall (Forall (fun op' => spawned envs op' = [])) (spawned envs op).
Proof.
  intros envs op. destruct op; try constructor.
  destruct g; simpl; repeat constructor. apply doRequest_flat.
Qed.

(** A step lowers the potential by the weight of the action taken. *)
Lemma step_potential : forall envs f t p p' op rest,
  pending t p = op :: rest ->
  dispatcher p' = dispatcher (advance t rest p) ->
  workers p' = (workers (advance t rest p) ++ spawned envs op)%list ->
  potential envs f p' = potential envs f p - f op.
Proof.
  intros envs f t p p' op rest Hp Hd Hw. unfold potential. rewrite Hd, Hw.
  rewrite sum_threads_app.
  rewrite (sum_threads_weight_flat envs f (spawned envs op) (spawned_flat envs op)).
  destruct t as [|i]; cbn [pending advance dispatcher workers] in *.
  - rewrite Hp. rewrite sum_ops_cons.
    change (weight envs f op) with (f op + sum_threads f (spawned envs op)). lia.
  - rewrite (sum_threads_update (weight envs f) i op rest _ Hp).
    change (weight envs f op) with (f op + sum_threads f (spawned envs op)). lia.
Qed.

(** ** The report of a complete burst *)

Section Counter.

Variables (sel : Report -> Z) (hit : Op -> bool).
Hypothesis sel_op : forall op r,
  sel (report_op op r) = if hit op then GoInt.add (sel r) 1 else sel r.

Let f (op : Op) : Z := indicator (hit op).

Lemma sel_op_wrap : forall op r,
  GoInt.in_range (sel r) ->
  sel (report_op op r) = GoInt.wrap (sel r + f op) /\
  GoInt.in_range (sel (report_op op r)).
Proof.
  intros op r Hr. rewrite sel_op. unfold f, indicator. destruct (hit op).
  - split; [reflexivity|apply wrap_range].
  - rewrite Z.add_0_r, wrap_in_range by assumption. auto.
Qed.

Lemma report_after_counter : forall ops r,
  GoInt.in_range (sel r) ->
  sel (report_after ops r) = GoInt.wrap (sel r + sum_ops f ops).
Proof.
  unfold report_after. induction ops as [|op ops IH]; intros r Hr.
  - simpl. rewrite Z.add_0_r, wrap_in_range by assumption. reflexivity.
  - cbn [fold_left]. destruct (sel_op_wrap op r Hr) as [E Hr'].
    rewrite IH by assumption. rewrite E, wrap_add_l, sum_ops_cons.
    f_equal. lia.
Qed.

Lemma counter_step : forall envs C t p p',
  GoInt.in_range (sel (report p)) /\
  GoInt.wrap (sel (report p) + potential envs f p) = GoInt.wrap C ->
  step_thread envs t p = Next p' ->
  GoInt.in_range (sel (report p')) /\
  GoInt.wrap (sel (report p') + potential envs f p') = GoInt.wrap C.
Proof.
  intros envs C t p p' [Hr Hc] Hstep.
  destruct (step_next_facts _ _ _ _ Hstep) as [op [rest [Hp [Er [_ [_ [Ed Ew]]]]]]].
  rewrite (step_potential envs f t p p' op rest Hp Ed Ew). rewrite Er.
  destruct (sel_op_wrap op (report p) Hr) as [E Hr'].
  split; [assumption|]. rewrite E, wrap_add_l, <- Hc. f_equal. lia.
Qed.

End Counter.

Lemma sum_ops_app : forall f a b, sum_ops f (a ++ b) = sum_ops f a + sum_ops f b.
Proof.
  intros f a b. induction a as [|x a IH]; [reflexivity|].
  change ((x :: a) ++ b)%list with (x :: (a ++ b))%list.
  rewrite !sum_ops_cons, IH. lia.
Qed.

Lemma sum_ops_concat : forall f ts, sum_ops f (List.concat ts) = sum_threads f ts.
Proof.
  intros f ts. induction ts as [|t ts IH]; [reflexivity|].
  cbn [List.concat sum_threads fold_right]. rewrite sum_ops_app, IH. reflexivity.
Qed.

(** The potential of the tick about to start is the weight of its
    workers, for a weight that the dispatcher's own actions do not have. *)
Lemma tick_body_potential : forall envs f count url key rqs verbose,
  f (WgAdd 1) = 0 -> (forall g, f (Go g) = 0) -> f WgWait = 0 ->
  sum_ops (weight envs f) (tick_body count url key rqs verbose) =
  sum_threads f (burst_workers envs url key rqs verbose).
Proof.
  intros envs f count url key rqs verbose Ha Hg Hw.
  unfold tick_body, burst_workers.
  induction (indices rqs) as [|idx l IH].
  - simpl. unfold weight. simpl. rewrite !Hg, Hw. reflexivity.
  - cbn [flat_map app map sum_threads fold_right]. rewrite !sum_ops_cons, IH.
    unfold weight at 1 2. cbn [spawned sum_threads fold_right].
    rewrite Ha, Hg. unfold sum_threads. lia.
Qed.

Lemma indices_max : forall rqs, indices rqs = indices (Z.max 0 rqs).
Proof.
  intro rqs. unfold indices. f_equal. f_equal.
  destruct rqs; reflexivity.
Qed.

Lemma burst_start_max : forall r count url key rqs verbose,
  burst_start r count url key rqs verbose =
  burst_start r count url key (Z.max 0 rqs) verbose.
Proof.
  intros. unfold burst_start, tick_body. rewrite <- indices_max. reflexivity.
Qed.

(** When the burst is complete every worker was started and is at its
    end. *)
Lemma complete_workers_done : forall envs sched r count url key rqs verbose p,
  GoInt.in_range (TotalRequests r) ->
  run_schedule envs sched (burst_start r count url key rqs verbose) = Reached p ->
  burst_complete p ->
  Forall (fun t => t = []) (workers p) /\
  Z.of_nat (List.length (workers p)) = Z.max 0 rqs.
Proof.
  intros envs sched r count url key rqs verbose p Hr Hrun Hdone.
  rewrite burst_start_max in Hrun.
  assert (Hinv : burst_inv (TotalRequests r + Z.max 0 rqs) (Z.max 0 rqs) p).
  { eapply run_schedule_inv; [|eassumption]. apply burst_start_inv; [lia|assumption]. }
  destruct Hinv as [_ _ _ Hst _ _ Hc]. unfold burst_complete in Hdone.
  split; [auto|]. rewrite Hdone in Hst. simpl in Hst. lia.
Qed.

Lemma potential_complete : forall envs f p,
  dispatcher p = [] -> Forall (fun t => t = []) (workers p) ->
  potential envs f p = 0.
Proof.
  intros envs f p Hd Hw. unfold potential. rewrite Hd.
  rewrite (sum_threads_all_nil _ _ Hw). reflexivity.
Qed.

(** The value of one counter when the burst is complete. *)
Lemma complete_counter : forall (sel : Report -> Z) (hit : Op -> bool),
  (forall op r, sel (report_op op r) = if hit op then GoInt.add (sel r) 1 else sel r) ->
  hit (WgAdd 1) = false -> (forall g, hit (Go g) = false) -> hit WgWait = false ->
  forall envs sched r count url key rqs verbose p,
    GoInt.in_range (TotalRequests r) -> GoInt.in_range (sel r) ->
    run_schedule envs sched (burst_start r count url key rqs verbose) = Reached p ->
    burst_complete p ->
    sel (report p) =
    sel (report_after (List.concat (burst_workers envs url key rqs verbose)) r).
Proof.
  intros sel hit Hsel Ha Hg Hw envs sched r count url key rqs verbose p Hr Hs Hrun Hdone.
  set (f := fun op => indicator (hit op)).
  set (C := sel r + sum_threads f (burst_workers envs url key rqs verbose)).
  assert (Hinv : GoInt.in_range (sel (report p)) /\
                 GoInt.wrap (sel (report p) + potential envs f p) = GoInt.wrap C).
  { apply (run_invariant envs
             (fun q => GoInt.in_range (sel (report q)) /\
                       GoInt.wrap (sel (report q) + potential envs f q) = GoInt.wrap C))
      with (sched := sched) (p := burst_start r count url key rqs verbose);
      [|split; [exact Hs|]|exact Hrun].
    - intros t q q'. apply (counter_step sel hit Hsel).
    - unfold potential, C. cbn [burst_start dispatcher workers report].
      rewrite (tick_body_potential envs f count url key rqs verbose);
        [ | unfold f; rewrite Ha; reflexivity
          | intro g; unfold f; rewrite Hg; reflexivity
          | unfold f; rewrite Hw; reflexivity ].
      cbn [sum_threads fold_right]. f_equal. lia. }
  destruct Hinv as [Hrg Hc].
  destruct (complete_workers_done _ _ _ _ _ _ _ _ _ Hr Hrun Hdone) as [Hall _].
  rewrite (potential_complete envs f p Hdone Hall), Z.add_0_r in Hc.
  rewrite (wrap_in_range _ Hrg) in Hc. rewrite Hc.
  rewrite (report_after_counter sel hit Hsel) by assumption.
  rewrite sum_ops_concat. reflexivity.
Qed.

(** X6. The report of a complete burst does not depend on how its
    goroutines interleaved: it is the report the workers would leave if
    they ran one after the other (each increment being atomic). *)
Theorem burst_report_independent_of_schedule :
  forall envs sched r count url key rqs verbose p,
    GoInt.in_range (TotalRequests r) ->
    GoInt.in_range (TotalSuccess r) ->
    GoInt.in_range (TotalFail r) ->
    run_schedule envs sched (burst_start r count url key rqs verbose) = Reached p ->
    burst_complete p ->
    report p = report_after (List.concat (burst_workers envs url key rqs verbose)) r.
Proof.
  intros envs sched r count url key rqs verbose p Hr Hs Hf Hrun Hdone.
  assert (E1 : TotalRequests (report p) =
               TotalRequests (report_after (List.concat (burst_workers envs url key rqs verbose)) r)).
  { apply (complete_counter TotalRequests is_IncTotalRequests)
      with (sched := sched) (count := count); auto.
    intros op r0. destruct op; reflexivity. }
  assert (E2 : TotalSuccess (report p) =
               TotalSuccess (report_after (List.concat (burst_workers envs url key rqs verbose)) r)).
  { apply (complete_counter TotalSuccess is_IncTotalSuccess)
      with (sched := sched) (count := count); auto.
    intros op r0. destruct op; reflexivity. }
  assert (E3 : TotalFail (report p) =
               TotalFail (report_after (List.concat (burst_workers envs url key rqs verbose)) r)).
  { apply (complete_counter TotalFail is_IncTotalFail)
      with (sched := sched) (count := count); auto.
    intros op r0. destruct op; reflexivity. }
  destruct (report p) as [a b c], (report_after _ r) as [a' b' c'].
  simpl in *. congruence.
Qed.

Lemma burst_report_independent_of_schedule_witness :
  report example_burst_end =
  report_after (List.concat (burst_workers example_envs "u" "k" 2 false)) zero_report.
Proof.
  apply (burst_report_independent_of_schedule example_envs (sequential_schedule 2 4)
           zero_report 1 "u" "k" 2 false example_burst_end);
    try (vm_compute; split; discriminate); vm_compute; reflexivity.
Defined.

(** ** The outcomes of a complete burst *)

Lemma outcome_eq_dec : forall x y : Chan * Request, {x = y} + {x <> y}.
Proof.
  repeat decide equality; try apply string_dec; try apply Z.eq_dec;
    try apply ascii_dec.
Qed.

Lemma sent_published : forall x ops,
  sum_ops (fun op => Z.of_nat (count_occ outcome_eq_dec (sent op) x)) ops =
  Z.of_nat (count_occ outcome_eq_dec (published ops) x).
Proof.
  intros x ops. induction ops as [|op ops IH]; [reflexivity|].
  rewrite sum_ops_cons, IH.
  destruct op; cbn [sent published]; try (simpl; lia).
  change ((c, m) :: published ops) with ([(c, m)] ++ published ops)%list.
  rewrite count_occ_app, Nat2Z.inj_add. reflexivity.
Qed.

Lemma sent_published_threads : forall x ts,
  sum_threads (fun op => Z.of_nat (count_occ outcome_eq_dec (sent op) x)) ts =
  Z.of_nat (count_occ outcome_eq_dec (List.concat (map published ts)) x).
Proof.
  intros x ts. induction ts as [|t ts IH]; [reflexivity|].
  cbn [sum_threads fold_right map List.concat].
  rewrite count_occ_app, Nat2Z.inj_add, <- IH, sent_published. reflexivity.
Qed.

(** X7. No outcome is lost or duplicated: when [wg.Wait()] returns, the
    collectors have received exactly the outcomes the workers of the burst
    have published, each one once. *)
Theorem burst_delivers_every_outcome :
  forall envs sched r count url key rqs verbose p,
    GoInt.in_range (TotalRequests r) ->
    run_schedule envs sched (burst_start r count url key rqs verbose) = Reached p ->
    burst_complete p ->
    Permutation (delivered p)
                (List.concat (map published (burst_workers envs url key rqs verbose))).
Proof.
  intros envs sched r count url key rqs verbose p Hr Hrun Hdone.
  apply (Permutation_count_occ outcome_eq_dec). intro x.
  set (f := fun op => Z.of_nat (count_occ outcome_eq_dec (sent op) x)).
  set (C := sum_threads f (burst_workers envs url key rqs verbose)).
  assert (Hinv : Z.of_nat (count_occ outcome_eq_dec (delivered p) x)
                 + potential envs f p = C).
  { apply (run_invariant envs
             (fun q => Z.of_nat (count_occ outcome_eq_dec (delivered q) x)
                       + potential envs f q = C))
      with (sched := sched) (p := burst_start r count url key rqs verbose);
      [| |exact Hrun].
    - intros t q q' Hq Hstep.
      destruct (step_next_facts _ _ _ _ Hstep) as [op [rest [Hp [_ [_ [Edel [Ed Ew]]]]]]].
      rewrite (step_potential envs f t q q' op rest Hp Ed Ew), Edel.
      rewrite count_occ_app, Nat2Z.inj_add. unfold f at 2. lia.
    - unfold potential, C. cbn [burst_start dispatcher workers delivered].
      rewrite (tick_body_potential envs f count url key rqs verbose);
        try reflexivity.
      cbn [sum_threads fold_right count_occ]. lia. }
  destruct (complete_workers_done _ _ _ _ _ _ _ _ _ Hr Hrun Hdone) as [Hall _].
  rewrite (potential_complete envs f p Hdone Hall), Z.add_0_r in Hinv.
  unfold C, f in Hinv. rewrite sent_published_threads in Hinv.
  apply Nat2Z.inj. exact Hinv.
Qed.

Lemma burst_delivers_every_outcome_witness :
  Permutation (delivered example_burst_end)
              (List.concat (map published (burst_workers example_envs "u" "k" 2 false))).
Proof.
  apply (burst_delivers_every_outcome example_envs (sequential_schedule 2 4)
           zero_report 1 "u" "k" 2 false example_burst_end).
  - vm_compute. split; discriminate.
  - vm_compute. reflexivity.
  - vm_compute. reflexivity.
Defined.

(** ** The dispatcher's tick and its collectors *)

Lemma launch_tail_collectors : forall count verbose t,
  launch_tail count verbose t ->
  In (Go (go_processResults count verbose)) t /\
  In (Go (go_processErrors count verbose)) t.
Proof.
  intros count verbose t H. induction H as [|idx url key v t _ [IH1 IH2]].
  - simpl. auto.
  - split; right; right; assumption.
Qed.

Lemma launch_tail_owed_done : forall count verbose t,
  launch_tail count verbose t -> sum_ops owed_done t = 0.
Proof.
  intros count verbose t H. induction H as [|idx url key v t _ IH].
  - reflexivity.
  - rewrite !sum_ops_cons, IH. reflexivity.
Qed.

Lemma tick_tail_owed_done : forall count verbose t,
  tick_tail count verbose t -> 0 <= sum_ops owed_done t.
Proof.
  intros count verbose t H. destruct H as [t H|idx url key v t H| | |].
  - rewrite (launch_tail_owed_done _ _ _ H). lia.
  - rewrite sum_ops_cons, (launch_tail_owed_done _ _ _ H). simpl. lia.
  - simpl. lia.
  - simpl. lia.
  - simpl. lia.
Qed.

Lemma tick_body_launch : forall count url key rqs verbose,
  launch_tail count verbose (tick_body count url key rqs verbose).
Proof.
  intros. unfold tick_body. induction (indices rqs) as [|idx l IH].
  - constructor.
  - cbn [flat_map app]. constructor. exact IH.
Qed.

Lemma tick_inv_start : forall r count url key rqs verbose,
  tick_inv count verbose (burst_start r count url key rqs verbose).
Proof.
  intros. pose proof (tick_body_launch count url key rqs verbose) as Hl.
  destruct (launch_tail_collectors _ _ _ Hl) as [H1 H2].
  constructor; cbn [burst_start dispatcher results errors]; auto;
    try discriminate.
  constructor. exact Hl.
Qed.

Lemma workers_owed_nonneg : forall ws,
  Forall worker_tail ws -> 0 <= sum_threads owed_done ws.
Proof.
  intros ws H. induction H as [|w ws Hw _ IH]; simpl; [lia|].
  rewrite (worker_tail_owed_done _ Hw). destruct w; lia.
Qed.

Lemma workers_owed_pending : forall ws i op rest,
  Forall worker_tail ws -> nth i ws [] = op :: rest ->
  1 <= sum_threads owed_done ws.
Proof.
  intros ws i op rest H. revert i.
  induction H as [|w ws Hw Hws IH]; intros [|i] Hn; simpl in Hn; try discriminate.
  - subst w. cbn [sum_threads fold_right].
    rewrite (worker_tail_owed_done _ Hw).
    pose proof (workers_owed_nonneg ws Hws). unfold sum_threads in *. lia.
  - cbn [sum_threads fold_right]. specialize (IH i Hn).
    rewrite (worker_tail_owed_done _ Hw). unfold sum_threads in *.
    destruct w; lia.
Qed.

Lemma workers_owed_some : forall ws,
  Forall worker_tail ws -> sum_threads owed_done ws <> 0 ->
  exists i op rest, nth i ws [] = op :: rest.
Proof.
  intros ws H. induction H as [|w ws Hw Hws IH]; intros Hs; [simpl in Hs; lia|].
  destruct w as [|op rest].
  - cbn [sum_threads fold_right] in Hs. simpl sum_ops in Hs.
    destruct IH as [i [op [rest E]]]; [unfold sum_threads; lia|].
    exists (S i), op, rest. exact E.
  - exists O, op, rest. reflexivity.
Qed.

(** A step keeps the tick and its collectors in order. *)
Ltac tick_field :=
  first
    [ solve [auto]
    | solve [constructor; auto]
    | solve [intros; discriminate]
    | solve [intros _; simpl; auto 6]
    | solve [intros c Hc; inversion Hc; subst; reflexivity] ].

Lemma tick_step : forall envs target n count verbose t p p',
  burst_inv target n p -> tick_inv count verbose p ->
  step_thread envs t p = Next p' ->
  tick_inv count verbose p'.
Proof.
  intros envs target n count verbose t p p' Hb [Hs Hrd Hed Hrv Hev] Hstep.
  unfold step_thread in Hstep. destruct t as [|i]; cbn [pending] in Hstep.
  - (* the dispatcher *)
    destruct p as [rep w res errs del evs disp wks].
    cbn [report wg results errors delivered events dispatcher workers advance] in *.
    inversion Hs as [t Hl E|idx url key v t Hl E|E|E|E]; subst disp.
    + inversion Hl as [E|idx url key v t' Hl' E]; subst t.
      * inversion Hstep; subst p'.
        constructor; cbn [spawn dispatcher results errors]; tick_field.
      * unfold wg_add in Hstep. cbn [wg events] in Hstep.
        destruct (_ <? 0); [discriminate|]. inversion Hstep; subst p'.
        destruct (launch_tail_collectors _ _ _ Hl') as [H1 H2].
        constructor; cbn [dispatcher results errors]; tick_field.
    + inversion Hstep; subst p'.
      destruct (launch_tail_collectors _ _ _ Hl) as [H1 H2].
      constructor; cbn [spawn dispatcher results errors]; tick_field.
    + inversion Hstep; subst p'.
      constructor; cbn [spawn dispatcher results errors];
        first [tick_field|idtac].
      intros Hres. destruct (Hrd Hres) as [H|[H|[]]]; discriminate H.
    + cbn [wg] in Hstep. destruct (_ =? 0); [|discriminate].
      inversion Hstep; subst p'.
      constructor; cbn [dispatcher results errors]; first [tick_field|idtac].
      * intros Hres. destruct (Hrd Hres) as [H|[]]; discriminate H.
      * intros Herr. destruct (Hed Herr) as [H|[]]; discriminate H.
    + discriminate.
  - (* a worker *)
    destruct (nth i (workers p) []) as [|op rest] eqn:Hnth; [discriminate|].
    assert (Htail : worker_tail (op :: rest)).
    { rewrite <- Hnth. apply Forall_nth_default;
        [exact (inv_workers _ _ _ Hb)|constructor]. }
    destruct p as [rep w res errs del evs disp wks].
    cbn [report wg results errors delivered events dispatcher workers advance] in *.
    inversion Htail; subst.
    + unfold wg_add in Hstep. cbn [wg events] in Hstep.
      destruct (_ <? 0); [discriminate|]. inversion Hstep; subst p'.
      constructor; cbn [dispatcher results errors]; auto.
    + inversion Hstep; subst p'. constructor; cbn [dispatcher results errors]; auto.
    + inversion Hstep; subst p'. constructor; cbn [dispatcher results errors]; auto.
    + inversion Hstep; subst p'. constructor; cbn [dispatcher results errors]; auto.
    + destruct (send_next_facts _ _ _ _ Hstep)
        as [_ [_ [_ [Ed [_ [Nr [Ne [Vr Ve]]]]]]]].
      cbn [dispatcher results errors] in *.
      constructor; rewrite ?Ed; auto.
      * intros H. apply Hrd. apply Nr. exact H.
      * intros H. apply Hed. apply Ne. exact H.
      * intros x Hx. destruct (Vr x Hx) as [y [Hy E]]. rewrite E. auto.
      * intros x Hx. destruct (Ve x Hx) as [y [Hy E]]. rewrite E. auto.
Qed.

(** What holds in every state of a burst. *)
Lemma reachable_inv : forall envs r count url key rqs verbose p,
  GoInt.in_range (TotalRequests r) ->
  reachable envs (burst_start r count url key rqs verbose) p ->
  burst_inv (TotalRequests r + Z.max 0 rqs) (Z.max 0 rqs) p /\
  tick_inv count verbose p /\ sends_loggable p.
Proof.
  intros envs r count url key rqs verbose p Hr [sched Hrun].
  apply (run_invariant envs
           (fun q => burst_inv (TotalRequests r + Z.max 0 rqs) (Z.max 0 rqs) q /\
                     tick_inv count verbose q /\ sends_loggable q))
    with (sched := sched) (p := burst_start r count url key rqs verbose);
    [| |exact Hrun].
  - intros t q q' [Hb [Ht Hl]] Hstep. split; [|split].
    + eapply step_inv; eassumption.
    + eapply tick_step; eassumption.
    + eapply step_loggable; eassumption.
  - split; [|split].
    + rewrite burst_start_max. apply burst_start_inv; [lia|assumption].
    + apply tick_inv_start.
    + apply burst_start_loggable.
Qed.

Lemma wg_nonneg : forall target n count verbose p,
  burst_inv target n p -> tick_inv count verbose p ->
  sum_threads owed_done (workers p) <= wg p.
Proof.
  intros target n count verbose p Hb Ht.
  rewrite (inv_wg _ _ _ Hb).
  pose proof (tick_tail_owed_done _ _ _ (tick_shape _ _ _ Ht)). lia.
Qed.

Lemma processResults_recv_exit : forall bulk verbose n m code,
  snd (processResults_recv bulk verbose n m) = Exit code ->
  code = 1 /\ verbose = true.
Proof.
  intros bulk verbose n m code H.
  destruct (Response m) as [r|] eqn:Hr.
  - rewrite (processResults_recv_cases _ _ _ _ _ Hr) in H.
    destruct verbose; [|discriminate].
    destruct (Body r) as [b [e|]]; [inversion H; auto|].
    destruct (prettyPrint b) as [pb [e|]]; inversion H; auto.
  - unfold processResults_recv in H. rewrite header_bind, Hr in H.
    discriminate H.
Qed.

Lemma processErrors_recv_exit : forall bulk verbose n m code,
  snd (processErrors_recv bulk verbose n m) = Exit code ->
  code = 1 /\ verbose = true.
Proof.
  intros bulk verbose n m code H. rewrite processErrors_recv_cases in H.
  destruct (Err m) as [e|]; [discriminate|].
  destruct (Response m) as [r|]; [|discriminate].
  destruct verbose; [|discriminate].
  destruct (Body r) as [b [e|]]; [inversion H; auto|].
  destruct (0 <? String.length b)%nat; discriminate.
Qed.

(** The only way a step brings the process down. *)
Lemma step_crash_cause : forall envs target n count verbose t p evs how,
  burst_inv target n p -> tick_inv count verbose p -> sends_loggable p ->
  step_thread envs t p = Crashed evs how ->
  how = OsExit 1 /\ verbose = true.
Proof.
  intros envs target n count verbose t p evs how Hb Ht Hl Hstep.
  pose proof (wg_nonneg _ _ _ _ _ Hb Ht) as Hwg.
  pose proof (workers_owed_nonneg _ (inv_workers _ _ _ Hb)) as Hw0.
  pose proof (pending_loggable t p Hl) as Hpend.
  unfold step_thread in Hstep.
  destruct (pending t p) as [|op rest] eqn:Hp; [discriminate|].
  assert (Aw : wg (advance t rest p) = wg p) by (destruct t; reflexivity).
  assert (Ar : results (advance t rest p) = results p) by (destruct t; reflexivity).
  assert (Ae : errors (advance t rest p) = errors p) by (destruct t; reflexivity).
  destruct op; try discriminate.
  - (* a send *)
    inversion Hpend as [|? ? Hm _]; subst.
    unfold send in Hstep. rewrite Ar, Ae in Hstep. destruct c.
    + destruct (results p) as [col|] eqn:Hres; [|discriminate].
      destruct (processResults_recv (col_bulk col) (col_verbose col) (col_count col) m)
        as [evs' [k| |code]] eqn:Hrecv; try discriminate.
      * exfalso. apply (send_no_nil resultC m p evs Hm).
        unfold send. rewrite Hres, Hrecv. inversion Hstep; subst.
        f_equal. destruct t; reflexivity.
      * inversion Hstep; subst.
        destruct (processResults_recv_exit _ _ _ _ code
                    ltac:(rewrite Hrecv; reflexivity)) as [Hc Hv].
        subst code. split; [reflexivity|].
        rewrite <- (tick_results_verbose _ _ _ Ht col Hres). exact Hv.
    + destruct (errors p) as [col|] eqn:Herr; [|discriminate].
      destruct (processErrors_recv (col_bulk col) (col_verbose col) (col_count col) m)
        as [evs' [k| |code]] eqn:Hrecv; try discriminate.
      * exfalso. apply (send_no_nil errorC m p evs Hm).
        unfold send. rewrite Herr, Hrecv. inversion Hstep; subst.
        f_equal. destruct t; reflexivity.
      * inversion Hstep; subst.
        destruct (processErrors_recv_exit _ _ _ _ code
                    ltac:(rewrite Hrecv; reflexivity)) as [Hc Hv].
        subst code. split; [reflexivity|].
        rewrite <- (tick_errors_verbose _ _ _ Ht col Herr). exact Hv.
  - (* wg.Add *)
    exfalso. unfold wg_add in Hstep. rewrite Aw in Hstep.
    destruct (wg p + delta <? 0) eqn:Hneg; [|discriminate].
    apply Z.ltb_lt in Hneg.
    destruct t as [|i]; cbn [pending] in Hp.
    + pose proof (tick_shape _ _ _ Ht) as Hs. rewrite Hp in Hs.
      inversion Hs as [t Hlt E|idx url key v t Hlt E|E|E|E]; subst.
      inversion Hlt; subst. lia.
    + assert (Htail : worker_tail (WgAdd delta :: rest)).
      { rewrite <- Hp. apply Forall_nth_default;
          [exact (inv_workers _ _ _ Hb)|constructor]. }
      inversion Htail.
  - (* wg.Done *)
    exfalso. unfold wg_add in Hstep. rewrite Aw in Hstep.
    destruct (wg p + -1 <? 0) eqn:Hneg; [|discriminate].
    apply Z.ltb_lt in Hneg.
    destruct t as [|i]; cbn [pending] in Hp.
    + pose proof (tick_shape _ _ _ Ht) as Hs. rewrite Hp in Hs.
      inversion Hs as [t Hlt E|idx url key v t Hlt E|E|E|E]; subst.
      inversion Hlt.
    + pose proof (workers_owed_pending _ _ _ _ (inv_workers _ _ _ Hb) Hp). lia.
  - (* wg.Wait *)
    destruct (_ =? 0); discriminate.
Qed.

(** X8. Whatever the schedule, the servers and the number of requests, a
    burst is only ever brought down by [os.Exit(1)] of a collector that
    prints bodies ([verbose]): the wait group never goes negative, and no
    collector dereferences a nil response. *)
Theorem burst_crash_cause :
  forall envs sched r count url key rqs verbose evs how,
    GoInt.in_range (TotalRequests r) ->
    run_schedule envs sched (burst_start r count url key rqs verbose)
      = Crash evs how ->
    how = OsExit 1 /\ verbose = true.
Proof.
  intros envs sched r count url key rqs verbose evs how Hr Hrun.
  destruct (run_crash_step _ _ _ _ _ Hrun) as [q [t [Hq Hstep]]].
  destruct (reachable_inv _ _ _ _ _ _ _ _ Hr Hq) as [Hb [Ht Hl]].
  eapply step_crash_cause; eassumption.
Qed.

Lemma burst_crash_cause_witness :
  match run_schedule example_envs (sequential_schedule 2 4)
                     (burst_start zero_report 1 "u" "k" 2 true) with
  | Crash _ how => how = OsExit 1 /\ true = true
  | _ => False
  end.
Proof.
  destruct (run_schedule example_envs (sequential_schedule 2 4)
              (burst_start zero_report 1 "u" "k" 2 true)) as [p|p|evs how] eqn:E.
  - vm_compute in E. discriminate E.
  - vm_compute in E. discriminate E.
  - apply (burst_crash_cause example_envs (sequential_schedule 2 4)
             zero_report 1 "u" "k" 2 true evs how).
    + vm_compute. split; discriminate.
    + exact E.
Defined.

(** X9. Provided every HTTP call returns, a burst never deadlocks.  (A
    worker is modelled from the return of [http.DefaultClient.Do] on; the
    client has no timeout, and a call that never returns keeps its worker,
    and with it [wg.Wait()], waiting for ever.)  In every state that a
    schedule can reach and in which [wg.Wait()] has not returned, either
    the dispatcher can move, or it is in [wg.Wait()] and some worker has
    not finished; and once it is in [wg.Wait()] every worker that has not
    finished can take its next step, a send finding its collector started.
    When bodies are not printed every such step succeeds. *)
Theorem burst_never_deadlocks :
  forall envs r count url key rqs verbose p,
    GoInt.in_range (TotalRequests r) ->
    reachable envs (burst_start r count url key rqs verbose) p ->
    ~ burst_complete p ->
    (step_thread envs Dispatcher p <> Blocked \/
     dispatcher p = [WgWait] /\ exists i, nth i (workers p) [] <> []) /\
    (dispatcher p = [WgWait] ->
     forall i, nth i (workers p) [] <> [] ->
               step_thread envs (Worker i) p <> Blocked) /\
    (verbose = false ->
     forall t, step_thread envs t p <> Blocked ->
               exists p', step_thread envs t p = Next p').
Proof.
  intros envs r count url key rqs verbose p Hr Hreach Hnot.
  destruct (reachable_inv _ _ _ _ _ _ _ _ Hr Hreach) as [Hb [Ht Hl]].
  pose proof (tick_shape _ _ _ Ht) as Hs.
  unfold burst_complete in Hnot.
  split; [|split].
  - assert (Hd : (exists op rest, dispatcher p = op :: rest /\ op <> WgWait)
                 \/ dispatcher p = [WgWait]).
    { inversion Hs as [t Hlt E|idx u k v t Hlt E|E|E|E].
      - left. inversion Hlt; subst; do 2 eexists; split;
          try reflexivity; discriminate.
      - left. do 2 eexists. split; [reflexivity|discriminate].
      - left. do 2 eexists. split; [reflexivity|discriminate].
      - right. reflexivity.
      - congruence. }
    destruct Hd as [[op [rest [Hd Hop]]]|Hd].
    + left. unfold step_thread. cbn [pending]. rewrite Hd.
      destruct op; try discriminate.
      * exfalso. rewrite Hd in Hs.
        inversion Hs as [t Hlt E|idx u k v t Hlt E|E|E|E]; subst.
        inversion Hlt.
      * unfold wg_add. destruct (_ <? 0); discriminate.
      * unfold wg_add. destruct (_ <? 0); discriminate.
      * congruence.
    + destruct (wg p =? 0) eqn:Hz.
      * left. unfold step_thread. cbn [pending]. rewrite Hd.
        cbn [advance wg]. destruct p as [rep w res errs del evs0 disp wks];
          cbn [wg] in *. rewrite Hz. discriminate.
      * right. split; [exact Hd|].
        apply Z.eqb_neq in Hz. rewrite (inv_wg _ _ _ Hb), Hd in Hz.
        destruct (workers_owed_some _ (inv_workers _ _ _ Hb))
          as [i [op [rest Hn]]]; [simpl in Hz; lia|].
        exists i. rewrite Hn. discriminate.
  - intros Hd i Hi.
    destruct (nth i (workers p) []) as [|op rest] eqn:Hn; [congruence|].
    assert (Htail : worker_tail (op :: rest)).
    { rewrite <- Hn. apply Forall_nth_default;
        [exact (inv_workers _ _ _ Hb)|constructor]. }
    unfold step_thread. cbn [pending]. rewrite Hn.
    inversion Htail; subst; try discriminate.
    + unfold wg_add. destruct (_ <? 0); discriminate.
    + unfold send.
      match goal with |- context [match ?c with resultC => _ | errorC => _ end] =>
        destruct c end.
      * destruct (results p) as [col|] eqn:Hres.
        -- destruct p as [rep w res errs del evs0 disp wks];
             cbn [advance results] in *. rewrite Hres.
           destruct (processResults_recv _ _ _ _) as [e [k| |code]]; discriminate.
        -- exfalso. pose proof (tick_results_due _ _ _ Ht Hres) as Hin.
           rewrite Hd in Hin. destruct Hin as [H|[]]; discriminate H.
      * destruct (errors p) as [col|] eqn:Herr.
        -- destruct p as [rep w res errs del evs0 disp wks];
             cbn [advance errors] in *. rewrite Herr.
           destruct (processErrors_recv _ _ _ _) as [e [k| |code]]; discriminate.
        -- exfalso. pose proof (tick_errors_due _ _ _ Ht Herr) as Hin.
           rewrite Hd in Hin. destruct Hin as [H|[]]; discriminate H.
  - intros Hv t Hmove.
    destruct (step_thread envs t p) as [p'| |evs how] eqn:Hstep.
    + exists p'. reflexivity.
    + congruence.
    + destruct (step_crash_cause _ _ _ _ _ _ _ _ _ Hb Ht Hl Hstep) as [_ Hv'].
      congruence.
Qed.

Lemma burst_never_deadlocks_witness :
  (step_thread example_envs Dispatcher example_burst_waiting <> Blocked \/
   dispatcher example_burst_waiting = [WgWait] /\
   exists i, nth i (workers example_burst_waiting) [] <> []) /\
  (dispatcher example_burst_waiting = [WgWait] ->
   forall i, nth i (workers example_burst_waiting) [] <> [] ->
             step_thread example_envs (Worker i) example_burst_waiting <> Blocked) /\
  (false = false ->
   forall t, step_thread example_envs t example_burst_waiting <> Blocked ->
             exists p', step_thread example_envs t example_burst_waiting = Next p').
Proof.
  apply (burst_never_deadlocks example_envs zero_report 1 "u" "k" 2 false
           example_burst_waiting).
  - vm_compute. split; discriminate.
  - exists (repeat Dispatcher 6). vm_compute. reflexivity.
  - vm_compute. discriminate.
Defined.

(** ** Counters and outcomes of one worker *)

Lemma doRequest_increments_sends : forall env count reqUrl key verbose,
  count_op is_IncTotalSuccess (doRequest env count reqUrl key verbose)
    = List.length (published_on resultC (doRequest env count reqUrl key verbose)) /\
  count_op is_IncTotalFail (doRequest env count reqUrl key verbose)
    = List.length (published_on errorC (doRequest env count reqUrl key verbose)).
Proof.
  intros. unfold doRequest.
  destruct (http_DefaultClient_Do env (build_request env count reqUrl key))
    as [[r|] [e|]]; simpl;
    try destruct (status_rejected (StatusCode r)); split; reflexivity.
Qed.

(** X10. Whatever the HTTP call returns, a worker increments
    [TotalSuccess] once for each outcome it sends on the success channel
    and [TotalFail] once for each outcome it sends on the error channel;
    every outcome carries the index of the request, and there are at most
    two of them. *)
Theorem doRequest_counts_what_it_sends :
  forall env count reqUrl key verbose,
    count_op is_IncTotalSuccess (doRequest env count reqUrl key verbose)
      = List.length (published_on resultC (doRequest env count reqUrl key verbose)) /\
    count_op is_IncTotalFail (doRequest env count reqUrl key verbose)
      = List.length (published_on errorC (doRequest env count reqUrl key verbose)) /\
    Forall (fun cm => Index (snd cm) = count)
           (published (doRequest env count reqUrl key verbose)) /\
    (List.length (published (doRequest env count reqUrl key verbose)) <= 2)%nat.
Proof.
  intros env count reqUrl key verbose.
  destruct (doRequest_increments_sends env count reqUrl key verbose) as [H1 H2].
  split; [exact H1|]. split; [exact H2|].
  unfold doRequest.
  destruct (http_DefaultClient_Do env (build_request env count reqUrl key))
    as [[r|] [e|]]; simpl;
    try destruct (status_rejected (StatusCode r)); simpl;
    split; try lia; repeat constructor.
Qed.

(** ** Counters and deliveries of a complete burst *)

(** A quantity that every step raises by the weight [f] of the action it
    runs has, when the burst is complete, grown by the weight of the
    workers. *)
Lemma complete_measure : forall envs (f : Op -> Z) (M : Proc -> Z),
  f (WgAdd 1) = 0 -> (forall g, f (Go g) = 0) -> f WgWait = 0 ->
  (forall t p p' op rest,
      pending t p = op :: rest -> step_thread envs t p = Next p' ->
      M p' = M p + f op) ->
  forall sched r count url key rqs verbose p,
    GoInt.in_range (TotalRequests r) ->
    run_schedule envs sched (burst_start r count url key rqs verbose) = Reached p ->
    burst_complete p ->
    M p = M (burst_start r count url key rqs verbose)
          + sum_threads f (burst_workers envs url key rqs verbose).
Proof.
  intros envs f M Ha Hg Hw HM sched r count url key rqs verbose p Hr Hrun Hdone.
  set (start := burst_start r count url key rqs verbose).
  set (C := M start + sum_threads f (burst_workers envs url key rqs verbose)).
  assert (Hinv : M p + potential envs f p = C).
  { apply (run_invariant envs (fun q => M q + potential envs f q = C))
      with (sched := sched) (p := start); [| |exact Hrun].
    - intros t q q' Hq Hstep.
      destruct (step_next_facts _ _ _ _ Hstep) as [op [rest [Hp [_ [_ [_ [Ed Ew]]]]]]].
      rewrite (step_potential envs f t q q' op rest Hp Ed Ew).
      rewrite (HM t q q' op rest Hp Hstep). lia.
    - unfold potential, C, start. cbn [burst_start dispatcher workers].
      rewrite (tick_body_potential envs f count url key rqs verbose) by assumption.
      cbn [sum_threads fold_right]. lia. }
  destruct (complete_workers_done _ _ _ _ _ _ _ _ _ Hr Hrun Hdone) as [Hall _].
  rewrite (potential_complete envs f p Hdone Hall) in Hinv. unfold C in Hinv. lia.
Qed.

Lemma received_app : forall c a b,
  received c (a ++ b) = (received c a ++ received c b)%list.
Proof.
  intros c a b. unfold received. rewrite filter_app, map_app. reflexivity.
Qed.

Lemma sum_ops_count : forall hit ops,
  sum_ops (fun op => indicator (hit op)) ops = Z.of_nat (count_op hit ops).
Proof.
  intros hit ops. unfold count_op. induction ops as [|op ops IH]; [reflexivity|].
  rewrite sum_ops_cons, IH. cbn [filter]. unfold indicator.
  destruct (hit op); cbn [List.length]; lia.
Qed.

Lemma sum_ops_received : forall c ops,
  sum_ops (fun op => Z.of_nat (List.length (received c (sent op)))) ops =
  Z.of_nat (List.length (published_on c ops)).
Proof.
  intros c ops. induction ops as [|op ops IH]; [reflexivity|].
  rewrite sum_ops_cons, IH. unfold published_on.
  destruct op as [| | |c' m| | | |]; cbn [sent published]; try (simpl; lia).
  destruct c', c; cbn [received filter on_chan fst snd map List.length];
    rewrite ?Nat2Z.inj_succ; lia.
Qed.

(** Over the workers of a burst, the increments of a counter are as many
    as the outcomes sent on its channel. *)
Lemma workers_increments_sends : forall envs url key rqs verbose,
  sum_threads (fun op => indicator (is_IncTotalSuccess op))
              (burst_workers envs url key rqs verbose) =
  sum_threads (fun op => Z.of_nat (List.length (received resultC (sent op))))
              (burst_workers envs url key rqs verbose) /\
  sum_threads (fun op => indicator (is_IncTotalFail op))
              (burst_workers envs url key rqs verbose) =
  sum_threads (fun op => Z.of_nat (List.length (received errorC (sent op))))
              (burst_workers envs url key rqs verbose).
Proof.
  intros. unfold burst_workers. induction (indices rqs) as [|idx l [IH1 IH2]].
  - split; reflexivity.
  - cbn [map sum_threads fold_right]. unfold sum_threads in IH1, IH2.
    rewrite IH1, IH2, !sum_ops_count, !sum_ops_received.
    destruct (doRequest_increments_sends (envs idx) idx url key verbose) as [E1 E2].
    rewrite E1, E2. split; reflexivity.
Qed.

Lemma delivered_measure : forall envs c t p p' op rest,
  pending t p = op :: rest -> step_thread envs t p = Next p' ->
  Z.of_nat (List.length (received c (delivered p'))) =
  Z.of_nat (List.length (received c (delivered p)))
  + Z.of_nat (List.length (received c (sent op))).
Proof.
  intros envs c t p p' op rest Hp Hstep.
  destruct (step_next_facts _ _ _ _ Hstep) as [op' [rest' [Hp' [_ [_ [Edel _]]]]]].
  rewrite Hp in Hp'. inversion Hp'; subst op' rest'.
  rewrite Edel, received_app, length_app, Nat2Z.inj_add. reflexivity.
Qed.

Lemma complete_counter_value : forall (sel : Report -> Z) (hit : Op -> bool),
  (forall op r, sel (report_op op r) = if hit op then GoInt.add (sel r) 1 else sel r) ->
  hit (WgAdd 1) = false -> (forall g, hit (Go g) = false) -> hit WgWait = false ->
  forall envs sched r count url key rqs verbose p,
    GoInt.in_range (TotalRequests r) -> GoInt.in_range (sel r) ->
    run_schedule envs sched (burst_start r count url key rqs verbose) = Reached p ->
    burst_complete p ->
    sel (report p) =
    GoInt.wrap (sel r + sum_threads (fun op => indicator (hit op))
                                    (burst_workers envs url key rqs verbose)).
Proof.
  intros sel hit Hsel Ha Hg Hw envs sched r count url key rqs verbose p Hr Hs Hrun Hdone.
  rewrite (complete_counter sel hit Hsel Ha Hg Hw envs sched r count url key rqs
             verbose p Hr Hs Hrun Hdone).
  rewrite (report_after_counter sel hit Hsel) by assumption.
  rewrite sum_ops_concat. reflexivity.
Qed.

(** X11. Taking each increment of a counter as atomic (the program does
    not synchronise the workers' increments, and concurrent ones can be
    lost): when [wg.Wait()] returns, [TotalSuccess] has grown by the number
    of outcomes the success collector has received in this burst, and
    [TotalFail] by the number the error collector has received (modulo the
    wrap-around of [int]), however the atomic steps of the goroutines
    interleaved. *)
Theorem burst_counters_match_deliveries :
  forall envs sched r count url key rqs verbose p,
    GoInt.in_range (TotalRequests r) ->
    GoInt.in_range (TotalSuccess r) ->
    GoInt.in_range (TotalFail r) ->
    run_schedule envs sched (burst_start r count url key rqs verbose) = Reached p ->
    burst_complete p ->
    TotalSuccess (report p) =
      GoInt.wrap (TotalSuccess r
                  + Z.of_nat (List.length (received resultC (delivered p)))) /\
    TotalFail (report p) =
      GoInt.wrap (TotalFail r
                  + Z.of_nat (List.length (received errorC (delivered p)))).
Proof.
  intros envs sched r count url key rqs verbose p Hr Hs Hf Hrun Hdone.
  destruct (workers_increments_sends envs url key rqs verbose) as [W1 W2].
  split.
  - rewrite (complete_counter_value TotalSuccess is_IncTotalSuccess)
      with (envs := envs) (sched := sched) (r := r) (count := count) (url := url)
           (key := key) (rqs := rqs) (verbose := verbose); auto;
      [|intros op r0; destruct op; reflexivity].
    rewrite W1.
    rewrite (complete_measure envs
               (fun op => Z.of_nat (List.length (received resultC (sent op))))
               (fun q => Z.of_nat (List.length (received resultC (delivered q))))
               eq_refl (fun _ => eq_refl) eq_refl (delivered_measure envs resultC)
               sched r count url key rqs verbose p Hr Hrun Hdone).
    reflexivity.
  - rewrite (complete_counter_value TotalFail is_IncTotalFail)
      with (envs := envs) (sched := sched) (r := r) (count := count) (url := url)
           (key := key) (rqs := rqs) (verbose := verbose); auto;
      [|intros op r0; destruct op; reflexivity].
    rewrite W2.
    rewrite (complete_measure envs
               (fun op => Z.of_nat (List.length (received errorC (sent op))))
               (fun q => Z.of_nat (List.length (received errorC (delivered q))))
               eq_refl (fun _ => eq_refl) eq_refl (delivered_measure envs errorC)
               sched r count url key rqs verbose p Hr Hrun Hdone).
    reflexivity.
Qed.

Lemma burst_counters_match_deliveries_witness :
  TotalSuccess (report example_burst_end) =
    GoInt.wrap (TotalSuccess zero_report
                + Z.of_nat (List.length (received resultC (delivered example_burst_end)))) /\
  TotalFail (report example_burst_end) =
    GoInt.wrap (TotalFail zero_report
                + Z.of_nat (List.length (received errorC (delivered example_burst_end)))).
Proof.
  apply (burst_counters_match_deliveries example_envs (sequential_schedule 2 4)
           zero_report 1 "u" "k" 2 false example_burst_end);
    try (vm_compute; split; discriminate); vm_compute; reflexivity.
Defined.

(** ** A burst without workers *)

Lemma indices_nonpos : forall rqs, rqs <= 0 -> indices rqs = [].
Proof.
  intros rqs H. unfold indices. destruct rqs as [|q|q]; try reflexivity. lia.
Qed.

Lemma idle_step : forall envs r count verbose t p p',
  report p = r /\ wg p = 0 /\ workers p = [] /\ delivered p = [] /\
  events p = [] /\ idle_tail count verbose (dispatcher p) ->
  step_thread envs t p = Next p' ->
  report p' = r /\ wg p' = 0 /\ workers p' = [] /\ delivered p' = [] /\
  events p' = [] /\ idle_tail count verbose (dispatcher p').
Proof.
  intros envs r count verbose t p p' [Hr [Hw [Hk [Hd [He Ht]]]]] Hstep.
  destruct p as [rep w res errs del evs disp wks].
  cbn [report wg workers delivered events dispatcher] in *. subst.
  unfold step_thread in Hstep. destruct t as [|i]; cbn [pending workers dispatcher] in Hstep.
  - unfold idle_tail in *.
    destruct Ht as [E|[E|[E|E]]]; subst disp; inversion Hstep; subst p';
      cbn [report wg workers delivered events dispatcher]; tauto.
  - destruct i; discriminate.
Qed.

Lemma idle_no_crash : forall envs count verbose t p evs how,
  wg p = 0 -> workers p = [] -> idle_tail count verbose (dispatcher p) ->
  step_thread envs t p <> Crashed evs how.
Proof.
  intros envs count verbose t p evs how Hw Hk Ht.
  destruct p as [rep w res errs del evs0 disp wks].
  cbn [wg workers dispatcher] in *. subst.
  unfold step_thread. destruct t as [|i]; cbn [pending workers dispatcher].
  - destruct Ht as [E|[E|[E|E]]]; subst disp; discriminate.
  - destruct i; discriminate.
Qed.

(** X12. A burst of a non-positive number of requests starts no worker:
    whatever the schedule it never brings the process down, it leaves the
    report as it was, delivers and logs nothing, and its [wg.Wait()]
    returns as soon as the dispatcher has started the two collectors. *)
Theorem burst_without_requests :
  forall envs r count url key rqs verbose,
    rqs <= 0 ->
    (forall sched evs how,
        run_schedule envs sched (burst_start r count url key rqs verbose)
          <> Crash evs how) /\
    (forall sched p,
        run_schedule envs sched (burst_start r count url key rqs verbose) = Reached p ->
        report p = r /\ workers p = [] /\ delivered p = [] /\ events p = []) /\
    (exists p,
        run_schedule envs [Dispatcher; Dispatcher; Dispatcher]
                     (burst_start r count url key rqs verbose) = Reached p /\
        burst_complete p).
Proof.
  intros envs r count url key rqs verbose Hrqs.
  set (start := burst_start r count url key rqs verbose).
  assert (Hstart : report start = r /\ wg start = 0 /\ workers start = [] /\
                   delivered start = [] /\ events start = [] /\
                   idle_tail count verbose (dispatcher start)).
  { unfold start, burst_start, tick_body. rewrite (indices_nonpos rqs Hrqs).
    cbn [report wg workers delivered events dispatcher flat_map app].
    repeat split. left. reflexivity. }
  assert (Hreach : forall sched p, run_schedule envs sched start = Reached p ->
            report p = r /\ wg p = 0 /\ workers p = [] /\ delivered p = [] /\
            events p = [] /\ idle_tail count verbose (dispatcher p)).
  { intros sched p Hrun.
    apply (run_invariant envs
             (fun q => report q = r /\ wg q = 0 /\ workers q = [] /\
                       delivered q = [] /\ events q = [] /\
                       idle_tail count verbose (dispatcher q)))
      with (sched := sched) (p := start); [|exact Hstart|exact Hrun].
    intros t q q'. apply idle_step. }
  split; [|split].
  - intros sched evs how Hrun.
    destruct (run_crash_step _ _ _ _ _ Hrun) as [q [t [[s Hq] Hstep]]].
    destruct (Hreach s q Hq) as [_ [Hw [Hk [_ [_ Ht]]]]].
    exact (idle_no_crash envs count verbose t q evs how Hw Hk Ht Hstep).
  - intros sched p Hrun.
    destruct (Hreach sched p Hrun) as [H1 [_ [H3 [H4 [H5 _]]]]]. auto.
  - unfold start, burst_start, tick_body. rewrite (indices_nonpos rqs Hrqs).
    eexists. split; reflexivity.
Qed.

Lemma burst_without_requests_witness :
  (forall sched evs how,
      run_schedule example_envs sched (burst_start zero_report 1 "u" "k" (-4) true)
        <> Crash evs how) /\
  (forall sched p,
      run_schedule example_envs sched (burst_start zero_report 1 "u" "k" (-4) true)
        = Reached p ->
      report p = zero_report /\ workers p = [] /\ delivered p = [] /\ events p = []) /\
  (exists p,
      run_schedule example_envs [Dispatcher; Dispatcher; Dispatcher]
                   (burst_start zero_report 1 "u" "k" (-4) true) = Reached p /\
      burst_complete p).
Proof.
  apply (burst_without_requests example_envs zero_report 1 "u" "k" (-4) true). lia.
Defined.

(** ** The sleep of the controller *)

Lemma wrap_above : forall z,
  2 ^ 63 <= z < 2 ^ 63 + 2 ^ 64 -> GoInt.wrap z = z - 2 ^ 64.
Proof.
  intros z Hz. unfold GoInt.wrap.
  rewrite <- (Z.mod_unique (z + 2 ^ 63) (2 ^ 64) 1 (z + 2 ^ 63 - 2 ^ 64)); lia.
Qed.

(** X13. The controller does not wait at all when the duration is
    negative, and neither when [duration + 1] seconds overflow a
    [time.Duration] into a negative number of nanoseconds (from 9223372036
    seconds on): [time.Sleep] returns at once and the report is printed
    straight after the dispatcher is started. *)
Theorem executeRequests_without_pause :
  forall url key rqs duration verbose snapshot,
    -9223372037 <= duration <= -1 \/ 9223372036 <= duration <= 18446744072 ->
    exists d,
      executeRequests url key rqs duration verbose snapshot =
      ([ log_Println [AStr "Waiting for all requests to be executed..."];
         go_executeRequestWithTimer url key rqs verbose;
         time_Sleep d;
         log_Println [AStr "Requests executed successfully."];
         log_Println [AStr "--------------------REPORT--------------------"];
         fmt_Println [AStr (report_text snapshot)] ],
       Ok tt) /\
      sleep_pause d = 0.
Proof.
  intros url key rqs duration verbose snapshot Hd.
  exists (GoInt.mul time_Second (GoInt.add duration 1)).
  split; [apply executeRequests_unfold|].
  unfold GoInt.mul, GoInt.add.
  rewrite (wrap_in_range (duration + 1))
    by (unfold GoInt.in_range, GoInt.min_int, GoInt.max_int; lia).
  unfold sleep_pause, time_Second. destruct Hd as [Hd|Hd].
  - rewrite wrap_in_range
      by (unfold GoInt.in_range, GoInt.min_int, GoInt.max_int; lia).
    lia.
  - rewrite wrap_above by lia. lia.
Qed.

Lemma executeRequests_without_pause_witness :
  exists d,
    executeRequests "u" "k" 5 9223372036 false zero_report =
    ([ log_Println [AStr "Waiting for all requests to be executed..."];
       go_executeRequestWithTimer "u" "k" 5 false;
       time_Sleep d;
       log_Println [AStr "Requests executed successfully."];
       log_Println [AStr "--------------------REPORT--------------------"];
       fmt_Println [AStr (report_text zero_report)] ],
     Ok tt) /\
    sleep_pause d = 0.
Proof.
  apply (executeRequests_without_pause "u" "k" 5 9223372036 false zero_report).
  right. lia.
Defined.

(** ** Reading the printed report back *)

Lemma digit_val_char : forall d, (d < 10)%N -> digit_val (digit_char d) = d.
Proof.
  intros d Hd. unfold digit_val, digit_char.
  rewrite N_ascii_embedding by lia. lia.
Qed.

Lemma read_utoa_fuel : forall fuel n acc,
  (n < 2 ^ N.of_nat fuel)%N ->
  read_digits (utoa_fuel fuel n acc) 0 = read_digits acc n.
Proof.
  induction fuel as [|f IH]; intros n acc Hlt.
  - simpl in Hlt. assert (n = 0)%N by lia. subst n. reflexivity.
  - cbn [utoa_fuel].
    assert (Hm : (n mod 10 < 10)%N) by (apply N.mod_lt; lia).
    pose proof (N.div_mod n 10 ltac:(lia)) as Hdm.
    destruct (n / 10 =? 0)%N eqn:Hq.
    + apply N.eqb_eq in Hq. cbn [read_digits].
      rewrite digit_val_char by assumption. f_equal. lia.
    + apply N.eqb_neq in Hq. rewrite IH.
      * cbn [read_digits]. rewrite digit_val_char by assumption. f_equal. lia.
      * rewrite Nat2N.inj_succ, N.pow_succ_r' in Hlt.
        apply N.Div0.div_lt_upper_bound.
        remember (2 ^ N.of_nat f)%N as k. lia.
Qed.

Lemma read_utoa : forall n, read_digits (utoa n) 0 = n.
Proof.
  intro n. unfold utoa. rewrite read_utoa_fuel; [reflexivity|].
  rewrite Nat2N.inj_succ, N2Nat.id.
  destruct n as [|p]; [simpl; lia|]. apply N.log2_spec. lia.
Qed.

Lemma digit19_not_minus : forall c,
  json_scan.is_digit19 c = true -> Ascii.eqb c "-" = false.
Proof.
  intros c H. each_byte c; vm_compute in H; try discriminate H; reflexivity.
Qed.

(** [strconv.Atoi(strconv.Itoa(z)) == z] *)
Lemma atoi_itoa : forall z, atoi (itoa z) = z.
Proof.
  intros [|p|p].
  - reflexivity.
  - cbn [itoa]. destruct (utoa_shape p) as [d [ds [E [Hd _]]]].
    unfold atoi. rewrite E, (digit19_not_minus d Hd), <- E, read_utoa. reflexivity.
  - cbn [itoa]. change ("-" ++ utoa (N.pos p)) with (String "-" (utoa (N.pos p))).
    unfold atoi. rewrite Ascii.eqb_refl, read_utoa. reflexivity.
Qed.

Lemma digit_numeral : forall c,
  json_scan.is_digit c = true -> numeral_char c = true.
Proof.
  intros c H. unfold numeral_char. rewrite H. reflexivity.
Qed.

Lemma digits_numeral : forall s,
  string_forallb json_scan.is_digit s = true -> string_forallb numeral_char s = true.
Proof.
  induction s as [|c s IH]; intro H; [reflexivity|].
  cbn [string_forallb] in *. apply andb_true_iff in H. destruct H as [Hc Hs].
  rewrite (digit_numeral c Hc), (IH Hs). reflexivity.
Qed.

Lemma itoa_numeral : forall z, string_forallb numeral_char (itoa z) = true.
Proof.
  intros [|p|p]; [reflexivity| |];
    destruct (utoa_shape p) as [d [ds [E [Hd Hds]]]]; cbn [itoa]; rewrite E.
  - cbn [string_forallb].
    rewrite (digit_numeral d (digit19_is_digit d Hd)), (digits_numeral ds Hds).
    reflexivity.
  - cbn [append string_forallb].
    rewrite (digit_numeral d (digit19_is_digit d Hd)), (digits_numeral ds Hds).
    reflexivity.
Qed.

(** Two numerals followed by the same delimiter are equal when the texts
    are. *)
Lemma numeral_split : forall c s1 s2 t1 t2,
  numeral_char c = false ->
  string_forallb numeral_char s1 = true ->
  string_forallb numeral_char s2 = true ->
  s1 ++ String c t1 = s2 ++ String c t2 ->
  s1 = s2 /\ t1 = t2.
Proof.
  intros c. induction s1 as [|x s1 IH]; intros [|y s2] t1 t2 Hc H1 H2 E;
    cbn [append string_forallb] in *.
  - inversion E. auto.
  - inversion E; subst. apply andb_true_iff in H2. destruct H2 as [H2 _]. congruence.
  - inversion E; subst. apply andb_true_iff in H1. destruct H1 as [H1 _]. congruence.
  - inversion E; subst.
    apply andb_true_iff in H1. apply andb_true_iff in H2.
    destruct (IH s2 t1 t2 Hc (proj2 H1) (proj2 H2)) as [Es Et]; [assumption|].
    subst. auto.
Qed.

Lemma report_text_inj : forall r1 r2, report_text r1 = report_text r2 -> r1 = r2.
Proof.
  intros [a1 b1 c1] [a2 b2 c2] H. unfold report_text, quoted in H.
  cbn [TotalRequests TotalSuccess TotalFail] in H.
  pose proof (itoa_numeral a1) as Na1. pose proof (itoa_numeral a2) as Na2.
  pose proof (itoa_numeral b1) as Nb1. pose proof (itoa_numeral b2) as Nb2.
  pose proof (itoa_numeral c1) as Nc1. pose proof (itoa_numeral c2) as Nc2.
  pose proof (atoi_itoa a1) as Ra1. pose proof (atoi_itoa a2) as Ra2.
  pose proof (atoi_itoa b1) as Rb1. pose proof (atoi_itoa b2) as Rb2.
  pose proof (atoi_itoa c1) as Rc1. pose proof (atoi_itoa c2) as Rc2.
  revert H Na1 Na2 Nb1 Nb2 Nc1 Nc2 Ra1 Ra2 Rb1 Rb2 Rc1 Rc2.
  generalize (itoa a1) (itoa a2) (itoa b1) (itoa b2) (itoa c1) (itoa c2).
  intros sa1 sa2 sb1 sb2 sc1 sc2 H. intros.
  cbn [append str1] in H. inversion H as [H']; clear H.
  destruct (numeral_split "," _ _ _ _ eq_refl Na1 Na2 H') as [Ea H''].
  cbn [append] in H''. inversion H'' as [H3]; clear H''.
  destruct (numeral_split "," _ _ _ _ eq_refl Nb1 Nb2 H3) as [Eb H4].
  cbn [append] in H4. inversion H4 as [H5]; clear H4.
  destruct (numeral_split newline _ _ _ _ eq_refl Nc1 Nc2 H5) as [Ec _].
  subst. f_equal; congruence.
Qed.

(** X14. What the controller prints identifies the report: for two
    different reports the outputs of [executeRequests] differ. *)
Theorem executeRequests_output_identifies_report :
  forall url key rqs duration verbose r1 r2,
    r1 <> r2 ->
    fst (executeRequests url key rqs duration verbose r1) <>
    fst (executeRequests url key rqs duration verbose r2).
Proof.
  intros url key rqs duration verbose r1 r2 Hne E.
  rewrite !executeRequests_unfold in E. cbn [fst] in E.
  apply Hne. apply report_text_inj. congruence.
Qed.

Lemma executeRequests_output_identifies_report_witness :
  fst (executeRequests "u" "k" 5 3 false zero_report) <>
  fst (executeRequests "u" "k" 5 3 false
         {| TotalRequests := 15; TotalSuccess := 15; TotalFail := 0 |}).
Proof.
  apply (executeRequests_output_identifies_report "u" "k" 5 3 false zero_report
           {| TotalRequests := 15; TotalSuccess := 15; TotalFail := 0 |}).
  discriminate.
Defined.

(** ** The ticks of the dispatcher *)

Lemma complete_total_requests : forall envs sched r count url key rqs verbose p,
  GoInt.in_range (TotalRequests r) ->
  run_schedule envs sched (burst_start r count url key rqs verbose) = Reached p ->
  dispatcher p = [] ->
  TotalRequests (report p) = GoInt.wrap (TotalRequests r + Z.max 0 rqs) /\
  GoInt.in_range (TotalRequests (report p)).
Proof.
  intros envs sched r count url key rqs verbose p Hr Hrun Hdone.
  rewrite burst_start_max in Hrun.
  assert (Hinv : burst_inv (TotalRequests r + Z.max 0 rqs) (Z.max 0 rqs) p).
  { eapply run_schedule_inv; [|eassumption]. apply burst_start_inv; [lia|assumption]. }
  destruct Hinv as [Hreq Hrg _ _ _ _ Hc].
  split; [|assumption].
  rewrite Hdone in Hreq. rewrite (sum_threads_all_nil _ _ (Hc Hdone)) in Hreq.
  simpl in Hreq. rewrite !Z.add_0_r in Hreq.
  rewrite <- Hreq. symmetry. apply wrap_in_range. assumption.
Qed.

(** X15. Taking each increment of a counter as atomic (the program does
    not synchronise the workers' increments, and concurrent ones can be
    lost), the ticks of the dispatcher add up: when it stands between two
    ticks after [n] bursts, its counter (0 when it starts) has advanced by
    [n] and [TotalRequests] has grown by [n] times the number of requests
    per tick (modulo the wrap-around of [int]), however the atomic steps of
    the goroutines interleaved and whatever the servers answered; and in no
    tick is the process brought down other than by [os.Exit(1)] of a
    collector that prints bodies. *)
Theorem executeRequestWithTimer_ticks :
  forall envs url key rqs verbose scheds count r,
    GoInt.in_range count ->
    GoInt.in_range (TotalRequests r) ->
    (forall c r',
        executeRequestWithTimer envs url key rqs verbose scheds count r = Ticked c r' ->
        c = GoInt.wrap (count + Z.of_nat (List.length scheds)) /\
        TotalRequests r' =
          GoInt.wrap (TotalRequests r + Z.of_nat (List.length scheds) * Z.max 0 rqs)) /\
    (forall evs how,
        executeRequestWithTimer envs url key rqs verbose scheds count r = Down evs how ->
        how = OsExit 1 /\ verbose = true).
Proof.
  intros envs url key rqs verbose scheds.
  induction scheds as [|sched rest IH]; intros count r Hc Hr.
  - split.
    + intros c r' H. inversion H; subst. cbn [List.length Z.of_nat].
      replace (TotalRequests r' + 0 * Z.max 0 rqs) with (TotalRequests r') by lia.
      rewrite Z.add_0_r, !wrap_in_range by assumption. auto.
    + intros evs how H. discriminate H.
  - cbn [executeRequestWithTimer].
    destruct (run_schedule (envs (GoInt.add count 1)) sched
                (burst_start r (GoInt.add count 1) url key rqs verbose))
      as [p|p t|evs' how'] eqn:Hrun.
    + destruct (dispatcher p) as [|op d] eqn:Hd.
      * destruct (complete_total_requests _ _ _ _ _ _ _ _ _ Hr Hrun Hd) as [Et Hrg].
        destruct (IH (GoInt.add count 1) (report p) (wrap_range _) Hrg) as [IH1 IH2].
        split; [|exact IH2].
        intros c r' H. destruct (IH1 c r' H) as [Ec Er]. split.
        -- rewrite Ec. unfold GoInt.add. rewrite wrap_add_l. f_equal.
           cbn [List.length]. lia.
        -- rewrite Er, Et, wrap_add_l. f_equal. cbn [List.length]. lia.
      * split; intros; discriminate.
    + split; intros; discriminate.
    + split; [intros; discriminate|].
      intros evs how H. inversion H; subst evs' how'.
      destruct (run_crash_step _ _ _ _ _ Hrun) as [q [t [Hq Hstep]]].
      destruct (reachable_inv _ _ _ _ _ _ _ _ Hr Hq) as [Hb [Ht Hl]].
      eapply step_crash_cause; eassumption.
Qed.

Lemma executeRequestWithTimer_ticks_witness :
  (forall c r',
      executeRequestWithTimer (fun _ => example_envs) "u" "k" 2 false
        [sequential_schedule 2 4; sequential_schedule 2 4] 0 zero_report = Ticked c r' ->
      c = GoInt.wrap (0 + Z.of_nat (List.length [sequential_schedule 2 4;
                                                 sequential_schedule 2 4])) /\
      TotalRequests r' =
        GoInt.wrap (TotalRequests zero_report
                    + Z.of_nat (List.length [sequential_schedule 2 4;
                                             sequential_schedule 2 4]) * Z.max 0 2)) /\
  (forall evs how,
      executeRequestWithTimer (fun _ => example_envs) "u" "k" 2 false
        [sequential_schedule 2 4; sequential_schedule 2 4] 0 zero_report = Down evs how ->
      how = OsExit 1 /\ false = true).
Proof.
  apply (executeRequestWithTimer_ticks (fun _ => example_envs) "u" "k" 2 false
           [sequential_schedule 2 4; sequential_schedule 2 4] 0 zero_report);
    vm_compute; split; discriminate.
Defined.

(** X16. Provided every HTTP call returns ([envs] holds what each call
    returns; the client has no timeout, and a call that never returns
    keeps [wg.Wait()] waiting for ever) and the number of requests per tick
    is less than the largest [int] (so that the loop of line 149 ends):
    when bodies are not printed the dispatcher can go on, for every number
    of ticks there are schedules along which that many bursts run to
    completion, one after the other. *)
Theorem executeRequestWithTimer_can_tick :
  forall envs url key rqs (n : nat) count r,
    rqs < GoInt.max_int ->
    exists scheds c r',
      List.length scheds = n /\
      executeRequestWithTimer envs url key rqs false scheds count r = Ticked c r'.
Proof.
  intros envs url key rqs n count r _. revert count r.
  induction n as [|n IH]; intros count r.
  - exists [], count, r. split; reflexivity.
  - destruct (burst_can_complete (envs (GoInt.add count 1)) r (GoInt.add count 1)
                url key rqs) as [p [Hrun Hdone]].
    destruct (IH (GoInt.add count 1) (report p)) as [scheds [c [r' [Hlen Hrest]]]].
    exists (complete_schedule (envs (GoInt.add count 1)) url key rqs false :: scheds),
           c, r'.
    split; [cbn [List.length]; congruence|].
    cbn [executeRequestWithTimer]. rewrite Hrun.
    unfold burst_complete in Hdone. rewrite Hdone. exact Hrest.
Qed.

Lemma executeRequestWithTimer_can_tick_witness :
  exists scheds c r',
    List.length scheds = 2%nat /\
    executeRequestWithTimer (fun _ => example_envs) "u" "k" 2 false scheds 0 zero_report
      = Ticked c r'.
Proof.
  apply (executeRequestWithTimer_can_tick (fun _ => example_envs) "u" "k" 2 2 0
           zero_report).
  vm_compute. reflexivity.
Defined.

(** ** The controller and its dispatcher *)

(** No tick brings the process down other than by [os.Exit(1)] of a
    collector that prints bodies. *)
Lemma ticks_down_cause : forall envs url key rqs verbose scheds count r evs how,
  GoInt.in_range (TotalRequests r) ->
  executeRequestWithTimer envs url key rqs verbose scheds count r = Down evs how ->
  how = OsExit 1 /\ verbose = true.
Proof.
  intros envs url key rqs verbose scheds.
  induction scheds as [|sched rest IH]; intros count r evs how Hr H.
  - discriminate H.
  - cbn [executeRequestWithTimer] in H.
    destruct (run_schedule (envs (GoInt.add count 1)) sched
                (burst_start r (GoInt.add count 1) url key rqs verbose))
      as [p|p t|evs' how'] eqn:Hrun.
    + destruct (dispatcher p) as [|op d] eqn:Hd; [|discriminate H].
      destruct (complete_total_requests _ _ _ _ _ _ _ _ _ Hr Hrun Hd) as [_ Hrg].
      exact (IH _ _ _ _ Hrg H).
    + discriminate H.
    + inversion H; subst evs' how'.
      destruct (run_crash_step _ _ _ _ _ Hrun) as [q [t [Hq Hstep]]].
      destruct (reachable_inv _ _ _ _ _ _ _ _ Hr Hq) as [Hb [Ht Hl]].
      eapply step_crash_cause; eassumption.
Qed.

(** When bodies are not printed the dispatcher that the controller starts
    on the zero report never brings the process down. *)
Lemma dispatcher_stays_up : forall envs url key rqs scheds evs how,
  executeRequestWithTimer envs url key rqs false scheds 0 zero_report <> Down evs how.
Proof.
  intros envs url key rqs scheds evs how H.
  destruct (ticks_down_cause envs url key rqs false scheds 0 zero_report evs how)
    as [_ Hv]; [vm_compute; split; discriminate|exact H|discriminate Hv].
Qed.

(** C9, amended.  When bodies are not printed and [duration + 1] seconds
    fit a [time.Duration] (that is, for a duration from -1 to 9223372035),
    the controller starts the dispatcher in a goroutine of its own, then
    sleeps for exactly [duration + 1] seconds, and then prints the report
    as an object indented by two spaces with the fields TotalRequests,
    TotalSuccess and TotalFail, and returns; meanwhile the dispatcher,
    whatever its ticks, does not end the process. *)
Theorem executeRequests_trace :
  forall url key rqs duration verbose snapshot,
    verbose = false ->
    -1 <= duration <= 9223372035 ->
    executeRequests url key rqs duration verbose snapshot =
    ([ log_Println [AStr "Waiting for all requests to be executed..."];
       go_executeRequestWithTimer url key rqs verbose;
       time_Sleep ((duration + 1) * time_Second);
       log_Println [AStr "Requests executed successfully."];
       log_Println [AStr "--------------------REPORT--------------------"];
       fmt_Println [AStr (report_text snapshot)] ],
     Ok tt) /\
    sleep_pause ((duration + 1) * time_Second) = (duration + 1) * 1000000000 /\
    (forall envs scheds evs how,
        executeRequestWithTimer envs url key rqs verbose scheds 0 zero_report
          <> Down evs how).
Proof.
  intros url key rqs duration verbose snapshot Hv Hd. subst verbose.
  rewrite executeRequests_unfold. split; [|split].
  - unfold GoInt.mul, GoInt.add.
    rewrite (wrap_in_range (duration + 1)).
    + rewrite wrap_in_range.
      * rewrite Z.mul_comm. reflexivity.
      * unfold GoInt.in_range, GoInt.min_int, GoInt.max_int, time_Second. lia.
    + unfold GoInt.in_range, GoInt.min_int, GoInt.max_int. lia.
  - unfold sleep_pause, time_Second. lia.
  - intros envs scheds evs how. apply dispatcher_stays_up.
Qed.

Lemma executeRequests_trace_witness :
  executeRequests "u" "k" 5 3 false
    {| TotalRequests := 15; TotalSuccess := 15; TotalFail := 0 |} =
  ([ log_Println [AStr "Waiting for all requests to be executed..."];
     go_executeRequestWithTimer "u" "k" 5 false;
     time_Sleep ((3 + 1) * time_Second);
     log_Println [AStr "Requests executed successfully."];
     log_Println [AStr "--------------------REPORT--------------------"];
     fmt_Println [AStr (report_text
                          {| TotalRequests := 15; TotalSuccess := 15; TotalFail := 0 |})] ],
   Ok tt) /\
  sleep_pause ((3 + 1) * time_Second) = (3 + 1) * 1000000000 /\
  (forall envs scheds evs how,
      executeRequestWithTimer envs "u" "k" 5 false scheds 0 zero_report <> Down evs how).
Proof.
  apply (executeRequests_trace "u" "k" 5 3 false
           {| TotalRequests := 15; TotalSuccess := 15; TotalFail := 0 |}).
  - reflexivity.
  - lia.
Defined.

(** C5, amended.  The program does not validate the requests per tick nor
    the duration: for every configuration, non-positive values included,
    [main] prints the flags and starts the dispatcher with the values as
    they were given, so that no configuration is rejected; with a
    non-positive number of requests per tick a burst starts no worker.
    When bodies are not printed the dispatcher, whatever its ticks, does
    not end the process, and the main goroutine, after its sleep, prints
    the report and returns: the process ends with status 0. *)
Theorem main_never_rejects :
  forall parsed snapshot,
    run_started (fst (main parsed snapshot)) = true /\
    In (go_executeRequestWithTimer (flag_url parsed) (flag_key parsed)
                                   (flag_rqs parsed) (flag_verbose parsed))
       (fst (main parsed snapshot)) /\
    ~ rejected (main parsed snapshot) /\
    (flag_rqs parsed <= 0 -> indices (flag_rqs parsed) = []) /\
    (flag_verbose parsed = false ->
     (forall envs scheds evs how,
         executeRequestWithTimer envs (flag_url parsed) (flag_key parsed)
           (flag_rqs parsed) (flag_verbose parsed) scheds 0 zero_report
           <> Down evs how) /\
     exit_status (main parsed snapshot) = 0 /\
     In (fmt_Println [AStr (report_text snapshot)]) (fst (main parsed snapshot))).
Proof.
  intros parsed snapshot.
  assert (E : main parsed snapshot =
              ([ fmt_Println [AStr "url:"; AStr (flag_url parsed)];
                 fmt_Println [AStr "key:"; AStr (flag_key parsed)];
                 fmt_Println [AStr "rqs:"; AInt (flag_rqs parsed)];
                 fmt_Println [AStr "duration:"; AInt (flag_duration parsed)];
                 fmt_Println [AStr "verbose:"; ABool (flag_verbose parsed)];
                 log_Println [AStr "Waiting for all requests to be executed..."];
                 go_executeRequestWithTimer (flag_url parsed) (flag_key parsed)
                                            (flag_rqs parsed) (flag_verbose parsed);
                 time_Sleep (GoInt.mul time_Second (GoInt.add (flag_duration parsed) 1));
                 log_Println [AStr "Requests executed successfully."];
                 log_Println [AStr "--------------------REPORT--------------------"];
                 fmt_Println [AStr (report_text snapshot)] ],
               Ok tt)).
  { unfold main, getFlags. cbn [bind emit ret app].
    rewrite executeRequests_unfold. reflexivity. }
  rewrite E. split; [reflexivity|]. split; [|split; [|split]].
  - cbn [fst]. do 6 right. left. reflexivity.
  - intros [_ H]. discriminate H.
  - intro H. unfold indices.
    destruct (flag_rqs parsed) as [|q|q]; try reflexivity. lia.
  - intros Hv. rewrite Hv. split; [|split].
    + intros envs scheds evs how. apply dispatcher_stays_up.
    + reflexivity.
    + cbn [fst]. do 10 right. left. reflexivity.
Qed.

Lemma main_never_rejects_witness :
  indices (flag_rqs (example_flags (-2) 0)) = [] /\
  (forall envs scheds evs how,
      executeRequestWithTimer envs (flag_url (example_flags (-2) 0))
        (flag_key (example_flags (-2) 0)) (flag_rqs (example_flags (-2) 0))
        (flag_verbose (example_flags (-2) 0)) scheds 0 zero_report <> Down evs how) /\
  exit_status (main (example_flags (-2) 0) zero_report) = 0 /\
  In (fmt_Println [AStr (report_text zero_report)])
     (fst (main (example_flags (-2) 0) zero_report)).
Proof.
  destruct (main_never_rejects (example_flags (-2) 0) zero_report)
    as [_ [_ [_ [H3 H4]]]].
  split; [apply H3; simpl; lia|]. apply H4. reflexivity.
Defined.
